(** * Olive: a shallow embedding of the argument parsing engine

    The development follows the Go sources of the library: the command
    tree and the result structure of [olive.go], the flags and the
    argument kinds, and the token state machine of the parser
    ([argParser]).
    Go maps are finite maps ([gmap]) and finite sets ([gset]); Go slices
    are lists indexed with [!!]; an index out of range is a run-time
    panic and is kept as such. *)

From Stdlib Require Import ZArith String Ascii.
From stdpp Require Import gmap strings list fin_maps.

#[local] Set Warnings "-register-all".
#[local] Open Scope string_scope.
#[local] Open Scope list_scope.

(** ** The part of Go's [strings] package that the parser calls *)

Module strings.

(** [strings.HasPrefix(s, prefix)] *)
Fixpoint HasPrefix (s prefix : string) {struct prefix} : bool :=
  match prefix with
  | EmptyString => true
  | String p prefix' =>
      match s with
      | EmptyString => false
      | String c s' => if decide (c = p) then HasPrefix s' prefix' else false
      end
  end.

(** [strings.Contains(s, substr)] *)
Fixpoint Contains (s substr : string) : bool :=
  HasPrefix s substr ||
  match s with
  | EmptyString => false
  | String _ s' => Contains s' substr
  end.

(** [strings.IndexByte(s, c) >= 0] *)
Fixpoint ContainsByte (s : string) (c : ascii) : bool :=
  match s with
  | EmptyString => false
  | String d s' => if decide (d = c) then true else ContainsByte s' c
  end.

(** [strings.Split(s, sep)] for a separator of one byte, which is the
    only way the parser calls it (with ["="]).  The result is never
    empty: a string without the separator is returned as one part. *)
Fixpoint Split (s : string) (sep : ascii) : list string :=
  match s with
  | EmptyString => [EmptyString]
  | String c s' =>
      if decide (c = sep) then EmptyString :: Split s' sep
      else match Split s' sep with
           | [] => [String c EmptyString]
           | p :: ps => String c p :: ps
           end
  end.

(** [strings.Join(elems, sep)] *)
Fixpoint Join (elems : list string) (sep : string) : string :=
  match elems with
  | [] => EmptyString
  | [e] => e
  | e :: es => e +:+ sep +:+ Join es sep
  end.

(** [strings.TrimLeft(s, cutset)]: drops the leading bytes of [s] that
    occur in [cutset]. *)
Fixpoint TrimLeft (s cutset : string) : string :=
  match s with
  | EmptyString => EmptyString
  | String c s' => if ContainsByte cutset c then TrimLeft s' cutset else s
  end.

End strings.

(** ** Outcomes of Go code: a value, an [error], or a run-time panic *)

(** The errors the library builds with [fmt.Errorf], one constructor per
    format string, carrying the formatted operands.  [NumError] stands
    for the error of [strconv], [CallerError] for an error that a
    validator supplied by the caller returns. *)
Inductive error : Type :=
| UnknownFlag (name : string)
| UnknownArgument (name : string)
| UnknownFlagByShortName (name : string)
| UnknownArgumentByShortName (name : string)
| MultiplePrimaryArguments (command : string)
| UnknownSubcommand (token : string)
| RequiresASubcommand (command : string)
| FlagSetMultipleTimes (name : string)
| ArgumentSetMultipleTimes (name : string)
| NotAValidValue (val name : string)
| NumError (val : string)
| CallerError (msg : string).

Inductive Res (A : Type) : Type :=
| Ok (a : A)
| Err (e : error)
| Panic (msg : string).
Arguments Ok {A} a.
Arguments Err {A} e.
Arguments Panic {A} msg.

Definition Res_bind {A B : Type} (r : Res A) (k : A -> Res B) : Res B :=
  match r with
  | Ok a => k a
  | Err e => Err e
  | Panic m => Panic m
  end.

(** [s[i]] on a slice: a panic when [i] is out of range. *)
Definition index {A : Type} (s : list A) (i : nat) : Res A :=
  match s !! i with
  | Some a => Ok a
  | None => Panic "index out of range"
  end.

(** [s[len(s)-1]] *)
Definition top {A : Type} (s : list A) : Res A :=
  match last s with
  | Some a => Ok a
  | None => Panic "index out of range [-1]"
  end.

(** [s[n:]] on a slice: a panic when [n] exceeds the length. *)
Definition slice_from {A : Type} (n : nat) (s : list A) : Res (list A) :=
  if decide (n <= length s) then Ok (drop n s)
  else Panic "slice bounds out of range".

(** ** What the library takes from its host

    The callbacks a caller attaches (flag actions, validators) are Go
    closures: they act on a state of the world that the parser never
    inspects, and they are taken to return; a callback that ends the
    process, as the action of the help flag does with [os.Exit], ends
    the run where it is called.  [strconv.ParseInt(val, 0,
    bits.UintSize)] and [strconv.ParseFloat(val, 64)] belong to Go's
    standard library; they are taken as given, [None] being their
    error result. *)
Class Host : Type := {
  World : Type;
  float64 : Type;
  strconv_ParseInt : string -> option Z;
  strconv_ParseFloat : string -> option float64;
}.

Section Olive.
Context `{Host}.

(** Go code with an effect on the world, returning a value, an error or
    panicking. *)
Definition M (A : Type) : Type := World -> Res A * World.

Definition ret {A : Type} (a : A) : M A := fun w => (Ok a, w).
Definition fail {A : Type} (e : error) : M A := fun w => (Err e, w).
Definition lift {A : Type} (r : Res A) : M A := fun w => (r, w).
Definition bind {A B : Type} (m : M A) (k : A -> M B) : M B :=
  fun w => match m w with
           | (Ok a, w') => k a w'
           | (Err e, w') => (Err e, w')
           | (Panic msg, w') => (Panic msg, w')
           end.

(** ** Flags and arguments *)

(** [type Flag struct { name, shortName string; desc string; action func() }] *)
Record Flag : Type := mkFlag {
  flag_name : string;
  flag_shortName : string;
  flag_desc : string;
  flag_action : option (World -> World);
}.

(** The values an [interface{}] holds in [ArgParseResult.Arguments]. *)
Inductive Value : Type :=
| VInt (v : Z)
| VFloat (v : float64)
| VString (v : string).

(** [func(T) error]: [None] is the [nil] error, [Some msg] an error
    made by the caller. *)
Definition validator (T : Type) : Type := T -> World -> option string * World.

(** [type argumentBase struct]; the [interface{}] field [defaultValue]
    is [None] when it is [nil]. *)
Record argumentBase : Type := mkArgumentBase {
  name : string;
  shortName : string;
  desc : string;
  required : bool;
  defaultValue : option Value;
}.

(** The four implementations of the [Argument] interface. *)
Inductive Argument : Type :=
| IntArgument (ab : argumentBase) (v : option (validator Z))
| FloatArgument (ab : argumentBase) (v : option (validator float64))
| StringArgument (ab : argumentBase) (v : option (validator string))
| SelectorArgument (ab : argumentBase) (possibleValues : gset string)
                   (v : option (validator string)).

Definition base (arg : Argument) : argumentBase :=
  match arg with
  | IntArgument ab _ | FloatArgument ab _ | StringArgument ab _
  | SelectorArgument ab _ _ => ab
  end.

Definition Argument_Name (arg : Argument) : string := name (base arg).
Definition Argument_ShortName (arg : Argument) : string := shortName (base arg).
Definition Argument_Required (arg : Argument) : bool := required (base arg).

(** [return ab.defaultValue, ab.defaultValue != nil] *)
Definition GetDefaultValue (arg : Argument) : option Value :=
  defaultValue (base arg).

(** [if v != nil { if err := v(x); err != nil { return nil, err } }; return x, nil] *)
Definition validate {T : Type} (v : option (validator T)) (x : T)
    (inj : T -> Value) : M Value :=
  match v with
  | None => ret (inj x)
  | Some f => fun w => match f x w with
                       | (Some msg, w') => (Err (CallerError msg), w')
                       | (None, w') => (Ok (inj x), w')
                       end
  end.

Definition checkValue (arg : Argument) (val : string) : M Value :=
  match arg with
  | IntArgument _ v =>
      match strconv_ParseInt val with
      | None => fail (NumError val)
      | Some raw => validate v raw VInt
      end
  | FloatArgument _ v =>
      match strconv_ParseFloat val with
      | None => fail (NumError val)
      | Some x => validate v x VFloat
      end
  | StringArgument _ v => validate v val VString
  | SelectorArgument ab possibleValues v =>
      if decide (val ∈ possibleValues) then validate v val VString
      else fail (NotAValidValue val (name ab))
  end.

Definition setDefault (ab : argumentBase) (v : Value) : argumentBase :=
  mkArgumentBase (name ab) (shortName ab) (desc ab) (required ab) (Some v).

(** [SetDefaultValue] of the four kinds; an [Err] is the [log.Fatalf]
    exit.  The first three run the validator on the value, the selector
    runs its [checkValue]. *)
Definition IntArgument_SetDefaultValue (ab : argumentBase)
    (vd : option (validator Z)) (v : Z) : M Argument :=
  bind (validate vd v VInt) (fun _ => ret (IntArgument (setDefault ab (VInt v)) vd)).

Definition FloatArgument_SetDefaultValue (ab : argumentBase)
    (vd : option (validator float64)) (v : float64) : M Argument :=
  bind (validate vd v VFloat)
    (fun _ => ret (FloatArgument (setDefault ab (VFloat v)) vd)).

Definition StringArgument_SetDefaultValue (ab : argumentBase)
    (vd : option (validator string)) (v : string) : M Argument :=
  bind (validate vd v VString)
    (fun _ => ret (StringArgument (setDefault ab (VString v)) vd)).

Definition SelectorArgument_SetDefaultValue (ab : argumentBase)
    (possibleValues : gset string) (vd : option (validator string))
    (v : string) : M Argument :=
  bind (checkValue (SelectorArgument ab possibleValues vd) v)
    (fun _ => ret (SelectorArgument (setDefault ab (VString v))
                     possibleValues vd)).

(** [type PrimaryArgument struct] *)
Record PrimaryArgument : Type := mkPrimaryArgument {
  pa_name : string;
  pa_desc : string;
  pa_required : bool;
}.

(** ** The command tree and the parse result ([olive.go]) *)

Inductive Command : Type := mkCommand {
  Name : string;
  Description : string;
  RequiresSubcommand : bool;
  subcommands : gmap string Command;
  flags : gmap string Flag;
  args : gmap string Argument;
  flagsByShortName : gmap string Flag;
  argsByShortName : gmap string Argument;
  primaryArg : option PrimaryArgument;
}.

(** An [ArgParseResult] object while the parser mutates it.  The parser
    holds these objects in [semanticStack] and links each one to its
    child by the pointer [subcommandRes]; here the objects live in the
    stack and the pointer is the position of the child in it. *)
Record resultObj : Type := mkResultObj {
  o_flags : gset string;
  o_Arguments : gmap string Value;
  o_subcommandName : string;
  o_subcommandRes : option nat;
  o_primaryArg : string;
}.

(** [&ArgParseResult{flags: make(...), Arguments: make(...)}] *)
Definition newResult : resultObj := mkResultObj ∅ ∅ "" None "".

(** The assignments that the parser makes to the fields of an object. *)

(** [r.flags[nm] = struct{}{}] *)
Definition addFlag (r : resultObj) (nm : string) : resultObj :=
  mkResultObj ({[nm]} ∪ o_flags r) (o_Arguments r) (o_subcommandName r)
    (o_subcommandRes r) (o_primaryArg r).

(** [r.Arguments[nm] = val] *)
Definition setArgument (r : resultObj) (nm : string) (val : Value) : resultObj :=
  mkResultObj (o_flags r) (<[nm := val]> (o_Arguments r)) (o_subcommandName r)
    (o_subcommandRes r) (o_primaryArg r).

(** [r.primaryArg = arg] *)
Definition setPrimaryArg (r : resultObj) (arg : string) : resultObj :=
  mkResultObj (o_flags r) (o_Arguments r) (o_subcommandName r)
    (o_subcommandRes r) arg.

(** [r.subcommandRes = newResult; r.subcommandName = nm], the new object
    being the one at position [child]. *)
Definition setSubcommand (r : resultObj) (child : nat) (nm : string) : resultObj :=
  mkResultObj (o_flags r) (o_Arguments r) nm (Some child) (o_primaryArg r).

(** The [ArgParseResult] the caller receives: the objects read through
    their pointers. *)
Inductive ArgParseResult : Type := mkArgParseResult {
  r_flags : gset string;
  Arguments : gmap string Value;
  subcommandName : string;
  subcommandRes : option ArgParseResult;
  r_primaryArg : string;
}.

Definition HasFlag (apr : ArgParseResult) (nm : string) : bool :=
  bool_decide (nm ∈ r_flags apr).

Definition PrimaryArg (apr : ArgParseResult) : string * bool :=
  (r_primaryArg apr, negb (bool_decide (r_primaryArg apr = ""))).

Definition Subcommand (apr : ArgParseResult)
    : string * option ArgParseResult * bool :=
  (subcommandName apr, subcommandRes apr,
   match subcommandRes apr with Some _ => true | None => false end).

(** Following the pointers from the object at [addr]; the fuel bounds
    the length of the chain. *)
Fixpoint readResult (fuel : nat) (store : list resultObj) (addr : nat)
    : Res ArgParseResult :=
  match fuel with
  | 0 => Panic "result chain longer than the stack"
  | S fuel' =>
      Res_bind (index store addr) (fun o =>
        match o_subcommandRes o with
        | None =>
            Ok (mkArgParseResult (o_flags o) (o_Arguments o)
                  (o_subcommandName o) None (o_primaryArg o))
        | Some next =>
            Res_bind (readResult fuel' store next) (fun child =>
              Ok (mkArgParseResult (o_flags o) (o_Arguments o)
                    (o_subcommandName o) (Some child) (o_primaryArg o)))
        end)
  end.

(** ** The parser ([argParser]) *)

Record argParser : Type := mkArgParser {
  initialCommand : Command;
  commandStack : list Command;
  semanticStack : list resultObj;
  allowSubcommands : bool;
}.

Definition set_allowSubcommands (ap : argParser) (b : bool) : argParser :=
  mkArgParser (initialCommand ap) (commandStack ap) (semanticStack ap) b.

Definition set_semanticStack (ap : argParser) (s : list resultObj) : argParser :=
  mkArgParser (initialCommand ap) (commandStack ap) s (allowSubcommands ap).

Definition currCommand (ap : argParser) : Res Command := top (commandStack ap).
Definition currResult (ap : argParser) : Res resultObj := top (semanticStack ap).

(** [extractComponents] *)
Definition extractComponents (arg : string) : string * string :=
  if strings.Contains arg "=" then
    let argComponents := strings.Split arg "="%char in
    (strings.TrimLeft (hd "" argComponents) "-",
     strings.Join (tl argComponents) "=")
  else (strings.TrimLeft arg "-", "").

(** [setFlag] *)
Definition setFlag (ap : argParser) (ndx : nat) (flag : Flag) : M argParser :=
  bind (lift (index (semanticStack ap) ndx)) (fun r =>
    if decide (flag_name flag ∈ o_flags r) then
      fail (FlagSetMultipleTimes (flag_name flag))
    else
      let ap' := set_semanticStack ap
                   (<[ndx := addFlag r (flag_name flag)]> (semanticStack ap)) in
      match flag_action flag with
      | Some action => fun w => (Ok ap', action w)
      | None => ret ap'
      end).

(** [setArg] *)
Definition setArg (ap : argParser) (ndx : nat) (arg : Argument)
    (value : string) : M argParser :=
  bind (lift (index (semanticStack ap) ndx)) (fun r =>
    match o_Arguments r !! Argument_Name arg with
    | Some _ => fail (ArgumentSetMultipleTimes (Argument_Name arg))
    | None =>
        bind (checkValue arg value) (fun val =>
          ret (set_semanticStack ap
                 (<[ndx := setArgument r (Argument_Name arg) val]>
                    (semanticStack ap))))
    end).

(** The loops [for i := len(ap.commandStack) - 1; i > -1; i--] of
    [consume]; [n] is [i + 1].  The four loops of the source differ in
    the table they look the name up in and in the error that follows
    the loop. *)
Fixpoint flagLoop (table : Command -> gmap string Flag) (ap : argParser)
    (argName : string) (unknown : error) (n : nat) : M argParser :=
  match n with
  | 0 => fail unknown
  | S i =>
      bind (lift (index (commandStack ap) i)) (fun c =>
        match table c !! argName with
        | Some flag => setFlag ap i flag
        | None => flagLoop table ap argName unknown i
        end)
  end.

Fixpoint argLoop (table : Command -> gmap string Argument) (ap : argParser)
    (argName argVal : string) (unknown : error) (n : nat) : M argParser :=
  match n with
  | 0 => fail unknown
  | S i =>
      bind (lift (index (commandStack ap) i)) (fun c =>
        match table c !! argName with
        | Some arg => setArg ap i arg argVal
        | None => argLoop table ap argName argVal unknown i
        end)
  end.

(** [consume] *)
Definition consume (ap : argParser) (arg : string) : M argParser :=
  if strings.HasPrefix arg "--" then
    let ap := set_allowSubcommands ap false in
    let '(argName, argVal) := extractComponents arg in
    if decide (argVal = "") then
      flagLoop flags ap argName (UnknownFlag argName)
        (length (commandStack ap))
    else
      argLoop args ap argName argVal (UnknownArgument argName)
        (length (commandStack ap))
  else if strings.HasPrefix arg "-" then
    let ap := set_allowSubcommands ap false in
    let '(argName, argVal) := extractComponents arg in
    if decide (argVal = "") then
      flagLoop flagsByShortName ap argName (UnknownFlagByShortName argName)
        (length (commandStack ap))
    else
      argLoop argsByShortName ap argName argVal
        (UnknownArgumentByShortName argName) (length (commandStack ap))
  else
    bind (lift (currCommand ap)) (fun c =>
      match primaryArg c with
      | Some _ =>
          let ap := set_allowSubcommands ap false in
          bind (lift (currResult ap)) (fun r =>
            if decide (o_primaryArg r = "") then
              ret (set_semanticStack ap
                     (<[length (semanticStack ap) - 1 := setPrimaryArg r arg]>
                        (semanticStack ap)))
            else fail (MultiplePrimaryArguments (Name c)))
      | None =>
          if allowSubcommands ap then
            match subcommands c !! arg with
            | Some subc =>
                bind (lift (currResult ap)) (fun r =>
                  ret (mkArgParser (initialCommand ap)
                         (commandStack ap ++ [subc])
                         (<[length (semanticStack ap) - 1 :=
                              setSubcommand r (length (semanticStack ap)) (Name subc)]>
                            (semanticStack ap)
                          ++ [newResult])
                         true))
            | None => fail (UnknownSubcommand arg)
            end
          else fail (UnknownSubcommand arg)
      end).

(** [for _, arg := range args { if err := ap.consume(arg); ... }] *)
Fixpoint consumeAll (ap : argParser) (tokens : list string) : M argParser :=
  match tokens with
  | [] => ret ap
  | arg :: rest => bind (consume ap arg) (fun ap' => consumeAll ap' rest)
  end.

(** The body of the inner loop of the default pass, for one argument of
    the command at position [i]. *)
Definition fillDefault (i : nat) (arg : Argument) (ap : argParser)
    : Res argParser :=
  match GetDefaultValue arg with
  | Some val =>
      Res_bind (index (semanticStack ap) i) (fun r =>
        match o_Arguments r !! Argument_Name arg with
        | Some _ => Ok ap
        | None =>
            Ok (set_semanticStack ap
                  (<[i := setArgument r (Argument_Name arg) val]>
                     (semanticStack ap)))
        end)
  | None => Ok ap
  end.

(** The default pass, [for i := len(ap.commandStack) - 1; i > -1; i--]
    with [n = i + 1].  Go leaves the order of [range] over a map
    unspecified; [map_fold] fixes one. *)
Fixpoint fillDefaults (ap : argParser) (n : nat) : Res argParser :=
  match n with
  | 0 => Ok ap
  | S i =>
      Res_bind (index (commandStack ap) i) (fun c =>
        Res_bind
          (map_fold (fun _ arg acc => Res_bind acc (fillDefault i arg))
             (Ok ap) (args c))
          (fun ap' => fillDefaults ap' i))
  end.

(** [len(c.subcommands) > 0 && c.RequiresSubcommand]: the test that
    [parse] makes on the command it ends on. *)
Definition missesSubcommand (c : Command) : bool :=
  bool_decide (0 < size (subcommands c)) && RequiresSubcommand c.

(** The state that [parse] starts from. *)
Definition initial (cli : Command) : argParser :=
  mkArgParser cli [cli] [newResult] true.

(** [parse] *)
Definition parse (cli : Command) (tokens : list string) : M ArgParseResult :=
  bind (consumeAll (initial cli) tokens) (fun ap =>
    bind (lift (currCommand ap)) (fun c =>
      if missesSubcommand c then fail (RequiresASubcommand (Name c))
      else
        bind (lift (fillDefaults ap (length (commandStack ap)))) (fun ap =>
          lift (readResult (length (semanticStack ap)) (semanticStack ap) 0)))).

(** [ParseArgs] *)
Definition ParseArgs (cli : Command) (tokens : list string) : M ArgParseResult :=
  bind (lift (slice_from 1 tokens)) (fun rest => parse cli rest).

(** ** Vocabulary of the specification *)

(** A bare word: a token that takes neither dash branch of [consume]. *)
Definition bare (arg : string) : Prop := strings.HasPrefix arg "-" = false.

(** A name that survives [extractComponents] unchanged: it holds no
    ["="] and does not begin with a dash. *)
Definition plainName (nm : string) : Prop :=
  strings.ContainsByte nm "="%char = false /\ strings.HasPrefix nm "-" = false.

(** [x] is what the name [nm] denotes on a command stack: the entry of
    the table of the command at position [i], no command above [i]
    having an entry for [nm]. *)
Definition innermost {X : Type} (table : Command -> gmap string X)
    (stack : list Command) (nm : string) (i : nat) (x : X) : Prop :=
  (exists c, stack !! i = Some c /\ table c !! nm = Some x) /\
  forall j c', i < j -> stack !! j = Some c' -> table c' !! nm = None.

Definition undeclared {X : Type} (table : Command -> gmap string X)
    (stack : list Command) (nm : string) : Prop :=
  forall j c', stack !! j = Some c' -> table c' !! nm = None.

(** The same search as a function, over the [n] lowest positions. *)
Fixpoint resolve {X : Type} (table : Command -> gmap string X)
    (stack : list Command) (nm : string) (n : nat) : option (nat * X) :=
  match n with
  | 0 => None
  | S i =>
      match stack !! i with
      | Some c =>
          match table c !! nm with
          | Some x => Some (i, x)
          | None => resolve table stack nm i
          end
      | None => None
      end
  end.

Definition flagTable (long : bool) : Command -> gmap string Flag :=
  if long then flags else flagsByShortName.
Definition argTable (long : bool) : Command -> gmap string Argument :=
  if long then args else argsByShortName.

(** ** Well-formed command trees and the builder ([olive.go]) *)

(** What the builder of [olive.go] establishes on a command tree:
    [AddFlag] and [addArg] file every flag and argument under its own
    name and short name, [AddSubcommand] and [AddPrimaryArg] refuse to
    give one command both subcommands and a primary argument. *)
Inductive wf_command : Command -> Prop :=
| wf_command_intro (c : Command) :
    (forall k f, flags c !! k = Some f ->
       flag_name f = k /\ flagsByShortName c !! flag_shortName f = Some f) ->
    (forall k f, flagsByShortName c !! k = Some f ->
       flag_shortName f = k /\ flags c !! flag_name f = Some f) ->
    (forall k a, args c !! k = Some a ->
       Argument_Name a = k /\ argsByShortName c !! Argument_ShortName a = Some a) ->
    (forall k a, argsByShortName c !! k = Some a ->
       Argument_ShortName a = k /\ args c !! Argument_Name a = Some a) ->
    (primaryArg c <> None -> subcommands c = ∅) ->
    (forall k s, subcommands c !! k = Some s -> Name s = k /\ wf_command s) ->
    wf_command c.

(** The builder, on command values.  The Go builder hands out pointers
    and lets the caller finish a flag, an argument or a subcommand
    afterwards; here each is added once it is complete.  [None] is the
    [log.Fatalf] exit.  [newCommand] is the one of the source with
    [helpEnabled] false; the help flag is a flag like any other, added
    with [AddFlag]. *)
Definition newCommand (nm dsc : string) : Command :=
  mkCommand nm dsc true ∅ ∅ ∅ ∅ ∅ None.

Definition AddFlag (c : Command) (f : Flag) : option Command :=
  match flags c !! flag_name f, flagsByShortName c !! flag_shortName f with
  | None, None =>
      Some (mkCommand (Name c) (Description c) (RequiresSubcommand c)
              (subcommands c)
              (<[flag_name f := f]> (flags c)) (args c)
              (<[flag_shortName f := f]> (flagsByShortName c))
              (argsByShortName c) (primaryArg c))
  | _, _ => None
  end.

Definition addArg (c : Command) (arg : Argument) : option Command :=
  match args c !! Argument_Name arg,
        argsByShortName c !! Argument_ShortName arg with
  | None, None =>
      Some (mkCommand (Name c) (Description c) (RequiresSubcommand c)
              (subcommands c) (flags c)
              (<[Argument_Name arg := arg]> (args c))
              (flagsByShortName c)
              (<[Argument_ShortName arg := arg]> (argsByShortName c))
              (primaryArg c))
  | _, _ => None
  end.

Definition AddSubcommand (c subc : Command) : option Command :=
  match primaryArg c, subcommands c !! Name subc with
  | None, None =>
      Some (mkCommand (Name c) (Description c) (RequiresSubcommand c)
              (<[Name subc := subc]> (subcommands c))
              (flags c) (args c) (flagsByShortName c) (argsByShortName c)
              (primaryArg c))
  | _, _ => None
  end.

Definition AddPrimaryArg (c : Command) (p : PrimaryArgument) : option Command :=
  if bool_decide (0 < size (subcommands c)) then None
  else Some (mkCommand (Name c) (Description c) (RequiresSubcommand c)
               (subcommands c) (flags c) (args c) (flagsByShortName c)
               (argsByShortName c) (Some p)).

Definition set_RequiresSubcommand (c : Command) (b : bool) : Command :=
  mkCommand (Name c) (Description c) b (subcommands c) (flags c) (args c)
    (flagsByShortName c) (argsByShortName c) (primaryArg c).

(** ** Parser states, results and token lists *)

(** The pointers of the result objects: every object points to the next
    one of the stack, the last one to none. *)
Definition linked (ss : list resultObj) : Prop :=
  forall i o, ss !! i = Some o ->
    o_subcommandRes o = if decide (S i < length ss) then Some (S i) else None.

(** The invariant of the parser state. *)
Definition inv (ap : argParser) : Prop :=
  commandStack ap <> [] /\
  length (semanticStack ap) = length (commandStack ap) /\
  linked (semanticStack ap).

(** The result of the scope [i] levels below [apr], reached as a caller
    does, through [Subcommand]. *)
Fixpoint scope (apr : ArgParseResult) (i : nat) {struct i}
    : option ArgParseResult :=
  match i with
  | 0 => Some apr
  | S j =>
      match subcommandRes apr with
      | Some child => scope child j
      | None => None
      end
  end.

(** The chain of commands entered by a path of subcommand names. *)
Fixpoint descend (c : Command) (path : list string) : option (list Command) :=
  match path with
  | [] => Some []
  | nm :: rest =>
      match subcommands c !! nm with
      | Some subc => cons subc <$> descend subc rest
      | None => None
      end
  end.

(** A flag or named-argument token, before it is written out. *)
Inductive Item : Type :=
| ItFlag (long : bool) (nm : string)
| ItArg (long : bool) (nm raw : string).

Definition dashes (long : bool) : string := if long then "--" else "-".

Definition render (it : Item) : string :=
  match it with
  | ItFlag long nm => dashes long +:+ nm
  | ItArg long nm raw => dashes long +:+ nm +:+ "=" +:+ raw
  end.

(** [checkValue] yields [v] for the raw text, whatever the world. *)
Definition accepts (arg : Argument) (raw : string) (v : Value) : Prop :=
  forall w, exists w', checkValue arg raw w = (Ok v, w').

(** The entry of a result that an item sets: whether it is a flag, its
    scope, and its key in [flags] or [Arguments]. *)
Definition targetOf (stack : list Command) (it : Item)
    : option (bool * nat * string) :=
  match it with
  | ItFlag long nm =>
      match resolve (flagTable long) stack nm (length stack) with
      | Some (i, f) => Some (true, i, flag_name f)
      | None => None
      end
  | ItArg long nm _ =>
      match resolve (argTable long) stack nm (length stack) with
      | Some (i, a) => Some (false, i, Argument_Name a)
      | None => None
      end
  end.

(** An item names a declared flag, or a declared argument with a value
    that the argument accepts. *)
Definition declared (stack : list Command) (it : Item) : Prop :=
  match it with
  | ItFlag long nm =>
      plainName nm /\
      is_Some (resolve (flagTable long) stack nm (length stack))
  | ItArg long nm raw =>
      plainName nm /\ raw <> "" /\
      exists i a v, resolve (argTable long) stack nm (length stack) = Some (i, a)
                    /\ accepts a raw v
  end.

(** The effect on the world of setting a flag: its action, run once. *)
Definition runAction (f : Flag) (w : World) : World :=
  match flag_action f with
  | Some action => action w
  | None => w
  end.

(** The tree with every [required] mark cleared. *)
Definition forget_base (ab : argumentBase) : argumentBase :=
  mkArgumentBase (name ab) (shortName ab) (desc ab) false (defaultValue ab).

Definition forget_arg (arg : Argument) : Argument :=
  match arg with
  | IntArgument ab v => IntArgument (forget_base ab) v
  | FloatArgument ab v => FloatArgument (forget_base ab) v
  | StringArgument ab v => StringArgument (forget_base ab) v
  | SelectorArgument ab pv v => SelectorArgument (forget_base ab) pv v
  end.

Definition forget_primary (p : PrimaryArgument) : PrimaryArgument :=
  mkPrimaryArgument (pa_name p) (pa_desc p) false.

Fixpoint forget_required (c : Command) : Command :=
  mkCommand (Name c) (Description c) (RequiresSubcommand c)
    (forget_required <$> subcommands c)
    (flags c) (forget_arg <$> args c)
    (flagsByShortName c) (forget_arg <$> argsByShortName c)
    (forget_primary <$> primaryArg c).

(** The default pass, seen from one result object: what the inner loop
    does to it for one argument, and for all arguments of a command. *)
Definition objDefault (arg : Argument) (r : resultObj) : resultObj :=
  match GetDefaultValue arg with
  | Some val =>
      match o_Arguments r !! Argument_Name arg with
      | Some _ => r
      | None => setArgument r (Argument_Name arg) val
      end
  | None => r
  end.

Definition defaultsOf (c : Command) (r : resultObj) : resultObj :=
  map_fold (fun _ arg r => objDefault arg r) r (args c).

(** The result that a stack of linked objects denotes from its first
    object on. *)
Fixpoint chain (ss : list resultObj) : option ArgParseResult :=
  match ss with
  | [] => None
  | o :: rest =>
      Some (mkArgParseResult (o_flags o) (o_Arguments o) (o_subcommandName o)
              (chain rest) (o_primaryArg o))
  end.

(** The entries that are set in the results of a parser state are those
    listed in [T]. *)
Definition tracks (stack : list Command) (ap : argParser)
    (T : list (option (bool * nat * string))) : Prop :=
  commandStack ap = stack /\ inv ap /\
  forall i o, semanticStack ap !! i = Some o ->
    (forall k, k ∈ o_flags o <-> Some (true, i, k) ∈ T) /\
    (forall k, is_Some (o_Arguments o !! k) <-> Some (false, i, k) ∈ T).

(** The values recorded in [ap] are still recorded in [ap']. *)
Definition keeps (ap ap' : argParser) : Prop :=
  forall i o k v, semanticStack ap !! i = Some o -> o_Arguments o !! k = Some v ->
    exists o', semanticStack ap' !! i = Some o' /\ o_Arguments o' !! k = Some v.

(** The argument items of [opts] have their value recorded in [ap]. *)
Definition recorded (stack : list Command) (opts : list Item) (ap : argParser)
    : Prop :=
  forall long nm raw i a,
    ItArg long nm raw ∈ opts ->
    resolve (argTable long) stack nm (length stack) = Some (i, a) ->
    exists o v, semanticStack ap !! i = Some o /\
                o_Arguments o !! Argument_Name a = Some v /\ accepts a raw v.

(** A parser state over the tree without [required] marks, and an
    outcome carried from one tree to the other. *)
Definition forget_state (ap : argParser) : argParser :=
  mkArgParser (forget_required (initialCommand ap))
    (forget_required <$> commandStack ap)
    (semanticStack ap) (allowSubcommands ap).

Definition mapOutcome {A B : Type} (f : A -> B) (x : Res A * World)
    : Res B * World :=
  match x with
  | (Ok a, w) => (Ok (f a), w)
  | (Err e, w) => (Err e, w)
  | (Panic msg, w) => (Panic msg, w)
  end.

End Olive.

(** * More of the library: what a result can hold, the help flag *)

Section OliveMore.
Context `{Host}.

(** ** What a parse leaves in a result *)

(** The ways [consume] accepts a token, as a step relation: a flag is
    set, an argument is set, a primary argument is stored, or a
    subcommand is entered. *)
Inductive step (ap : argParser) (arg : string) (w : World)
    : argParser -> World -> Prop :=
| step_flag (nm : string) (i : nat) (f : Flag) (r : resultObj) :
    strings.HasPrefix arg "-" = true ->
    extractComponents arg = (nm, "") ->
    resolve (flagTable (strings.HasPrefix arg "--")) (commandStack ap) nm
      (length (commandStack ap)) = Some (i, f) ->
    semanticStack ap !! i = Some r ->
    flag_name f ∉ o_flags r ->
    step ap arg w
      (set_semanticStack (set_allowSubcommands ap false)
         (<[i := addFlag r (flag_name f)]> (semanticStack ap)))
      (runAction f w)
| step_arg (nm val : string) (i : nat) (a : Argument) (r : resultObj)
    (v : Value) (w' : World) :
    strings.HasPrefix arg "-" = true ->
    extractComponents arg = (nm, val) -> val <> "" ->
    resolve (argTable (strings.HasPrefix arg "--")) (commandStack ap) nm
      (length (commandStack ap)) = Some (i, a) ->
    semanticStack ap !! i = Some r ->
    o_Arguments r !! Argument_Name a = None ->
    checkValue a val w = (Ok v, w') ->
    step ap arg w
      (set_semanticStack (set_allowSubcommands ap false)
         (<[i := setArgument r (Argument_Name a) v]> (semanticStack ap)))
      w'
| step_primary (c : Command) (r : resultObj) :
    bare arg ->
    last (commandStack ap) = Some c -> primaryArg c <> None ->
    last (semanticStack ap) = Some r -> o_primaryArg r = "" ->
    step ap arg w
      (set_semanticStack (set_allowSubcommands ap false)
         (<[length (semanticStack ap) - 1 := setPrimaryArg r arg]>
            (semanticStack ap)))
      w
| step_subcommand (c subc : Command) (r : resultObj) :
    bare arg -> allowSubcommands ap = true ->
    last (commandStack ap) = Some c -> primaryArg c = None ->
    subcommands c !! arg = Some subc ->
    last (semanticStack ap) = Some r ->
    step ap arg w
      (mkArgParser (initialCommand ap) (commandStack ap ++ [subc])
         (<[length (semanticStack ap) - 1 :=
              setSubcommand r (length (semanticStack ap)) (Name subc)]>
            (semanticStack ap) ++ [newResult])
         true)
      w.

(** A value that [checkValue] of the argument can return: a value of
    the Go type of its kind, for a selector one of its legal values. *)
Definition admits (arg : Argument) (v : Value) : Prop :=
  match arg, v with
  | IntArgument _ _, VInt _ => True
  | FloatArgument _ _, VFloat _ => True
  | StringArgument _ _, VString _ => True
  | SelectorArgument _ possibleValues _, VString s => s ∈ possibleValues
  | _, _ => False
  end.

(** A result object read without following its pointer. *)
Definition flat (o : resultObj) : ArgParseResult :=
  mkArgParseResult (o_flags o) (o_Arguments o) (o_subcommandName o) None
    (o_primaryArg o).



(** Every result object names the command that follows its own on the
    command stack, the last one names none. *)
Definition named (ap : argParser) : Prop :=
  forall i o, semanticStack ap !! i = Some o ->
    o_subcommandName o = match commandStack ap !! S i with
                         | Some c => Name c
                         | None => ""
                         end.

(** The subcommands that a token list enters from [c]: those named by
    its leading bare words, as long as the command reached takes no
    primary argument and has a subcommand of that name. *)
Fixpoint entered (c : Command) (tokens : list string) : list Command :=
  match tokens with
  | [] => []
  | t :: rest =>
      if strings.HasPrefix t "-" then []
      else match primaryArg c, subcommands c !! t with
           | None, Some subc => subc :: entered subc rest
           | _, _ => []
           end
  end.

(** [n] dashes. *)
Fixpoint dashRun (n : nat) : string :=
  match n with
  | 0 => ""
  | S n' => String "-" (dashRun n')
  end.

(** What a run has set in [ap] is still set in [ap']. *)
Definition grows (ap ap' : argParser) : Prop :=
  forall i o, semanticStack ap !! i = Some o ->
    exists o', semanticStack ap' !! i = Some o' /\
               o_flags o ⊆ o_flags o' /\ o_Arguments o ⊆ o_Arguments o' /\
               (o_primaryArg o <> "" -> o_primaryArg o' = o_primaryArg o).

(** The defaults of a tree have the type of their argument, as those
    set with [SetDefaultValue] have. *)
Inductive typedDefaults : Command -> Prop :=
| typedDefaults_intro (c : Command) :
    (forall k a v, args c !! k = Some a -> GetDefaultValue a = Some v ->
                   admits a v) ->
    (forall k s, subcommands c !! k = Some s -> typedDefaults s) ->
    typedDefaults c.

End OliveMore.

(** ** The help flag and the trees of the builder ([olive.go]) *)

Section HelpFlag.
Context `{Host}.

(** [func() { c.Help(); os.Exit(0) }], the action of the help flag: it
    prints the help message of the command and ends the process.  What
    it does to the world is left open. *)
Variable helpAction : World -> World.

(** The flag that [c.AddFlag("help", "h", "Get help")] makes, with its
    action set. *)
Definition helpFlag : Flag := mkFlag "help" "h" "Get help" (Some helpAction).

(** [NewCLI], which is [newCommand(name, desc, helpEnabled)]. *)
Definition NewCLI (nm dsc : string) (helpEnabled : bool) : option Command :=
  if helpEnabled then AddFlag (newCommand nm dsc) helpFlag
  else Some (newCommand nm dsc).

(** [EnableHelp]: the test is on [c.args], as in the source. *)
Definition EnableHelp (c : Command) : option Command :=
  match args c !! "help" with
  | None => AddFlag c helpFlag
  | Some _ => Some c
  end.

(** [DisableHelp] *)
Definition DisableHelp (c : Command) : Command :=
  match flags c !! "help" with
  | Some _ =>
      mkCommand (Name c) (Description c) (RequiresSubcommand c) (subcommands c)
        (delete "help" (flags c)) (args c)
        (delete "h" (flagsByShortName c)) (argsByShortName c) (primaryArg c)
  | None => c
  end.

End HelpFlag.

Section Built.
Context `{Host}.

(** An argument as the [Add...Arg] methods and the setters of its kind
    leave it: its default, if it has one, went through
    [SetDefaultValue]. *)
Definition typedArg (a : Argument) : Prop :=
  forall v, GetDefaultValue a = Some v -> admits a v.

(** The command trees that the builder makes. *)
Inductive built : Command -> Prop :=
| built_new (nm dsc : string) : built (newCommand nm dsc)
| built_flag (c c' : Command) (f : Flag) :
    built c -> AddFlag c f = Some c' -> built c'
| built_arg (c c' : Command) (a : Argument) :
    built c -> typedArg a -> addArg c a = Some c' -> built c'
| built_subcommand (c subc c' : Command) :
    built c -> built subc -> AddSubcommand c subc = Some c' -> built c'
| built_primary (c c' : Command) (p : PrimaryArgument) :
    built c -> AddPrimaryArg c p = Some c' -> built c'
| built_requires (c : Command) (b : bool) :
    built c -> built (set_RequiresSubcommand c b).





(** The parser state over another root command. *)
Definition reroot (c' : Command) (ap : argParser) : argParser :=
  mkArgParser c' (c' :: tail (commandStack ap)) (semanticStack ap)
    (allowSubcommands ap).

(** A token that does not name the flag [f]: it is not a flag token, or
    its name is not the name of [f] after two dashes nor the short name
    of [f] after one. *)
Definition avoids (f : Flag) (t : string) : Prop :=
  strings.HasPrefix t "-" = true -> snd (extractComponents t) = "" ->
  fst (extractComponents t)
  <> (if strings.HasPrefix t "--" then flag_name f else flag_shortName f).

End Built.

(** ** The help message ([help.go]) *)

Section HelpMessage.
Context `{Host}.

(** [wordwrap.Wrapper(limit, breakWords)] and [wordwrap.Indent(input,
    prefix, prefixAll)] belong to the library
    [github.com/eidolon/wordwrap]; they are taken as given. *)
Variable Wrapper : Z -> bool -> string -> string.
Variable Indent : string -> string -> bool -> string.

(** [len(s)], an [int] *)
Definition len (s : string) : Z := Z.of_nat (String.length s).

(** The line feed of ["\n"]. *)
Definition nl : string := String (ascii_of_nat 10) "".



(** [s[:n]] on a string: a panic when [n] is out of range. *)
Definition slice_to (s : string) (n : Z) : Res string :=
  if decide (0 <= n <= len s)%Z then Ok (substring 0 (Z.to_nat n) s)
  else Panic "slice bounds out of range".

(** [for ... := range m] over a map, with the body writing to a
    builder: Go leaves the order unspecified, [map_to_list] fixes
    one. *)
Definition rangeMap {X : Type} (body : string -> string -> X -> Res string)
    (b : string) (m : gmap string X) : Res string :=
  foldl (fun acc kx => Res_bind acc (fun b => body b kx.1 kx.2)) (Ok b)
    (map_to_list m).


(** The [switch v := arg.(type)] of [buildUsageLine]: for a selector
    the values, each followed by ['|'], without the last byte. *)
Definition argValueOf (arg : Argument) : Res string :=
  match arg with
  | IntArgument _ _ => Ok "int"
  | FloatArgument _ _ => Ok "float"
  | StringArgument _ _ => Ok "string"
  | SelectorArgument _ possibleValues _ =>
      let vnamesB := foldl (fun b value => b +:+ value +:+ "|") ""
                       (elements possibleValues) in
      slice_to vnamesB (len vnamesB - 1)%Z
  end.

(** [buildUsageLine]; the result is what it writes to the builder. *)
Definition buildUsageLine (c : Command) : Res string :=
  let ub := Name c +:+ " " in
  let ub := if decide (0 < size (subcommands c)) then ub +:+ "<command> "
            else match primaryArg c with
                 | Some p => ub +:+ "[" +:+ pa_name p +:+ "] "
                 | None => ub
                 end in
  Res_bind
    (rangeMap (fun ub _ arg =>
                 Res_bind (argValueOf arg) (fun argValue =>
                   Ok (ub +:+ "[" +:+ Argument_ShortName arg +:+ "|"
                       +:+ Argument_Name arg +:+ "=<" +:+ argValue +:+ ">] ")))
       ub (args c))
    (fun ub =>
       Res_bind
         (rangeMap (fun ub _ flag =>
                      Ok (ub +:+ "[-" +:+ flag_shortName flag +:+ "|--"
                          +:+ flag_name flag +:+ "] "))
            ub (flags c))
         (fun ub => Ok (Indent (ub +:+ nl) "    " true))).












End HelpMessage.

(** * A host and command trees to run the parser on

    The trees are those of the test suite of the library
    ([TestValidatorsandDefaults], [TestCorrectMixedCLI], [TestBadInput2]),
    built with the builder and without the help flag. *)

Module Demo.

Fixpoint digits (s : string) (acc : Z) : option Z :=
  match s with
  | EmptyString => Some acc
  | String c s' =>
      let n := nat_of_ascii c in
      if ((48 <=? n) && (n <=? 57))%nat
      then digits s' (10 * acc + Z.of_nat (n - 48))%Z
      else None
  end.

(** Decimal literals with an optional minus sign: a stand-in for
    [strconv.ParseInt] on the inputs of the examples. *)
Definition decimal (s : string) : option Z :=
  match s with
  | EmptyString => None
  | String c s' =>
      if Ascii.eqb c "-" then
        match s' with
        | EmptyString => None
        | _ => option_map Z.opp (digits s' 0)
        end
      else digits s 0
  end.

(** The world is the log of the callbacks that ran, latest first.
    This host reads no float literal. *)
#[export] Instance host : Host := {|
  World := list string;
  float64 := Z;
  strconv_ParseInt := decimal;
  strconv_ParseFloat := fun _ => None;
|}.

Definition force (o : option Command) : Command :=
  default (newCommand "" "") o.

Definition mustBeEven : validator Z :=
  fun x w => (if Z.odd x then Some "must be even" else None,
              "validated int" :: w).

Definition notBadVal : validator string :=
  fun x w => (if String.eqb x "badVal" then Some "bad val" else None,
              "validated sel" :: w).

Definition flag1 : Flag := mkFlag "flag1" "f1" "" None.
Definition flag2 : Flag :=
  mkFlag "flag2" "f2" "" (Some (fun w => "ran action" :: w)).

(** [ia.SetValidator(...); ia.SetDefaultValue(0)] *)
Definition intArg : Argument :=
  IntArgument (mkArgumentBase "int" "i" "" true (Some (VInt 0)))
    (Some mustBeEven).
Definition strArg : Argument :=
  StringArgument (mkArgumentBase "str" "s" "" true None) None.
Definition selArg : Argument :=
  SelectorArgument (mkArgumentBase "sel" "se" "" false (Some (VString "val1")))
    {["val1"; "val2"; "badVal"]} (Some notBadVal).

(** A command without subcommands. *)
Definition olive : Command :=
  force (c ← AddFlag (newCommand "olive" "") flag1;
         c ← AddFlag c flag2;
         c ← addArg c intArg;
         c ← addArg c strArg;
         addArg c selArg).

Definition verbose : Flag := mkFlag "verbose" "v" "" None.
Definition profileArg : Argument :=
  StringArgument (mkArgumentBase "profile" "p" "" false None) None.
Definition outputArg : Argument :=
  StringArgument
    (mkArgumentBase "output" "o" "" true (Some (VString "cool_path"))) None.

Definition buildCmd : Command :=
  force (c ← AddPrimaryArg (newCommand "build" "")
               (mkPrimaryArgument "package-name" "" false);
         c ← addArg c profileArg;
         addArg c outputArg).

Definition initCmd : Command :=
  force (AddPrimaryArg (newCommand "init" "")
           (mkPrimaryArgument "module-name" "" false)).

Definition modCmd : Command :=
  force (c ← AddSubcommand (newCommand "mod" "") initCmd;
         AddSubcommand c (newCommand "update" "")).

(** A command with subcommands, one of them required. *)
Definition mixed : Command :=
  force (c ← AddFlag (newCommand "olive" "") verbose;
         c ← AddSubcommand c (newCommand "version" "");
         c ← AddSubcommand c buildCmd;
         AddSubcommand c modCmd).

(** The same with [cli.RequiresSubcommand = false]. *)
Definition optional : Command := set_RequiresSubcommand mixed false.

(** The parser after some tokens: inside [build], inside [mod], and
    past a first flag. *)
Definition stateOf (cli : Command) (tokens : list string) : argParser :=
  match consumeAll (initial cli) tokens [] with
  | (Ok ap, _) => ap
  | _ => initial cli
  end.

Definition inBuild : argParser := stateOf mixed ["build"].
Definition inMod : argParser := stateOf mixed ["mod"].
Definition afterFlag : argParser := stateOf mixed ["-v"].

(** What a caller reads from an outcome: the flags, the arguments and
    the primary argument of each scope, outermost first. *)
Fixpoint scopes (fuel : nat) (apr : ArgParseResult)
    : list (list string * list (string * Value) * string * string) :=
  (elements (r_flags apr), map_to_list (Arguments apr),
   subcommandName apr, r_primaryArg apr)
  :: match fuel, subcommandRes apr with
     | S fuel', Some child => scopes fuel' child
     | _, _ => []
     end.

Definition observe (x : Res ArgParseResult * World)
    : Res (list (list string * list (string * Value) * string * string))
      * World :=
  mapOutcome (scopes 8) x.

End Demo.

(** Further trees and readers for the examples: a command with the help
    flag, whose action is logged, a word wrapper that leaves the text
    as it is and an indenter that puts the prefix in front. *)
Module DemoMore.
Import Demo.

Definition helpAction : list string -> list string :=
  fun w => "printed help" :: w.

Definition cliWithHelp : Command := force (NewCLI helpAction "olive" "" true).

Definition Indent : string -> string -> bool -> string :=
  fun input prefix _ => prefix +:+ input.

(** A flag named ["help"] that the caller adds, with a short name of
    its own, and a flag that takes the short name ["h"]. *)
Definition ownHelp : Flag := mkFlag "help" "x" "" None.
Definition halt : Flag := mkFlag "halt" "h" "" None.
Definition cliOwnHelp : Command :=
  force (c ← AddFlag (newCommand "olive" "") ownHelp; AddFlag c halt).

(** A selector without possible values, [AddSelectorArg(..., []string{})]. *)
Definition noChoice : Argument :=
  SelectorArgument (mkArgumentBase "mode" "m" "" false None) ∅ None.

Definition resultOf (cli : Command) (tokens : list string) : ArgParseResult :=
  match parse cli tokens [] with
  | (Ok r, _) => r
  | _ => flat newResult
  end.



End DemoMore.

(** * Facts about the string functions *)

Section StringFacts.

Lemma Contains_byte (s : string) (c : ascii) :
  strings.Contains s (String c "") = strings.ContainsByte s c.
Proof.
  induction s as [|d s IH]; [reflexivity|].
  cbn [strings.Contains strings.ContainsByte strings.HasPrefix].
  destruct (decide (d = c)); [reflexivity|]. exact IH.
Qed.

Lemma ContainsByte_app (s t : string) (c : ascii) :
  strings.ContainsByte (s +:+ t) c
  = strings.ContainsByte s c || strings.ContainsByte t c.
Proof.
  induction s as [|d s IH]; [reflexivity|]. simpl.
  destruct (decide (d = c)); [reflexivity|]. exact IH.
Qed.

Lemma Split_nonempty (s : string) (c : ascii) : strings.Split s c <> [].
Proof.
  destruct s as [|d s]; simpl; [discriminate|].
  destruct (decide (d = c)); [discriminate|].
  destruct (strings.Split s c); discriminate.
Qed.

Lemma Split_without_sep (s : string) (c : ascii) :
  strings.ContainsByte s c = false -> strings.Split s c = [s].
Proof.
  induction s as [|d s IH]; [reflexivity|]. simpl.
  destruct (decide (d = c)); [discriminate|].
  intros Hs. by rewrite (IH Hs).
Qed.

Lemma Split_at_first_sep (pre post : string) (c : ascii) :
  strings.ContainsByte pre c = false ->
  strings.Split (pre +:+ String c post) c = pre :: strings.Split post c.
Proof.
  induction pre as [|d pre IH]; simpl.
  - intros _. by rewrite decide_True.
  - destruct (decide (d = c)); [discriminate|].
    intros Hs. by rewrite (IH Hs).
Qed.

Lemma Join_cons (c : ascii) (p : string) (ps : list string) (sep : string) :
  strings.Join (String c p :: ps) sep = String c (strings.Join (p :: ps) sep).
Proof. destruct ps; reflexivity. Qed.

(** Joining the parts of a split with the separator gives the string
    back: no byte is lost or changed. *)
Lemma Join_Split (s : string) (c : ascii) :
  strings.Join (strings.Split s c) (String c "") = s.
Proof.
  induction s as [|d s IH]; [reflexivity|]. simpl.
  destruct (decide (d = c)) as [->|Hne].
  - pose proof (Split_nonempty s c) as Hn.
    destruct (strings.Split s c) as [|p ps] eqn:E; [done|].
    change (strings.Join ("" :: p :: ps) (String c ""))
      with (String c (strings.Join (p :: ps) (String c ""))).
    by rewrite IH.
  - pose proof (Split_nonempty s c) as Hn.
    destruct (strings.Split s c) as [|p ps] eqn:E; [done|].
    by rewrite Join_cons, IH.
Qed.

Lemma ContainsByte_first (s : string) (c : ascii) :
  strings.ContainsByte s c = true ->
  exists pre post, s = pre +:+ String c post
                   /\ strings.ContainsByte pre c = false.
Proof.
  induction s as [|d s IH]; simpl; [discriminate|].
  destruct (decide (d = c)) as [->|Hne].
  - intros _. by exists "", s.
  - intros Hs. destruct (IH Hs) as (pre & post & -> & Hpre).
    exists (String d pre), post. split; [reflexivity|].
    simpl. by rewrite decide_False.
Qed.

Lemma TrimLeft_no_dash (s : string) :
  strings.HasPrefix s "-" = false -> strings.TrimLeft s "-" = s.
Proof.
  destruct s as [|d s]; [reflexivity|]. simpl.
  destruct (decide (d = "-"%char)) as [->|Hne]; [discriminate|].
  intros _. destruct (decide ("-"%char = d)); [congruence|reflexivity].
Qed.

Lemma TrimLeft_dashes (long : bool) (s : string) :
  strings.TrimLeft ((if long then "--" else "-") +:+ s) "-"
  = strings.TrimLeft s "-".
Proof. destruct long; reflexivity. Qed.

Lemma HasPrefix_app (p s : string) : strings.HasPrefix (p +:+ s) p = true.
Proof. induction p as [|c p IH]; [reflexivity|]. simpl. by rewrite decide_True. Qed.

Lemma HasPrefix_short (s : string) :
  strings.HasPrefix s "-" = false ->
  strings.HasPrefix ("-" +:+ s) "--" = false.
Proof.
  intros Hs. destruct s as [|d s]; [reflexivity|].
  simpl in *. destruct (decide (d = "-"%char)); [discriminate|reflexivity].
Qed.

Lemma HasPrefix_bare (s : string) :
  strings.HasPrefix s "-" = false -> strings.HasPrefix s "--" = false.
Proof.
  destruct s as [|d s]; [reflexivity|]. simpl.
  destruct (decide (d = "-"%char)); [discriminate|reflexivity].
Qed.

End StringFacts.

(** * The parser *)

Section Theory.
Context `{Host}.

(** ** Splitting a token *)

Lemma extract_without_eq (arg : string) :
  strings.ContainsByte arg "="%char = false ->
  extractComponents arg = (strings.TrimLeft arg "-", "").
Proof. intros Hc. unfold extractComponents. by rewrite Contains_byte, Hc. Qed.

Lemma extract_with_eq (pre post : string) :
  strings.ContainsByte pre "="%char = false ->
  extractComponents (pre +:+ "=" +:+ post) = (strings.TrimLeft pre "-", post).
Proof.
  intros Hc. unfold extractComponents.
  change ("=" +:+ post) with (String "="%char post).
  rewrite Contains_byte, ContainsByte_app.
  assert (strings.ContainsByte (String "="%char post) "="%char = true) as ->
    by reflexivity.
  rewrite orb_true_r.
  rewrite (Split_at_first_sep _ _ _ Hc). simpl hd. simpl tl.
  by rewrite Join_Split.
Qed.

Lemma extract_flag (long : bool) (nm : string) :
  plainName nm -> extractComponents (dashes long +:+ nm) = (nm, "").
Proof.
  intros [Heq Hd]. rewrite extract_without_eq.
  - unfold dashes. by rewrite TrimLeft_dashes, TrimLeft_no_dash.
  - rewrite ContainsByte_app, Heq. by destruct long.
Qed.

Lemma extract_arg (long : bool) (nm raw : string) :
  plainName nm ->
  extractComponents (dashes long +:+ nm +:+ "=" +:+ raw) = (nm, raw).
Proof.
  intros [Heq Hd].
  assert (dashes long +:+ nm +:+ "=" +:+ raw
          = (dashes long +:+ nm) +:+ "=" +:+ raw) as ->.
  { by destruct long. }
  rewrite extract_with_eq.
  - unfold dashes. by rewrite TrimLeft_dashes, TrimLeft_no_dash.
  - rewrite ContainsByte_app, Heq. by destruct long.
Qed.

Lemma dashes_prefix (long : bool) (s : string) :
  strings.HasPrefix s "-" = false ->
  strings.HasPrefix (dashes long +:+ s) "--" = long /\
  strings.HasPrefix (dashes long +:+ s) "-" = true.
Proof.
  intros Hd. destruct long; [split; reflexivity|]. split; [|reflexivity].
  by apply HasPrefix_short.
Qed.

Lemma no_dash_with_value (nm raw : string) :
  strings.HasPrefix nm "-" = false ->
  strings.HasPrefix (nm +:+ "=" +:+ raw) "-" = false.
Proof. intros Hd. destruct nm as [|d nm]; [reflexivity|exact Hd]. Qed.

(** ** Looking a name up on the command stack *)

Lemma index_lookup {A : Type} (s : list A) (i : nat) (a : A) :
  s !! i = Some a -> index s i = Ok a.
Proof. intros Hs. unfold index. by rewrite Hs. Qed.

Lemma top_lookup {A : Type} (s : list A) (a : A) :
  last s = Some a -> top s = Ok a.
Proof. intros Hs. unfold top. by rewrite Hs. Qed.

Lemma flagLoop_resolve (table : Command -> gmap string Flag) (ap : argParser)
    (nm : string) (e : error) (n : nat) :
  n <= length (commandStack ap) ->
  flagLoop table ap nm e n
  = match resolve table (commandStack ap) nm n with
    | Some (i, f) => setFlag ap i f
    | None => fail e
    end.
Proof.
  induction n as [|i IH]; intros Hn; [reflexivity|].
  destruct (lookup_lt_is_Some_2 (commandStack ap) i) as [c Hc]; [lia|].
  simpl. rewrite Hc, (index_lookup _ _ _ Hc).
  destruct (table c !! nm) as [f|] eqn:Hf.
  - unfold bind, lift. by rewrite Hf.
  - rewrite <- IH by lia. unfold bind, lift. by rewrite Hf.
Qed.

Lemma argLoop_resolve (table : Command -> gmap string Argument) (ap : argParser)
    (nm val : string) (e : error) (n : nat) :
  n <= length (commandStack ap) ->
  argLoop table ap nm val e n
  = match resolve table (commandStack ap) nm n with
    | Some (i, a) => setArg ap i a val
    | None => fail e
    end.
Proof.
  induction n as [|i IH]; intros Hn; [reflexivity|].
  destruct (lookup_lt_is_Some_2 (commandStack ap) i) as [c Hc]; [lia|].
  simpl. rewrite Hc, (index_lookup _ _ _ Hc).
  destruct (table c !! nm) as [f|] eqn:Hf.
  - unfold bind, lift. by rewrite Hf.
  - rewrite <- IH by lia. unfold bind, lift. by rewrite Hf.
Qed.

Lemma resolve_Some {X : Type} (table : Command -> gmap string X)
    (stack : list Command) (nm : string) (n i : nat) (x : X) :
  n <= length stack ->
  resolve table stack nm n = Some (i, x) <->
  i < n /\ (exists c, stack !! i = Some c /\ table c !! nm = Some x) /\
  forall j c', i < j < n -> stack !! j = Some c' -> table c' !! nm = None.
Proof.
  induction n as [|k IH]; intros Hn.
  - simpl. split; [discriminate|]. intros [? _]. lia.
  - destruct (lookup_lt_is_Some_2 stack k) as [c Hc]; [lia|].
    simpl. rewrite Hc. destruct (table c !! nm) as [y|] eqn:Hy.
    + split.
      * intros [= <- <-]. split; [lia|]. split; [by exists c|]. intros; lia.
      * intros (Hi & (c0 & Hc0 & Hx) & Habove).
        destruct (decide (i = k)) as [->|Hne].
        -- rewrite Hc in Hc0. by simplify_eq.
        -- rewrite (Habove k c) in Hy by (done || lia). discriminate.
    + rewrite IH by lia. split.
      * intros (Hi & Hex & Hab). split; [lia|]. split; [done|].
        intros j c' Hj Hc'. destruct (decide (j = k)) as [->|Hne].
        -- rewrite Hc in Hc'. by simplify_eq.
        -- apply (Hab j c'); [lia|done].
      * intros (Hi & (c0 & Hc0 & Hx) & Hab).
        assert (i <> k) by (intros ->; rewrite Hc in Hc0; simplify_eq; congruence).
        split; [lia|]. split; [by exists c0|].
        intros j c' Hj. apply Hab. lia.
Qed.

Lemma resolve_innermost {X : Type} (table : Command -> gmap string X)
    (stack : list Command) (nm : string) (i : nat) (x : X) :
  resolve table stack nm (length stack) = Some (i, x)
  <-> innermost table stack nm i x.
Proof.
  rewrite resolve_Some by done. unfold innermost. split.
  - intros (_ & Hex & Hab). split; [done|]. intros j c' Hj Hc'.
    apply (Hab j c'); [|done]. split; [done|]. by eapply lookup_lt_Some.
  - intros [(c & Hc & Hx) Hab]. split; [by eapply lookup_lt_Some|].
    split; [by exists c|]. intros j c' [Hj _]. by apply Hab.
Qed.

Lemma resolve_None {X : Type} (table : Command -> gmap string X)
    (stack : list Command) (nm : string) (n : nat) :
  n <= length stack ->
  resolve table stack nm n = None <->
  forall j c', j < n -> stack !! j = Some c' -> table c' !! nm = None.
Proof.
  induction n as [|k IH]; intros Hn.
  - simpl. split; [intros _ j c' Hj; lia|done].
  - destruct (lookup_lt_is_Some_2 stack k) as [c Hc]; [lia|].
    simpl. rewrite Hc. destruct (table c !! nm) as [y|] eqn:Hy.
    + split; [discriminate|]. intros Hall.
      rewrite (Hall k c) in Hy by (done || lia). discriminate.
    + rewrite IH by lia. split.
      * intros Hall j c' Hj Hc'. destruct (decide (j = k)) as [->|Hne].
        -- rewrite Hc in Hc'. by simplify_eq.
        -- apply (Hall j c'); [lia|done].
      * intros Hall j c' Hj. apply Hall. lia.
Qed.

Lemma resolve_undeclared {X : Type} (table : Command -> gmap string X)
    (stack : list Command) (nm : string) :
  resolve table stack nm (length stack) = None <-> undeclared table stack nm.
Proof.
  rewrite resolve_None by done. unfold undeclared. split.
  - intros Hall j c' Hc'. apply (Hall j c'); [|done]. by eapply lookup_lt_Some.
  - intros Hall j c' _. apply Hall.
Qed.

(** What [consume] does with a dashed token, by the table searched. *)
Lemma consume_dashed (ap : argParser) (arg argName argVal : string) (long : bool) :
  extractComponents arg = (argName, argVal) ->
  strings.HasPrefix arg "--" = long ->
  strings.HasPrefix arg "-" = true ->
  consume ap arg
  = if decide (argVal = "") then
      match resolve (flagTable long) (commandStack ap) argName
              (length (commandStack ap)) with
      | Some (i, f) => setFlag (set_allowSubcommands ap false) i f
      | None => fail (if long then UnknownFlag argName
                      else UnknownFlagByShortName argName)
      end
    else
      match resolve (argTable long) (commandStack ap) argName
              (length (commandStack ap)) with
      | Some (i, a) => setArg (set_allowSubcommands ap false) i a argVal
      | None => fail (if long then UnknownArgument argName
                      else UnknownArgumentByShortName argName)
      end.
Proof.
  intros He Hl Hs. unfold consume. rewrite Hl, He.
  destruct long; [|rewrite Hs];
    (destruct (decide (argVal = ""));
     [rewrite flagLoop_resolve by done|rewrite argLoop_resolve by done]);
    reflexivity.
Qed.

(** ** The invariant of the parser state *)

Lemma bind_Ok {A B : Type} (m : M A) (k : A -> M B) (w w' : World) (a : A) :
  m w = (Ok a, w') -> bind m k w = k a w'.
Proof. intros Hm. unfold bind. by rewrite Hm. Qed.

Lemma bind_inv_Ok {A B : Type} (m : M A) (k : A -> M B) (w w' : World) (b : B) :
  bind m k w = (Ok b, w') ->
  exists a w1, m w = (Ok a, w1) /\ k a w1 = (Ok b, w').
Proof.
  unfold bind. destruct (m w) as [[a|e|msg] w1]; intros Hk; try discriminate.
  by exists a, w1.
Qed.

Lemma HasPrefix_two_one (arg : string) :
  strings.HasPrefix arg "--" = true -> strings.HasPrefix arg "-" = true.
Proof.
  destruct arg as [|d arg]; simpl; [done|].
  by destruct (decide (d = "-"%char)).
Qed.

Lemma setFlag_eq (ap : argParser) (ndx : nat) (f : Flag) (r : resultObj) (w : World) :
  semanticStack ap !! ndx = Some r ->
  setFlag ap ndx f w
  = if decide (flag_name f ∈ o_flags r) then
      (Err (FlagSetMultipleTimes (flag_name f)), w)
    else
      (Ok (set_semanticStack ap
             (<[ndx := addFlag r (flag_name f)]> (semanticStack ap))),
       runAction f w).
Proof.
  intros Hr. unfold setFlag, bind, lift, runAction.
  rewrite (index_lookup _ _ _ Hr).
  destruct (decide (flag_name f ∈ o_flags r)); [reflexivity|].
  by destruct (flag_action f).
Qed.

Lemma setArg_eq (ap : argParser) (ndx : nat) (a : Argument) (val : string)
    (r : resultObj) (w : World) :
  semanticStack ap !! ndx = Some r ->
  setArg ap ndx a val w
  = match o_Arguments r !! Argument_Name a with
    | Some _ => (Err (ArgumentSetMultipleTimes (Argument_Name a)), w)
    | None =>
        match checkValue a val w with
        | (Ok v, w') =>
            (Ok (set_semanticStack ap
                   (<[ndx := setArgument r (Argument_Name a) v]>
                      (semanticStack ap))), w')
        | (Err e, w') => (Err e, w')
        | (Panic msg, w') => (Panic msg, w')
        end
    end.
Proof.
  intros Hr. unfold setArg, bind, lift.
  rewrite (index_lookup _ _ _ Hr).
  destruct (o_Arguments r !! Argument_Name a); [reflexivity|].
  by destruct (checkValue a val w) as [[v|e|msg] w'].
Qed.

Lemma validate_no_panic {T : Type} (v : option (validator T)) (x : T)
    (inj : T -> Value) (w w' : World) (msg : string) :
  validate v x inj w <> (Panic msg, w').
Proof.
  unfold validate, ret. destruct v as [f|]; [|discriminate].
  destruct (f x w) as [[e|] w1]; discriminate.
Qed.

Lemma checkValue_no_panic (a : Argument) (val : string) (w w' : World) (msg : string) :
  checkValue a val w <> (Panic msg, w').
Proof.
  destruct a as [ab v|ab v|ab v|ab pv v]; simpl.
  - destruct (strconv_ParseInt val); [apply validate_no_panic|discriminate].
  - destruct (strconv_ParseFloat val); [apply validate_no_panic|discriminate].
  - apply validate_no_panic.
  - destruct (decide (val ∈ pv)); [apply validate_no_panic|discriminate].
Qed.

Lemma linked_insert (ss : list resultObj) (i : nat) (r r' : resultObj) :
  linked ss -> ss !! i = Some r ->
  o_subcommandRes r' = o_subcommandRes r ->
  linked (<[i := r']> ss).
Proof.
  intros Hl Hr Heq j o Hj. rewrite length_insert.
  destruct (decide (i = j)) as [->|Hne].
  - rewrite list_lookup_insert_eq in Hj by (by eapply lookup_lt_Some).
    simplify_eq. rewrite Heq. by apply Hl.
  - rewrite list_lookup_insert_ne in Hj by done. by apply Hl.
Qed.

Lemma inv_update (ap : argParser) (i : nat) (r r' : resultObj) (b : bool) :
  inv ap -> semanticStack ap !! i = Some r ->
  o_subcommandRes r' = o_subcommandRes r ->
  inv (set_semanticStack (set_allowSubcommands ap b)
         (<[i := r']> (semanticStack ap))).
Proof.
  intros (Hne & Hlen & Hl) Hr Heq. split; [exact Hne|]. split.
  - simpl. by rewrite length_insert.
  - simpl. by eapply linked_insert.
Qed.

Lemma inv_top (ap : argParser) :
  inv ap ->
  exists c r, currCommand ap = Ok c /\ last (commandStack ap) = Some c /\
              currResult ap = Ok r /\
              semanticStack ap !! (length (semanticStack ap) - 1) = Some r /\
              o_subcommandRes r = None.
Proof.
  intros (Hne & Hlen & Hl).
  destruct (last (commandStack ap)) as [c|] eqn:Hc.
  2: { apply last_None in Hc. done. }
  assert (semanticStack ap <> []) as Hne'.
  { intros E. rewrite E in Hlen. destruct (commandStack ap); done. }
  destruct (last (semanticStack ap)) as [r|] eqn:Hr.
  2: { apply last_None in Hr. done. }
  exists c, r. unfold currCommand, currResult, top. rewrite Hc, Hr.
  assert (semanticStack ap !! (length (semanticStack ap) - 1) = Some r) as Hr'.
  { rewrite last_lookup in Hr. by replace (length (semanticStack ap) - 1)
      with (pred (length (semanticStack ap))) by lia. }
  repeat split; try done.
  rewrite (Hl _ _ Hr'). apply decide_False.
  apply lookup_lt_Some in Hr'. lia.
Qed.

(** What [consume] does with a bare word. *)
Lemma consume_bare (ap : argParser) (arg : string) (c : Command) (r : resultObj)
    (w : World) :
  bare arg -> currCommand ap = Ok c -> currResult ap = Ok r ->
  consume ap arg w
  = match primaryArg c with
    | Some _ =>
        if decide (o_primaryArg r = "") then
          (Ok (set_semanticStack (set_allowSubcommands ap false)
                 (<[length (semanticStack ap) - 1 := setPrimaryArg r arg]>
                    (semanticStack ap))), w)
        else (Err (MultiplePrimaryArguments (Name c)), w)
    | None =>
        if allowSubcommands ap then
          match subcommands c !! arg with
          | Some subc =>
              (Ok (mkArgParser (initialCommand ap) (commandStack ap ++ [subc])
                     (<[length (semanticStack ap) - 1 :=
                          setSubcommand r (length (semanticStack ap)) (Name subc)]>
                        (semanticStack ap) ++ [newResult]) true), w)
          | None => (Err (UnknownSubcommand arg), w)
          end
        else (Err (UnknownSubcommand arg), w)
    end.
Proof.
  intros Hb Hc Hr. unfold consume.
  rewrite (HasPrefix_bare _ Hb), Hb. unfold bind, lift. rewrite Hc.
  destruct (primaryArg c).
  - change (currResult (set_allowSubcommands ap false)) with (currResult ap).
    rewrite Hr. by destruct (decide (o_primaryArg r = "")).
  - destruct (allowSubcommands ap); [|reflexivity].
    destruct (subcommands c !! arg); [|reflexivity]. by rewrite Hr.
Qed.

Lemma resolve_lt {X : Type} (table : Command -> gmap string X)
    (stack : list Command) (nm : string) (n i : nat) (x : X) :
  resolve table stack nm n = Some (i, x) -> i < n.
Proof.
  induction n as [|k IH]; simpl; [discriminate|].
  destruct (stack !! k) as [c|]; [|discriminate].
  destruct (table c !! nm).
  - intros [= <- <-]. lia.
  - intros Hr. specialize (IH Hr). lia.
Qed.

Lemma linked_push (ss : list resultObj) (r : resultObj) (nm : string) :
  linked ss -> ss !! (length ss - 1) = Some r ->
  linked (<[length ss - 1 := setSubcommand r (length ss) nm]> ss ++ [newResult]).
Proof.
  intros Hl Hr j o Hj.
  pose proof (lookup_lt_Some _ _ _ Hr) as Hlt.
  rewrite length_app, length_insert. simpl length.
  destruct (decide (j < length ss)) as [Hjlt|Hjge].
  - rewrite lookup_app_l in Hj by (by rewrite length_insert).
    destruct (decide (j = length ss - 1)) as [->|Hne].
    + rewrite list_lookup_insert_eq in Hj by done. simplify_eq. simpl.
      rewrite decide_True by lia. f_equal. lia.
    + rewrite list_lookup_insert_ne in Hj by done.
      rewrite (Hl _ _ Hj). rewrite !decide_True by lia. done.
  - rewrite lookup_app_r in Hj by (rewrite length_insert; lia).
    rewrite length_insert in Hj.
    destruct (j - length ss) as [|k] eqn:E; [|by destruct k].
    simpl in Hj. simplify_eq. simpl. rewrite decide_False by lia. done.
Qed.

Lemma consume_dashed_Ok (ap ap' : argParser) (arg : string) (w w' : World) :
  strings.HasPrefix arg "-" = true -> inv ap ->
  consume ap arg w = (Ok ap', w') ->
  inv ap' /\ commandStack ap' = commandStack ap /\ allowSubcommands ap' = false
  /\ initialCommand ap' = initialCommand ap.
Proof.
  intros Hd Hinv.
  destruct (extractComponents arg) as [argName argVal] eqn:He.
  rewrite (consume_dashed ap arg argName argVal _ He eq_refl Hd).
  pose proof Hinv as (Hne & Hlen & Hl).
  destruct (decide (argVal = "")).
  - destruct (resolve _ _ _ _) as [[i f]|] eqn:Hres; [|discriminate].
    apply resolve_lt in Hres.
    destruct (lookup_lt_is_Some_2 (semanticStack ap) i) as [r Hr]; [lia|].
    rewrite (setFlag_eq _ i f r) by done.
    destruct (decide (flag_name f ∈ o_flags r)); [discriminate|].
    intros [= <- <-]. split; [|done].
    by apply (inv_update ap i r).
  - destruct (resolve _ _ _ _) as [[i a]|] eqn:Hres; [|discriminate].
    apply resolve_lt in Hres.
    destruct (lookup_lt_is_Some_2 (semanticStack ap) i) as [r Hr]; [lia|].
    rewrite (setArg_eq _ i a argVal r) by done.
    destruct (o_Arguments r !! Argument_Name a); [discriminate|].
    destruct (checkValue a argVal w) as [[v|e|msg] w1]; try discriminate.
    intros [= <- <-]. split; [|done].
    by apply (inv_update ap i r).
Qed.

Lemma consume_Ok (ap ap' : argParser) (arg : string) (w w' : World) :
  inv ap -> consume ap arg w = (Ok ap', w') ->
  inv ap' /\ initialCommand ap' = initialCommand ap /\
  ((commandStack ap' = commandStack ap /\ allowSubcommands ap' = false) \/
   (bare arg /\ allowSubcommands ap = true /\ allowSubcommands ap' = true /\
    w' = w /\
    exists c subc, last (commandStack ap) = Some c /\ primaryArg c = None /\
                   subcommands c !! arg = Some subc /\
                   commandStack ap' = commandStack ap ++ [subc])).
Proof.
  intros Hinv Hc.
  destruct (strings.HasPrefix arg "-") eqn:Hd.
  - destruct (consume_dashed_Ok _ _ _ _ _ Hd Hinv Hc) as (? & ? & ? & ?).
    split; [done|]. split; [done|]. by left.
  - destruct (inv_top ap Hinv) as (c & r & Hcc & Hlast & Hcr & Hr & Hnone).
    rewrite (consume_bare ap arg c r w Hd Hcc Hcr) in Hc.
    pose proof Hinv as (Hne & Hlen & Hl).
    destruct (primaryArg c) as [p|] eqn:Hp.
    + destruct (decide (o_primaryArg r = "")); [|discriminate].
      injection Hc as <- <-. split; [by apply (inv_update ap _ r)|].
      split; [done|]. by left.
    + destruct (allowSubcommands ap) eqn:Ha; [|discriminate].
      destruct (subcommands c !! arg) as [subc|] eqn:Hs; [|discriminate].
      injection Hc as <- <-. split; [|split; [done|]].
      * split; [simpl; by destruct (commandStack ap)|]. split.
        -- simpl. rewrite !length_app, length_insert. simpl. lia.
        -- simpl. by apply linked_push.
      * right. repeat split; try done. by exists c, subc.
Qed.

Lemma consume_no_panic (ap : argParser) (arg : string) (w w' : World) (msg : string) :
  inv ap -> consume ap arg w <> (Panic msg, w').
Proof.
  intros Hinv.
  destruct (strings.HasPrefix arg "-") eqn:Hd.
  - destruct (extractComponents arg) as [argName argVal] eqn:He.
    rewrite (consume_dashed ap arg argName argVal _ He eq_refl Hd).
    pose proof Hinv as (Hne & Hlen & Hl).
    destruct (decide (argVal = "")).
    + destruct (resolve _ _ _ _) as [[i f]|] eqn:Hres; [|discriminate].
      apply resolve_lt in Hres.
      destruct (lookup_lt_is_Some_2 (semanticStack ap) i) as [r Hr]; [lia|].
      rewrite (setFlag_eq _ i f r) by done.
      destruct (decide (flag_name f ∈ o_flags r)); discriminate.
    + destruct (resolve _ _ _ _) as [[i a]|] eqn:Hres; [|discriminate].
      apply resolve_lt in Hres.
      destruct (lookup_lt_is_Some_2 (semanticStack ap) i) as [r Hr]; [lia|].
      rewrite (setArg_eq _ i a argVal r) by done.
      destruct (o_Arguments r !! Argument_Name a); [discriminate|].
      pose proof (checkValue_no_panic a argVal w) as Hnp.
      destruct (checkValue a argVal w) as [[v|e|m] w1]; try discriminate.
      by specialize (Hnp w1 m).
  - destruct (inv_top ap Hinv) as (c & r & Hcc & Hlast & Hcr & Hr & Hnone).
    rewrite (consume_bare ap arg c r w Hd Hcc Hcr).
    destruct (primaryArg c).
    + destruct (decide (o_primaryArg r = "")); discriminate.
    + destruct (allowSubcommands ap); [|discriminate].
      destruct (subcommands c !! arg); discriminate.
Qed.

Lemma inv_initial (cli : Command) : inv (initial cli).
Proof.
  split; [done|]. split; [done|].
  intros i o Hi. destruct i as [|i]; [|done]. simpl in Hi. by simplify_eq.
Qed.

Lemma consumeAll_app (ap : argParser) (t1 t2 : list string) (w : World) :
  consumeAll ap (t1 ++ t2) w
  = bind (consumeAll ap t1) (fun ap1 => consumeAll ap1 t2) w.
Proof.
  revert ap w. induction t1 as [|t t1 IH]; intros ap w; [reflexivity|].
  simpl. unfold bind.
  destruct (consume ap t w) as [[ap1|e|msg] w1]; [|reflexivity..].
  rewrite IH. reflexivity.
Qed.

Lemma consumeAll_Ok (ap ap' : argParser) (tokens : list string) (w w' : World) :
  inv ap -> consumeAll ap tokens w = (Ok ap', w') ->
  inv ap' /\ initialCommand ap' = initialCommand ap.
Proof.
  revert ap w. induction tokens as [|t tokens IH]; intros ap w Hinv Hc.
  - injection Hc as <- <-. done.
  - simpl in Hc. apply bind_inv_Ok in Hc as (ap1 & w1 & H1 & Hrest).
    destruct (consume_Ok _ _ _ _ _ Hinv H1) as (Hinv1 & Hi1 & _).
    destruct (IH _ _ Hinv1 Hrest) as [? ?]. split; [done|congruence].
Qed.

Lemma consumeAll_no_panic (ap : argParser) (tokens : list string) (w w' : World)
    (msg : string) :
  inv ap -> consumeAll ap tokens w <> (Panic msg, w').
Proof.
  revert ap w. induction tokens as [|t tokens IH]; intros ap w Hinv; [done|].
  simpl. unfold bind.
  pose proof (consume_no_panic ap t w) as Hnp.
  destruct (consume ap t w) as [[ap1|e|m] w1] eqn:H1; [|done|].
  - destruct (consume_Ok _ _ _ _ _ Hinv H1) as (Hinv1 & _). by apply IH.
  - by specialize (Hnp w1 m Hinv).
Qed.

(** Once the latch is cleared the command stack is frozen. *)
Lemma consumeAll_frozen (ap ap' : argParser) (tokens : list string) (w w' : World) :
  inv ap -> allowSubcommands ap = false ->
  consumeAll ap tokens w = (Ok ap', w') ->
  commandStack ap' = commandStack ap /\ allowSubcommands ap' = false.
Proof.
  revert ap w. induction tokens as [|t tokens IH]; intros ap w Hinv Ha Hc.
  - injection Hc as <- <-. done.
  - simpl in Hc. apply bind_inv_Ok in Hc as (ap1 & w1 & H1 & Hrest).
    destruct (consume_Ok _ _ _ _ _ Hinv H1) as (Hinv1 & _ & [[Hs Ha1]|Hpush]).
    + destruct (IH _ _ Hinv1 Ha1 Hrest) as [? ?]. split; [congruence|done].
    + destruct Hpush as (_ & Ha' & _). congruence.
Qed.

Lemma consumeAll_prefix (ap ap' : argParser) (tokens : list string) (w w' : World) :
  inv ap -> consumeAll ap tokens w = (Ok ap', w') ->
  exists (pre post : list string) (subs : list Command) (ap1 : argParser),
    tokens = pre ++ post /\ Forall bare pre /\ length subs = length pre /\
    consumeAll ap pre w = (Ok ap1, w) /\
    commandStack ap1 = commandStack ap ++ subs /\
    (forall k apk wk, consumeAll ap1 (take k post) w = (Ok apk, wk) ->
                      commandStack apk = commandStack ap1) /\
    (post <> [] -> allowSubcommands ap' = false).
Proof.
  revert ap w. induction tokens as [|t tokens IH]; intros ap w Hinv Hc.
  - exists [], [], [], ap. repeat split; try done.
    + by rewrite app_nil_r.
    + intros k apk wk. rewrite take_nil. by intros [= <- <-].
  - pose proof Hc as Hc0.
    simpl in Hc. apply bind_inv_Ok in Hc as (ap1 & w1 & H1 & Hrest).
    destruct (consume_Ok _ _ _ _ _ Hinv H1) as (Hinv1 & _ & [[Hs Ha1]|Hpush]).
    + exists [], (t :: tokens), [], ap. repeat split; try done.
      * by rewrite app_nil_r.
      * intros [|k] apk wk; [by intros [= <- <-]|].
        simpl. rewrite (bind_Ok _ _ _ _ _ H1). intros Hk.
        destruct (consumeAll_frozen _ _ _ _ _ Hinv1 Ha1 Hk) as [? _]. congruence.
      * intros _. by destruct (consumeAll_frozen _ _ _ _ _ Hinv1 Ha1 Hrest).
    + destruct Hpush as (Hb & _ & _ & -> & c & subc & _ & _ & _ & Hs).
      destruct (IH _ _ Hinv1 Hrest)
        as (pre & post & subs & ap2 & -> & Hbare & Hlen & Hpre & Hst & Hpost & Hl).
      exists (t :: pre), post, (subc :: subs), ap2. repeat split; try done.
      * by constructor.
      * simpl. by rewrite Hlen.
      * simpl. by rewrite (bind_Ok _ _ _ _ _ H1).
      * rewrite Hst, Hs. by rewrite <- app_assoc.
Qed.

(** ** The default pass and the returned result *)

Lemma set_semanticStack_id (ap : argParser) :
  set_semanticStack ap (semanticStack ap) = ap.
Proof. by destruct ap. Qed.

Lemma fillDefault_eq (i : nat) (arg : Argument) (ap : argParser) (r : resultObj) :
  semanticStack ap !! i = Some r ->
  fillDefault i arg ap
  = Ok (set_semanticStack ap (<[i := objDefault arg r]> (semanticStack ap))).
Proof.
  intros Hr. unfold fillDefault, objDefault.
  destruct (GetDefaultValue arg) as [val|].
  - rewrite (index_lookup _ _ _ Hr). simpl.
    destruct (o_Arguments r !! Argument_Name arg); [|reflexivity].
    by rewrite list_insert_id, set_semanticStack_id.
  - by rewrite list_insert_id, set_semanticStack_id.
Qed.

Lemma fold_fillDefault (i : nat) (ap : argParser) (r : resultObj)
    (l : list (string * Argument)) :
  semanticStack ap !! i = Some r ->
  foldr (uncurry (fun (_ : string) arg acc => Res_bind acc (fillDefault i arg)))
    (Ok ap) l
  = Ok (set_semanticStack ap
          (<[i := foldr (uncurry (fun (_ : string) arg r => objDefault arg r)) r l]>
             (semanticStack ap))).
Proof.
  intros Hr. induction l as [|[k arg] l IH]; simpl.
  - by rewrite list_insert_id, set_semanticStack_id.
  - rewrite IH. simpl.
    erewrite fillDefault_eq.
    2: { simpl. apply list_lookup_insert_eq. by eapply lookup_lt_Some. }
    simpl. by rewrite list_insert_insert_eq.
Qed.

Lemma fillDefaults_eq (ap : argParser) (n : nat) :
  length (semanticStack ap) = length (commandStack ap) ->
  n <= length (commandStack ap) ->
  exists ss',
    fillDefaults ap n = Ok (set_semanticStack ap ss') /\
    length ss' = length (semanticStack ap) /\
    forall j, ss' !! j
              = if decide (j < n) then
                  match commandStack ap !! j, semanticStack ap !! j with
                  | Some c, Some r => Some (defaultsOf c r)
                  | _, _ => None
                  end
                else semanticStack ap !! j.
Proof.
  revert ap. induction n as [|i IH]; intros ap Hlen Hn.
  - exists (semanticStack ap). rewrite set_semanticStack_id. done.
  - destruct (lookup_lt_is_Some_2 (commandStack ap) i) as [c Hc]; [lia|].
    destruct (lookup_lt_is_Some_2 (semanticStack ap) i) as [r Hr]; [lia|].
    simpl. rewrite (index_lookup _ _ _ Hc). simpl.
    rewrite map_fold_foldr, (fold_fillDefault i ap r _ Hr). simpl.
    rewrite <- map_fold_foldr. fold (defaultsOf c r).
    set (ap1 := set_semanticStack ap (<[i := defaultsOf c r]> (semanticStack ap))).
    destruct (IH ap1) as (ss' & Hfd & Hl' & Hlk).
    { simpl. by rewrite length_insert. }
    { simpl. lia. }
    exists ss'. split; [exact Hfd|]. split.
    { rewrite Hl'. simpl. by rewrite length_insert. }
    intros j. rewrite Hlk. simpl.
    destruct (decide (j = i)) as [->|Hne].
    + rewrite decide_False by lia. rewrite decide_True by lia.
      rewrite Hc, Hr. apply list_lookup_insert_eq. by eapply lookup_lt_Some.
    + rewrite list_lookup_insert_ne by done.
      destruct (decide (j < i)), (decide (j < S i)); try lia; done.
Qed.

Lemma defaultsOf_fields (c : Command) (r : resultObj) :
  o_flags (defaultsOf c r) = o_flags r /\
  o_subcommandName (defaultsOf c r) = o_subcommandName r /\
  o_subcommandRes (defaultsOf c r) = o_subcommandRes r /\
  o_primaryArg (defaultsOf c r) = o_primaryArg r.
Proof.
  unfold defaultsOf.
  apply (map_fold_weak_ind
           (fun (r' : resultObj) (_ : gmap string Argument) =>
              o_flags r' = o_flags r /\
              o_subcommandName r' = o_subcommandName r /\
              o_subcommandRes r' = o_subcommandRes r /\
              o_primaryArg r' = o_primaryArg r)); [done|].
  intros k arg m r' _ IH. unfold objDefault.
  destruct (GetDefaultValue arg); [|done].
  by destruct (o_Arguments r' !! Argument_Name arg).
Qed.

(** With every argument filed under its own name, the default pass
    gives each argument that has no value its default, and nothing
    else. *)
Lemma defaultsOf_Arguments (c : Command) (r : resultObj) (k : string) :
  (forall k a, args c !! k = Some a -> Argument_Name a = k) ->
  o_Arguments (defaultsOf c r) !! k
  = match o_Arguments r !! k with
    | Some v => Some v
    | None => args c !! k ≫= GetDefaultValue
    end.
Proof.
  unfold defaultsOf.
  apply (map_fold_weak_ind
           (fun (r' : resultObj) (m : gmap string Argument) =>
              (forall k a, m !! k = Some a -> Argument_Name a = k) ->
              o_Arguments r' !! k
              = match o_Arguments r !! k with
                | Some v => Some v
                | None => m !! k ≫= GetDefaultValue
                end)).
  - intros _. rewrite lookup_empty. simpl. by destruct (o_Arguments r !! k).
  - intros j arg m r' Hj IH Hnames.
    assert (Argument_Name arg = j) as Hname.
    { apply Hnames. by rewrite lookup_insert_eq. }
    assert (forall k a, m !! k = Some a -> Argument_Name a = k) as Hm.
    { intros k' a Ha. apply Hnames. rewrite lookup_insert_ne; [done|].
      intros ->. congruence. }
    specialize (IH Hm). unfold objDefault. rewrite Hname.
    destruct (decide (j = k)) as [->|Hne].
    + rewrite lookup_insert_eq. simpl. rewrite Hj in IH. simpl in IH.
      destruct (GetDefaultValue arg) as [val|].
      * destruct (o_Arguments r' !! k) as [v'|] eqn:Hv'.
        -- rewrite Hv'. destruct (o_Arguments r !! k); [done|discriminate].
        -- simpl. rewrite lookup_insert_eq.
           destruct (o_Arguments r !! k); [discriminate|done].
      * exact IH.
    + rewrite lookup_insert_ne by done.
      destruct (GetDefaultValue arg) as [val|]; [|exact IH].
      destruct (o_Arguments r' !! j); [exact IH|].
      simpl. rewrite lookup_insert_ne by done. exact IH.
Qed.

Lemma readResult_chain (ss : list resultObj) (fuel a : nat) :
  linked ss -> a + fuel = length ss -> 0 < fuel ->
  exists r, readResult fuel ss a = Ok r /\ chain (drop a ss) = Some r.
Proof.
  intros Hl. revert a. induction fuel as [|fuel IH]; intros a Ha Hf; [lia|].
  destruct (lookup_lt_is_Some_2 ss a) as [o Ho]; [lia|].
  simpl. rewrite (index_lookup _ _ _ Ho). simpl.
  rewrite (Hl _ _ Ho). rewrite (drop_S _ _ _ Ho). simpl.
  destruct (decide (S a < length ss)) as [Hlt|Hge].
  - destruct (IH (S a)) as (child & Hread & Hch); [lia..|].
    rewrite Hread, Hch. simpl. by eexists.
  - rewrite drop_ge by lia. simpl. by eexists.
Qed.

Lemma chain_scope (ss : list resultObj) (apr : ArgParseResult) (i : nat) (o : resultObj) :
  chain ss = Some apr -> ss !! i = Some o ->
  exists ri, scope apr i = Some ri /\
             r_flags ri = o_flags o /\ Arguments ri = o_Arguments o /\
             subcommandName ri = o_subcommandName o /\
             r_primaryArg ri = o_primaryArg o.
Proof.
  revert apr i. induction ss as [|o0 ss IH]; intros apr i Hch Hi; [done|].
  simpl in Hch. injection Hch as <-.
  destruct i as [|i]; simpl in *.
  - simplify_eq. by eexists.
  - destruct (chain ss) as [child|] eqn:Hc.
    + by apply IH.
    + destruct ss; done.
Qed.

(** [parse] after a run of [consume] that went through. *)
Lemma parse_of_run (cli : Command) (tokens : list string) (w w' : World)
    (ap : argParser) :
  consumeAll (initial cli) tokens w = (Ok ap, w') ->
  exists c, last (commandStack ap) = Some c /\
    (missesSubcommand c = true ->
       parse cli tokens w = (Err (RequiresASubcommand (Name c)), w')) /\
    (missesSubcommand c = false ->
       exists ss' r,
         parse cli tokens w = (Ok r, w') /\ chain ss' = Some r /\
         length ss' = length (semanticStack ap) /\
         forall j c r, commandStack ap !! j = Some c ->
                       semanticStack ap !! j = Some r ->
                       ss' !! j = Some (defaultsOf c r)).
Proof.
  intros Hrun.
  destruct (consumeAll_Ok _ _ _ _ _ (inv_initial cli) Hrun) as [Hinv _].
  destruct (inv_top ap Hinv) as (c & r0 & Hcc & Hlast & _).
  exists c. split; [done|].
  assert (parse cli tokens w
          = if missesSubcommand c then (Err (RequiresASubcommand (Name c)), w')
            else bind (lift (fillDefaults ap (length (commandStack ap))))
                   (fun ap => lift (readResult (length (semanticStack ap))
                                      (semanticStack ap) 0)) w') as ->.
  { unfold parse. rewrite (bind_Ok _ _ _ _ _ Hrun).
    unfold bind at 1. unfold lift at 1. rewrite Hcc.
    by destruct (missesSubcommand c). }
  split.
  - intros ->. reflexivity.
  - intros ->. pose proof Hinv as (Hne & Hlen & Hl).
    destruct (fillDefaults_eq ap (length (commandStack ap)) Hlen (le_n _))
      as (ss' & Hfd & Hlen' & Hlk).
    unfold bind, lift. rewrite Hfd. simpl.
    assert (linked ss') as Hl'.
    { intros j o Hj. rewrite Hlk in Hj. rewrite Hlen'.
      destruct (decide (j < length (commandStack ap))).
      - destruct (commandStack ap !! j) as [cj|]; [|done].
        destruct (semanticStack ap !! j) as [rj|] eqn:Hrj; [|done].
        simplify_eq. destruct (defaultsOf_fields cj rj) as (_ & _ & -> & _).
        by apply Hl.
      - by apply Hl. }
    destruct (readResult_chain ss' (length ss') 0 Hl') as (r & Hread & Hch).
    { done. } { rewrite Hlen', Hlen. destruct (commandStack ap); simpl; [done|lia]. }
    rewrite Hread. exists ss', r. rewrite drop_0 in Hch.
    repeat split; try done.
    intros j cj rj Hcj Hrj. rewrite Hlk, Hcj, Hrj.
    rewrite decide_True; [done|]. by eapply lookup_lt_Some.
Qed.

Lemma parse_of_failed_run (cli : Command) (tokens : list string) (w w' : World)
    (e : error) :
  consumeAll (initial cli) tokens w = (Err e, w') ->
  parse cli tokens w = (Err e, w').
Proof. intros Hrun. unfold parse, bind. by rewrite Hrun. Qed.

(** ** Where errors come from *)

Lemma validate_errors {T : Type} (v : option (validator T)) (x : T)
    (inj : T -> Value) (w w' : World) (e : error) :
  validate v x inj w = (Err e, w') -> exists msg, e = CallerError msg.
Proof.
  unfold validate, ret. destruct v as [f|]; [|discriminate].
  destruct (f x w) as [[msg|] w1]; [|discriminate].
  intros [= <- <-]. by exists msg.
Qed.

Lemma checkValue_errors (a : Argument) (val : string) (w w' : World) (e : error) :
  checkValue a val w = (Err e, w') ->
  (exists msg, e = CallerError msg) \/ e = NumError val
  \/ e = NotAValidValue val (Argument_Name a).
Proof.
  destruct a as [ab v|ab v|ab v|ab pv v]; simpl.
  - destruct (strconv_ParseInt val).
    + intros Hv. left. by eapply validate_errors.
    + intros [= <- <-]. right. by left.
  - destruct (strconv_ParseFloat val).
    + intros Hv. left. by eapply validate_errors.
    + intros [= <- <-]. right. by left.
  - intros Hv. left. by eapply validate_errors.
  - destruct (decide (val ∈ pv)).
    + intros Hv. left. by eapply validate_errors.
    + intros [= <- <-]. right. by right.
Qed.

Lemma consume_never_requires (ap : argParser) (arg : string) (w w' : World)
    (nm : string) :
  inv ap -> consume ap arg w <> (Err (RequiresASubcommand nm), w').
Proof.
  intros Hinv.
  destruct (strings.HasPrefix arg "-") eqn:Hd.
  - destruct (extractComponents arg) as [argName argVal] eqn:He.
    rewrite (consume_dashed ap arg argName argVal _ He eq_refl Hd).
    pose proof Hinv as (Hne & Hlen & Hl).
    destruct (decide (argVal = "")).
    + destruct (resolve _ _ _ _) as [[i f]|] eqn:Hres.
      2: { unfold fail. by destruct (strings.HasPrefix arg "--"). }
      apply resolve_lt in Hres.
      destruct (lookup_lt_is_Some_2 (semanticStack ap) i) as [r Hr]; [lia|].
      rewrite (setFlag_eq _ i f r) by done.
      destruct (decide (flag_name f ∈ o_flags r)); discriminate.
    + destruct (resolve _ _ _ _) as [[i a]|] eqn:Hres.
      2: { unfold fail. by destruct (strings.HasPrefix arg "--"). }
      apply resolve_lt in Hres.
      destruct (lookup_lt_is_Some_2 (semanticStack ap) i) as [r Hr]; [lia|].
      rewrite (setArg_eq _ i a argVal r) by done.
      destruct (o_Arguments r !! Argument_Name a); [discriminate|].
      destruct (checkValue a argVal w) as [[v|e|m] w1] eqn:Hcv; try discriminate.
      intros [= -> ->].
      destruct (checkValue_errors _ _ _ _ _ Hcv) as [[msg ?]|[?|?]]; discriminate.
  - destruct (inv_top ap Hinv) as (c & r & Hcc & Hlast & Hcr & Hr & Hnone).
    rewrite (consume_bare ap arg c r w Hd Hcc Hcr).
    destruct (primaryArg c).
    + destruct (decide (o_primaryArg r = "")); discriminate.
    + destruct (allowSubcommands ap); [|discriminate].
      destruct (subcommands c !! arg); discriminate.
Qed.

Lemma consumeAll_never_requires (ap : argParser) (tokens : list string)
    (w w' : World) (nm : string) :
  inv ap -> consumeAll ap tokens w <> (Err (RequiresASubcommand nm), w').
Proof.
  revert ap w. induction tokens as [|t tokens IH]; intros ap w Hinv; [done|].
  simpl. unfold bind.
  pose proof (consume_never_requires ap t w) as Hnr.
  destruct (consume ap t w) as [[ap1|e|m] w1] eqn:H1; [| |done].
  - destruct (consume_Ok _ _ _ _ _ Hinv H1) as (Hinv1 & _). by apply IH.
  - intros [= -> ->]. by eapply Hnr.
Qed.

Lemma parse_no_panic (cli : Command) (tokens : list string) (w w' : World)
    (msg : string) :
  parse cli tokens w <> (Panic msg, w').
Proof.
  destruct (consumeAll (initial cli) tokens w) as [[ap|e|m] w1] eqn:Hrun.
  - destruct (parse_of_run _ _ _ _ _ Hrun) as (c & _ & Hmiss & Hok).
    destruct (missesSubcommand c).
    + by rewrite Hmiss.
    + destruct Hok as (ss' & r & -> & _); done.
  - by rewrite (parse_of_failed_run _ _ _ _ _ Hrun).
  - by destruct (consumeAll_no_panic _ _ _ _ _ (inv_initial cli) Hrun).
Qed.

Lemma consume_dashed_primaryArg (ap ap' : argParser) (arg : string) (w w' : World) :
  strings.HasPrefix arg "-" = true -> inv ap ->
  consume ap arg w = (Ok ap', w') ->
  o_primaryArg <$> semanticStack ap' = o_primaryArg <$> semanticStack ap.
Proof.
  intros Hd Hinv.
  destruct (extractComponents arg) as [argName argVal] eqn:He.
  rewrite (consume_dashed ap arg argName argVal _ He eq_refl Hd).
  pose proof Hinv as (Hne & Hlen & Hl).
  destruct (decide (argVal = "")).
  - destruct (resolve _ _ _ _) as [[i f]|] eqn:Hres; [|discriminate].
    apply resolve_lt in Hres.
    destruct (lookup_lt_is_Some_2 (semanticStack ap) i) as [r Hr]; [lia|].
    rewrite (setFlag_eq _ i f r) by done.
    destruct (decide (flag_name f ∈ o_flags r)); [discriminate|].
    intros [= <- <-]. simpl. rewrite list_fmap_insert. simpl.
    apply list_insert_id. by rewrite list_lookup_fmap, Hr.
  - destruct (resolve _ _ _ _) as [[i a]|] eqn:Hres; [|discriminate].
    apply resolve_lt in Hres.
    destruct (lookup_lt_is_Some_2 (semanticStack ap) i) as [r Hr]; [lia|].
    rewrite (setArg_eq _ i a argVal r) by done.
    destruct (o_Arguments r !! Argument_Name a); [discriminate|].
    destruct (checkValue a argVal w) as [[v|e|msg] w1]; try discriminate.
    intros [= <- <-]. simpl. rewrite list_fmap_insert. simpl.
    apply list_insert_id. by rewrite list_lookup_fmap, Hr.
Qed.

Lemma consumeAll_dashed_primaryArg (ap ap' : argParser) (tokens : list string)
    (w w' : World) :
  Forall (fun t => strings.HasPrefix t "-" = true) tokens -> inv ap ->
  consumeAll ap tokens w = (Ok ap', w') ->
  commandStack ap' = commandStack ap /\
  o_primaryArg <$> semanticStack ap' = o_primaryArg <$> semanticStack ap.
Proof.
  revert ap w. induction tokens as [|t tokens IH]; intros ap w Hall Hinv Hc.
  - by injection Hc as <- <-.
  - apply Forall_cons in Hall as [Ht Hall]. simpl in Hc.
    apply bind_inv_Ok in Hc as (ap1 & w1 & H1 & Hrest).
    destruct (consume_dashed_Ok _ _ _ _ _ Ht Hinv H1) as (Hinv1 & Hst1 & _).
    destruct (IH _ _ Hall Hinv1 Hrest) as [-> ->]. split; [done|].
    by eapply consume_dashed_primaryArg.
Qed.

Lemma consume_flag (ap : argParser) (arg nm : string) (i : nat) (f : Flag)
    (r : resultObj) (w : World) :
  strings.HasPrefix arg "-" = true ->
  extractComponents arg = (nm, "") ->
  resolve (flagTable (strings.HasPrefix arg "--")) (commandStack ap) nm
    (length (commandStack ap)) = Some (i, f) ->
  semanticStack ap !! i = Some r ->
  consume ap arg w
  = if decide (flag_name f ∈ o_flags r) then
      (Err (FlagSetMultipleTimes (flag_name f)), w)
    else
      (Ok (set_semanticStack (set_allowSubcommands ap false)
             (<[i := addFlag r (flag_name f)]> (semanticStack ap))),
       runAction f w).
Proof.
  intros Hd He Hres Hr.
  rewrite (consume_dashed ap arg nm "" _ He eq_refl Hd).
  rewrite decide_True by done. rewrite Hres.
  by rewrite (setFlag_eq _ i f r).
Qed.

Lemma consume_arg (ap : argParser) (arg nm val : string) (i : nat) (a : Argument)
    (r : resultObj) (w : World) :
  strings.HasPrefix arg "-" = true ->
  extractComponents arg = (nm, val) -> val <> "" ->
  resolve (argTable (strings.HasPrefix arg "--")) (commandStack ap) nm
    (length (commandStack ap)) = Some (i, a) ->
  semanticStack ap !! i = Some r ->
  consume ap arg w
  = match o_Arguments r !! Argument_Name a with
    | Some _ => (Err (ArgumentSetMultipleTimes (Argument_Name a)), w)
    | None =>
        match checkValue a val w with
        | (Ok v, w') =>
            (Ok (set_semanticStack (set_allowSubcommands ap false)
                   (<[i := setArgument r (Argument_Name a) v]>
                      (semanticStack ap))), w')
        | (Err e, w') => (Err e, w')
        | (Panic msg, w') => (Panic msg, w')
        end
    end.
Proof.
  intros Hd He Hv Hres Hr.
  rewrite (consume_dashed ap arg nm val _ He eq_refl Hd).
  rewrite decide_False by done. rewrite Hres.
  by rewrite (setArg_eq _ i a val r).
Qed.

Lemma innermost_top {X : Type} (table : Command -> gmap string X)
    (stack : list Command) (c : Command) (nm : string) (x : X) :
  last stack = Some c -> table c !! nm = Some x ->
  innermost table stack nm (length stack - 1) x.
Proof.
  intros Hl Hx. rewrite last_lookup in Hl.
  replace (pred (length stack)) with (length stack - 1) in Hl by lia.
  split; [by exists c|].
  intros j c' Hj Hc'. apply lookup_lt_Some in Hc'. lia.
Qed.

(** ** Runs over declared flags and arguments *)

Lemma keeps_refl (ap : argParser) : keeps ap ap.
Proof. intros i o k v Ho Hv. by exists o. Qed.

Lemma keeps_trans (ap1 ap2 ap3 : argParser) :
  keeps ap1 ap2 -> keeps ap2 ap3 -> keeps ap1 ap3.
Proof.
  intros H12 H23 i o k v Ho Hv.
  destruct (H12 _ _ _ _ Ho Hv) as (o2 & Ho2 & Hv2). by eapply H23.
Qed.

Lemma consume_item (stack : list Command) (ap : argParser)
    (T : list (option (bool * nat * string))) (it : Item) (w : World) :
  tracks stack ap T -> declared stack it -> targetOf stack it ∉ T ->
  exists ap' w',
    consume ap (render it) w = (Ok ap', w') /\
    tracks stack ap' (targetOf stack it :: T) /\
    keeps ap ap' /\ recorded stack [it] ap'.
Proof.
  intros (Hst & Hinv & Htr) Hdecl Hfresh.
  pose proof Hinv as (Hne & Hlen & Hl).
  destruct it as [long nm|long nm raw]; simpl in Hdecl, Hfresh |- *.
  - destruct Hdecl as [Hplain [[i f] Hres]]. rewrite Hres in Hfresh |- *.
    pose proof (resolve_lt _ _ _ _ _ _ Hres) as Hi.
    destruct (lookup_lt_is_Some_2 (semanticStack ap) i) as [r Hr];
      [rewrite Hlen, Hst; lia|].
    destruct (dashes_prefix long nm (proj2 Hplain)) as [Hlong Hdash].
    rewrite (consume_flag ap _ nm i f r w Hdash (extract_flag long nm Hplain));
      [|by rewrite Hlong, Hst|done].
    destruct (Htr _ _ Hr) as [Hfl Har].
    rewrite decide_False by (by rewrite Hfl).
    eexists _, _. split; [reflexivity|]. split; [|split].
    + split; [done|]. split; [by apply (inv_update ap i r)|].
      intros j o Hj. simpl in Hj.
      destruct (decide (i = j)) as [<-|Hne'].
      * rewrite list_lookup_insert_eq in Hj by (by eapply lookup_lt_Some).
        simplify_eq. simpl. split.
        -- intros k. rewrite elem_of_union, elem_of_singleton, Hfl, elem_of_cons.
           split; intros [?|?]; try (by right); left; congruence.
        -- intros k. rewrite Har, elem_of_cons. split; [by right|].
           by intros [?|?].
      * rewrite list_lookup_insert_ne in Hj by done.
        destruct (Htr _ _ Hj) as [Hfl' Har']. split.
        -- intros k. rewrite Hfl', elem_of_cons. split; [by right|].
           intros [?|?]; [congruence|done].
        -- intros k. rewrite Har', elem_of_cons. split; [by right|].
           by intros [?|?].
    + intros j o k v Hj Hv. simpl.
      destruct (decide (i = j)) as [<-|Hne'].
      * rewrite list_lookup_insert_eq by (by eapply lookup_lt_Some).
        simplify_eq. by eexists.
      * rewrite list_lookup_insert_ne by done. by exists o.
    + intros long' nm' raw' i' a' Hin. apply list_elem_of_singleton in Hin. done.
  - destruct Hdecl as (Hplain & Hraw & i & a & v & Hres & Hacc).
    rewrite Hres in Hfresh |- *.
    pose proof (resolve_lt _ _ _ _ _ _ Hres) as Hi.
    destruct (lookup_lt_is_Some_2 (semanticStack ap) i) as [r Hr];
      [rewrite Hlen, Hst; lia|].
    destruct (dashes_prefix long _ (no_dash_with_value nm raw (proj2 Hplain)))
      as [Hlong Hdash].
    rewrite (consume_arg ap _ nm raw i a r w Hdash (extract_arg long nm raw Hplain));
      [|done|by rewrite Hlong, Hst|done].
    destruct (Htr _ _ Hr) as [Hfl Har].
    destruct (o_Arguments r !! Argument_Name a) as [v0|] eqn:Hv0.
    { destruct Hfresh. apply Har. by rewrite Hv0. }
    destruct (Hacc w) as [w' Hcv]. rewrite Hcv.
    eexists _, _. split; [reflexivity|]. split; [|split].
    + split; [done|]. split; [by apply (inv_update ap i r)|].
      intros j o Hj. simpl in Hj.
      destruct (decide (i = j)) as [<-|Hne'].
      * rewrite list_lookup_insert_eq in Hj by (by eapply lookup_lt_Some).
        simplify_eq. simpl. split.
        -- intros k. rewrite Hfl, elem_of_cons. split; [by right|].
           by intros [?|?].
        -- intros k. rewrite elem_of_cons, <- Har.
           destruct (decide (Argument_Name a = k)) as [<-|Hk].
           ++ rewrite lookup_insert_eq. split; [by left|by eexists].
           ++ rewrite lookup_insert_ne by done. split; [by right|].
              intros [?|?]; [congruence|done].
      * rewrite list_lookup_insert_ne in Hj by done.
        destruct (Htr _ _ Hj) as [Hfl' Har']. split.
        -- intros k. rewrite Hfl', elem_of_cons. split; [by right|].
           by intros [?|?].
        -- intros k. rewrite Har', elem_of_cons. split; [by right|].
           intros [?|?]; [congruence|done].
    + intros j o k v' Hj Hv'. simpl.
      destruct (decide (i = j)) as [<-|Hne'].
      * rewrite list_lookup_insert_eq by (by eapply lookup_lt_Some).
        simplify_eq. eexists. split; [done|]. simpl.
        rewrite lookup_insert_ne; [done|]. intros E. congruence.
      * rewrite list_lookup_insert_ne by done. by exists o.
    + intros long' nm' raw' i' a' Hin Hres'.
      apply list_elem_of_singleton in Hin. simplify_eq.
      eexists _, v. split; [|split; [|done]].
      * simpl. apply list_lookup_insert_eq. by eapply lookup_lt_Some.
      * simpl. by rewrite lookup_insert_eq.
Qed.

Lemma consume_items (stack : list Command) (opts : list Item) :
  forall (ap : argParser) (T : list (option (bool * nat * string))) (w : World),
    tracks stack ap T -> Forall (declared stack) opts ->
    NoDup (map (targetOf stack) opts) ->
    (forall t, t ∈ map (targetOf stack) opts -> t ∉ T) ->
    exists ap' w' T',
      consumeAll ap (map render opts) w = (Ok ap', w') /\
      tracks stack ap' T' /\
      (forall t, t ∈ T' <-> t ∈ map (targetOf stack) opts \/ t ∈ T) /\
      keeps ap ap' /\ recorded stack opts ap'.
Proof.
  induction opts as [|it opts IH]; intros ap T w Htr Hdecl Hnd Hfresh.
  - exists ap, w, T. split; [done|]. split; [done|]. split.
    { intros t. simpl. rewrite elem_of_nil. tauto. }
    split; [apply keeps_refl|]. intros long nm raw i a Hin.
    by apply elem_of_nil in Hin.
  - apply Forall_cons in Hdecl as [Hit Hdecl].
    simpl in Hnd. apply NoDup_cons in Hnd as [Hnotin Hnd].
    destruct (consume_item stack ap T it w Htr Hit) as (ap1 & w1 & H1 & Htr1 & Hk1 & Hrec1).
    { apply Hfresh. simpl. by left. }
    destruct (IH ap1 (targetOf stack it :: T) w1 Htr1 Hdecl Hnd)
      as (ap' & w' & T' & Hrun & Htr' & HT' & Hk' & Hrec').
    { intros t Ht. rewrite elem_of_cons. intros [->|HtT]; [done|].
      apply (Hfresh t); [|done]. simpl. by right. }
    exists ap', w', T'. split; [|split; [done|split; [|split]]].
    + simpl. by rewrite (bind_Ok _ _ _ _ _ H1).
    + intros t. rewrite HT'. simpl. rewrite !elem_of_cons. tauto.
    + by eapply keeps_trans.
    + intros long nm raw i a Hin Hres.
      apply elem_of_cons in Hin as [<-|Hin].
      * destruct (Hrec1 long nm raw i a) as (o & v & Ho & Hv & Hacc); [by left|done|].
        destruct (Hk' _ _ _ _ Ho Hv) as (o' & Ho' & Hv'). by exists o', v.
      * by apply (Hrec' long nm raw i a).
Qed.

Lemma lookup_push {A : Type} (l : list A) (n i : nat) (x y o : A) :
  (<[n := x]> l ++ [y]) !! i = Some o -> o = x \/ o = y \/ l !! i = Some o.
Proof.
  intros Hi. apply lookup_app_Some in Hi as [Hi|[_ Hi]].
  - apply list_lookup_insert_Some in Hi as [(_ & -> & _)|[_ Hi]]; [by left|].
    by right; right.
  - destruct (i - length (<[n:=x]> l)) as [|j]; [|by destruct j].
    simpl in Hi. simplify_eq. by right; left.
Qed.

Lemma wf_subcommand (c subc : Command) (nm : string) :
  wf_command c -> subcommands c !! nm = Some subc ->
  primaryArg c = None /\ wf_command subc.
Proof.
  intros Hwf Hs. destruct Hwf as [c _ _ _ _ Hex Hsub]. split.
  - destruct (primaryArg c) as [p|] eqn:Hp; [|done].
    rewrite Hex in Hs by done. by rewrite lookup_empty in Hs.
  - by destruct (Hsub _ _ Hs).
Qed.

Lemma descend_wf (path : list string) :
  forall (c : Command) (subs : list Command),
    wf_command c -> descend c path = Some subs -> Forall wf_command subs.
Proof.
  induction path as [|nm path IH]; intros c subs Hwf Hd; simpl in Hd.
  - by simplify_eq.
  - destruct (subcommands c !! nm) as [subc|] eqn:Hs; [|done].
    destruct (descend subc path) as [subs'|] eqn:Hd'; [|done].
    simpl in Hd. simplify_eq.
    destruct (wf_subcommand _ _ _ Hwf Hs) as [_ Hwf'].
    constructor; [done|]. by eapply IH.
Qed.

Lemma consume_path (path : list string) :
  forall (ap : argParser) (c : Command) (subs : list Command) (w : World),
    inv ap -> allowSubcommands ap = true ->
    last (commandStack ap) = Some c -> wf_command c ->
    Forall bare path -> descend c path = Some subs ->
    (forall i o, semanticStack ap !! i = Some o ->
                 o_flags o = ∅ /\ o_Arguments o = ∅) ->
    exists ap',
      consumeAll ap path w = (Ok ap', w) /\
      commandStack ap' = commandStack ap ++ subs /\ inv ap' /\
      (forall i o, semanticStack ap' !! i = Some o ->
                   o_flags o = ∅ /\ o_Arguments o = ∅).
Proof.
  induction path as [|nm path IH]; intros ap c subs w Hinv Ha Hlast Hwf Hb Hd Hblank.
  - simpl in Hd. simplify_eq. exists ap. by rewrite app_nil_r.
  - simpl in Hd.
    destruct (subcommands c !! nm) as [subc|] eqn:Hs; [|done].
    destruct (descend subc path) as [subs'|] eqn:Hd'; [|done].
    simpl in Hd. simplify_eq.
    apply Forall_cons in Hb as [Hbnm Hb].
    destruct (wf_subcommand _ _ _ Hwf Hs) as [Hp Hwf'].
    destruct (inv_top ap Hinv) as (c0 & r & Hcc & Hlast0 & Hcr & Hr & Hnone).
    rewrite Hlast in Hlast0. simplify_eq.
    pose proof (consume_bare ap nm c0 r w Hbnm Hcc Hcr) as H1.
    rewrite Hp, Ha, Hs in H1.
    destruct (consume_Ok _ _ _ _ _ Hinv H1) as (Hinv1 & _).
    edestruct (IH _ subc subs' w Hinv1) as (ap' & Hrun & Hst & Hinv' & Hblank');
      [done|by simpl; rewrite last_snoc|done|done|done| |].
    { simpl. intros i o Hi. apply lookup_push in Hi as [->|[->|Hi]].
      - simpl. by apply (Hblank _ _ Hr).
      - done.
      - by apply (Hblank _ _ Hi). }
    exists ap'. split; [|split; [|done]].
    + simpl. by rewrite (bind_Ok _ _ _ _ _ H1).
    + rewrite Hst. simpl. by rewrite <- app_assoc.
Qed.

Lemma IntArgument_SetDefaultValue_Ok (ab : argumentBase)
    (vd : option (validator Z)) (z : Z) (w w' : World) (a : Argument) :
  IntArgument_SetDefaultValue ab vd z w = (Ok a, w') ->
  a = IntArgument (setDefault ab (VInt z)) vd /\
  GetDefaultValue a = Some (VInt z).
Proof.
  unfold IntArgument_SetDefaultValue, bind, ret.
  destruct (validate vd z VInt w) as [[v|e|m] w1]; [|done..].
  intros [= <- <-]. done.
Qed.

Lemma FloatArgument_SetDefaultValue_Ok (ab : argumentBase)
    (vd : option (validator float64)) (x : float64) (w w' : World) (a : Argument) :
  FloatArgument_SetDefaultValue ab vd x w = (Ok a, w') ->
  GetDefaultValue a = Some (VFloat x).
Proof.
  unfold FloatArgument_SetDefaultValue, bind, ret.
  destruct (validate vd x VFloat w) as [[v|e|m] w1]; [|done..].
  intros [= <- <-]. done.
Qed.

Lemma StringArgument_SetDefaultValue_Ok (ab : argumentBase)
    (vd : option (validator string)) (x : string) (w w' : World) (a : Argument) :
  StringArgument_SetDefaultValue ab vd x w = (Ok a, w') ->
  GetDefaultValue a = Some (VString x).
Proof.
  unfold StringArgument_SetDefaultValue, bind, ret.
  destruct (validate vd x VString w) as [[v|e|m] w1]; [|done..].
  intros [= <- <-]. done.
Qed.

Lemma SelectorArgument_SetDefaultValue_Ok (ab : argumentBase) (pv : gset string)
    (vd : option (validator string)) (x : string) (w w' : World) (a : Argument) :
  SelectorArgument_SetDefaultValue ab pv vd x w = (Ok a, w') ->
  GetDefaultValue a = Some (VString x).
Proof.
  unfold SelectorArgument_SetDefaultValue, bind, ret.
  destruct (checkValue _ x w) as [[v|e|m] w1]; [|done..].
  intros [= <- <-]. done.
Qed.

(** ** The [required] marks *)

Lemma forget_arg_Name (a : Argument) :
  Argument_Name (forget_arg a) = Argument_Name a.
Proof. by destruct a. Qed.

Lemma forget_arg_default (a : Argument) :
  GetDefaultValue (forget_arg a) = GetDefaultValue a.
Proof. by destruct a. Qed.

Lemma forget_arg_checkValue (a : Argument) (val : string) :
  checkValue (forget_arg a) val = checkValue a val.
Proof. by destruct a. Qed.

Lemma forget_flagTable (long : bool) (c : Command) :
  flagTable long (forget_required c) = flagTable long c.
Proof. by destruct c, long. Qed.

Lemma forget_argTable (long : bool) (c : Command) :
  argTable long (forget_required c) = forget_arg <$> argTable long c.
Proof. by destruct c, long. Qed.

Lemma forget_subcommands (c : Command) :
  subcommands (forget_required c) = forget_required <$> subcommands c.
Proof. by destruct c. Qed.

Lemma forget_primaryArg (c : Command) :
  primaryArg (forget_required c) = forget_primary <$> primaryArg c.
Proof. by destruct c. Qed.

Lemma forget_Name (c : Command) : Name (forget_required c) = Name c.
Proof. by destruct c. Qed.

Lemma forget_args (c : Command) :
  args (forget_required c) = forget_arg <$> args c.
Proof. by destruct c. Qed.

Lemma forget_missesSubcommand (c : Command) :
  missesSubcommand (forget_required c) = missesSubcommand c.
Proof.
  unfold missesSubcommand. rewrite forget_subcommands, map_size_fmap.
  by destruct c.
Qed.

Lemma resolve_forget_flag (long : bool) (stack : list Command) (nm : string)
    (n : nat) :
  resolve (flagTable long) (forget_required <$> stack) nm n
  = resolve (flagTable long) stack nm n.
Proof.
  induction n as [|i IH]; [reflexivity|]. simpl.
  rewrite list_lookup_fmap. destruct (stack !! i) as [c|]; [|reflexivity].
  simpl. rewrite forget_flagTable. by rewrite IH.
Qed.

Lemma resolve_forget_arg (long : bool) (stack : list Command) (nm : string)
    (n : nat) :
  resolve (argTable long) (forget_required <$> stack) nm n
  = match resolve (argTable long) stack nm n with
    | Some (i, a) => Some (i, forget_arg a)
    | None => None
    end.
Proof.
  induction n as [|i IH]; [reflexivity|]. simpl.
  rewrite list_lookup_fmap. destruct (stack !! i) as [c|]; [|reflexivity].
  simpl. rewrite forget_argTable, lookup_fmap.
  destruct (argTable long c !! nm); [reflexivity|]. simpl. exact IH.
Qed.

Lemma forget_state_inv (ap : argParser) : inv ap -> inv (forget_state ap).
Proof.
  intros (Hne & Hlen & Hl). split; [|split].
  - simpl. by destruct (commandStack ap).
  - simpl. by rewrite length_fmap.
  - done.
Qed.

Lemma consume_forget (ap : argParser) (arg : string) (w : World) :
  inv ap ->
  consume (forget_state ap) arg w = mapOutcome forget_state (consume ap arg w).
Proof.
  intros Hinv. pose proof Hinv as (Hne & Hlen & Hl).
  destruct (strings.HasPrefix arg "-") eqn:Hd.
  - destruct (extractComponents arg) as [argName argVal] eqn:He.
    rewrite (consume_dashed (forget_state ap) arg argName argVal _ He eq_refl Hd).
    rewrite (consume_dashed ap arg argName argVal _ He eq_refl Hd).
    change (commandStack (forget_state ap))
      with (forget_required <$> commandStack ap).
    rewrite length_fmap.
    destruct (decide (argVal = "")).
    + rewrite resolve_forget_flag.
      destruct (resolve _ _ _ _) as [[i f]|] eqn:Hres; [|reflexivity].
      apply resolve_lt in Hres.
      destruct (lookup_lt_is_Some_2 (semanticStack ap) i) as [r Hr]; [lia|].
      rewrite (setFlag_eq _ i f r), (setFlag_eq _ i f r) by done.
      by destruct (decide (flag_name f ∈ o_flags r)).
    + rewrite resolve_forget_arg.
      destruct (resolve _ _ _ _) as [[i a]|] eqn:Hres; [|reflexivity].
      apply resolve_lt in Hres.
      destruct (lookup_lt_is_Some_2 (semanticStack ap) i) as [r Hr]; [lia|].
      rewrite (setArg_eq _ i _ argVal r), (setArg_eq _ i a argVal r) by done.
      rewrite forget_arg_Name, forget_arg_checkValue.
      destruct (o_Arguments r !! Argument_Name a); [reflexivity|].
      by destruct (checkValue a argVal w) as [[v|e|m] w1].
  - destruct (inv_top ap Hinv) as (c & r & Hcc & Hlast & Hcr & Hr & Hnone).
    assert (currCommand (forget_state ap) = Ok (forget_required c)) as Hcc'.
    { unfold currCommand, top. simpl. by rewrite fmap_last, Hlast. }
    rewrite (consume_bare (forget_state ap) arg _ r w Hd Hcc' Hcr).
    rewrite (consume_bare ap arg c r w Hd Hcc Hcr).
    rewrite forget_primaryArg, forget_Name, forget_subcommands, lookup_fmap.
    destruct (primaryArg c); simpl.
    + by destruct (decide (o_primaryArg r = "")).
    + destruct (allowSubcommands ap); [|reflexivity].
      destruct (subcommands c !! arg) as [subc|]; [|reflexivity].
      simpl. unfold forget_state. simpl.
      by rewrite fmap_app, forget_Name.
Qed.

Lemma consumeAll_forget (ap : argParser) (tokens : list string) (w : World) :
  inv ap ->
  consumeAll (forget_state ap) tokens w
  = mapOutcome forget_state (consumeAll ap tokens w).
Proof.
  revert ap w. induction tokens as [|t tokens IH]; intros ap w Hinv; [reflexivity|].
  simpl. unfold bind. rewrite (consume_forget ap t w Hinv).
  destruct (consume ap t w) as [[ap1|e|m] w1] eqn:H1; [|reflexivity..].
  simpl. destruct (consume_Ok _ _ _ _ _ Hinv H1) as (Hinv1 & _). by apply IH.
Qed.

Lemma objDefault_forget (a : Argument) (r : resultObj) :
  objDefault (forget_arg a) r = objDefault a r.
Proof. unfold objDefault. by rewrite forget_arg_default, forget_arg_Name. Qed.

Lemma defaultsOf_forget (c : Command) (r : resultObj) :
  defaultsOf (forget_required c) r = defaultsOf c r.
Proof.
  unfold defaultsOf. rewrite forget_args, map_fold_fmap, !map_fold_foldr.
  apply foldr_ext; [|done..].
  intros [k a] r'. simpl. apply objDefault_forget.
Qed.

Lemma fillDefaults_forget (ap : argParser) :
  inv ap ->
  fillDefaults (forget_state ap) (length (commandStack (forget_state ap)))
  = Res_bind (fillDefaults ap (length (commandStack ap)))
      (fun ap' => Ok (forget_state ap')).
Proof.
  intros Hinv. pose proof Hinv as (Hne & Hlen & Hl).
  destruct (fillDefaults_eq ap (length (commandStack ap)) Hlen (le_n _))
    as (ss1 & Hfd1 & Hlen1 & Hlk1).
  pose proof (forget_state_inv ap Hinv) as (_ & Hlen' & _).
  destruct (fillDefaults_eq (forget_state ap) _ Hlen' (le_n _))
    as (ss2 & Hfd2 & Hlen2 & Hlk2).
  rewrite Hfd1, Hfd2. simpl. f_equal.
  assert (ss2 = ss1) as ->; [|reflexivity].
  apply list_eq. intros j. rewrite Hlk1, Hlk2. simpl.
  rewrite length_fmap, list_lookup_fmap.
  destruct (decide (j < length (commandStack ap))); [|reflexivity].
  destruct (commandStack ap !! j) as [c|]; [|reflexivity]. simpl.
  destruct (semanticStack ap !! j) as [r|]; [|reflexivity].
  by rewrite defaultsOf_forget.
Qed.

Lemma parse_forget (cli : Command) (tokens : list string) (w : World) :
  parse (forget_required cli) tokens w = parse cli tokens w.
Proof.
  unfold parse.
  change (initial (forget_required cli)) with (forget_state (initial cli)).
  pose proof (consumeAll_forget (initial cli) tokens w (inv_initial cli)) as Hrun'.
  destruct (consumeAll (initial cli) tokens w) as [[ap|e|m] w1] eqn:Hrun;
    simpl in Hrun'.
  2, 3: unfold bind; by rewrite Hrun, Hrun'.
  rewrite (bind_Ok _ _ _ _ _ Hrun), (bind_Ok _ _ _ _ _ Hrun').
  destruct (consumeAll_Ok _ _ _ _ _ (inv_initial cli) Hrun) as [Hinv _].
  destruct (inv_top ap Hinv) as (c & r & Hcc & Hlast & _).
  assert (currCommand (forget_state ap) = Ok (forget_required c)) as Hcc'.
  { unfold currCommand, top. simpl. by rewrite fmap_last, Hlast. }
  rewrite (bind_Ok (lift (currCommand ap)) _ w1 w1 c)
    by (unfold lift; by rewrite Hcc).
  rewrite (bind_Ok (lift (currCommand (forget_state ap))) _ w1 w1
             (forget_required c))
    by (unfold lift; by rewrite Hcc').
  rewrite forget_missesSubcommand, forget_Name.
  destruct (missesSubcommand c); [reflexivity|].
  unfold bind, lift. rewrite (fillDefaults_forget ap Hinv).
  by destruct (fillDefaults ap (length (commandStack ap))).
Qed.

(** ** The builder keeps command trees well formed *)

Lemma wf_newCommand (nm dsc : string) : wf_command (newCommand nm dsc).
Proof. constructor; simpl; intros; by simplify_map_eq. Qed.

Lemma wf_set_RequiresSubcommand (c : Command) (b : bool) :
  wf_command c -> wf_command (set_RequiresSubcommand c b).
Proof. intros [c' ? ? ? ? ? ?]. constructor; assumption. Qed.

Lemma wf_AddFlag (c c' : Command) (f : Flag) :
  wf_command c -> AddFlag c f = Some c' -> wf_command c'.
Proof.
  intros [c0 Hfl Hfs Hal Has Hex Hsub]. unfold AddFlag.
  destruct (flags c0 !! flag_name f) eqn:Hn; [done|].
  destruct (flagsByShortName c0 !! flag_shortName f) eqn:Hs; [done|].
  intros [= <-].
  constructor; cbn [flags flagsByShortName args argsByShortName primaryArg
                    subcommands];
    [| |exact Hal|exact Has|exact Hex|exact Hsub].
  - intros k g Hk. apply lookup_insert_Some in Hk as [[<- <-]|[Hne Hk]].
    + split; [done|]. by rewrite lookup_insert_eq.
    + destruct (Hfl _ _ Hk) as [Hname Hshort]. split; [done|].
      rewrite lookup_insert_ne; [done|]. intros E. rewrite E in Hs. congruence.
  - intros k g Hk. apply lookup_insert_Some in Hk as [[<- <-]|[Hne Hk]].
    + split; [done|]. by rewrite lookup_insert_eq.
    + destruct (Hfs _ _ Hk) as [Hshort Hname]. split; [done|].
      rewrite lookup_insert_ne; [done|]. intros E. rewrite E in Hn. congruence.
Qed.

Lemma wf_addArg (c c' : Command) (a : Argument) :
  wf_command c -> addArg c a = Some c' -> wf_command c'.
Proof.
  intros [c0 Hfl Hfs Hal Has Hex Hsub]. unfold addArg.
  destruct (args c0 !! Argument_Name a) eqn:Hn; [done|].
  destruct (argsByShortName c0 !! Argument_ShortName a) eqn:Hs; [done|].
  intros [= <-].
  constructor; cbn [flags flagsByShortName args argsByShortName primaryArg
                    subcommands];
    [exact Hfl|exact Hfs| | |exact Hex|exact Hsub].
  - intros k g Hk. apply lookup_insert_Some in Hk as [[<- <-]|[Hne Hk]].
    + split; [done|]. by rewrite lookup_insert_eq.
    + destruct (Hal _ _ Hk) as [Hname Hshort]. split; [done|].
      rewrite lookup_insert_ne; [done|]. intros E. rewrite E in Hs. congruence.
  - intros k g Hk. apply lookup_insert_Some in Hk as [[<- <-]|[Hne Hk]].
    + split; [done|]. by rewrite lookup_insert_eq.
    + destruct (Has _ _ Hk) as [Hshort Hname]. split; [done|].
      rewrite lookup_insert_ne; [done|]. intros E. rewrite E in Hn. congruence.
Qed.

Lemma wf_AddSubcommand (c subc c' : Command) :
  wf_command c -> wf_command subc -> AddSubcommand c subc = Some c' ->
  wf_command c'.
Proof.
  intros [c0 Hfl Hfs Hal Has Hex Hsub] Hwf. unfold AddSubcommand.
  destruct (primaryArg c0) eqn:Hp; [done|].
  destruct (subcommands c0 !! Name subc) eqn:Hn; [done|].
  intros [= <-].
  constructor; cbn [flags flagsByShortName args argsByShortName primaryArg
                    subcommands];
    [exact Hfl|exact Hfs|exact Hal|exact Has| |].
  - by intros [].
  - intros k s Hk. apply lookup_insert_Some in Hk as [[<- <-]|[Hne Hk]].
    + split; [reflexivity|exact Hwf].
    + by apply Hsub.
Qed.

Lemma wf_AddPrimaryArg (c c' : Command) (p : PrimaryArgument) :
  wf_command c -> AddPrimaryArg c p = Some c' -> wf_command c'.
Proof.
  intros [c0 Hfl Hfs Hal Has Hex Hsub]. unfold AddPrimaryArg.
  destruct (bool_decide (0 < size (subcommands c0))) eqn:Hsz; [done|].
  intros [= <-].
  constructor; cbn [flags flagsByShortName args argsByShortName primaryArg
                    subcommands];
    [exact Hfl|exact Hfs|exact Hal|exact Has| |exact Hsub].
  intros _. apply map_size_empty_iff.
  apply bool_decide_eq_false in Hsz. lia.
Qed.

(** * The claims *)

(** C1. On a well-formed command tree, take a token list made of a
    path of subcommand names followed by tokens for declared flags
    ([--name], [-short]) and declared arguments ([--name=value],
    [-short=value]): the names are bare words or hold no ["="] and no
    leading dash, the values are not empty and accepted by
    [checkValue], no flag or argument is set twice, and the command the
    path ends on does not miss a subcommand.  The parse succeeds.  In
    the result, the scope where a flag token resolves has the flag, the
    scope where an argument token resolves maps the argument to the
    value that [checkValue] gives for its raw text, and every argument
    of a command on the path that no token sets and that has a default
    is mapped to the default.  A default set with [SetDefaultValue] is
    a default whatever its value, the integer 0 included. *)
Theorem legal_tokens_parse (cli : Command) (path : list string)
    (subs : list Command) (opts : list Item) (w : World) :
  wf_command cli ->
  Forall bare path -> descend cli path = Some subs ->
  (forall c, last (cli :: subs) = Some c -> missesSubcommand c = false) ->
  Forall (declared (cli :: subs)) opts ->
  NoDup (map (targetOf (cli :: subs)) opts) ->
  exists r w',
    parse cli (path ++ map render opts) w = (Ok r, w') /\
    (forall long nm i f,
       ItFlag long nm ∈ opts ->
       innermost (flagTable long) (cli :: subs) nm i f ->
       exists ri, scope r i = Some ri /\ HasFlag ri (flag_name f) = true) /\
    (forall long nm raw i a,
       ItArg long nm raw ∈ opts ->
       innermost (argTable long) (cli :: subs) nm i a ->
       exists ri v, scope r i = Some ri /\
                    Arguments ri !! Argument_Name a = Some v /\
                    accepts a raw v) /\
    (forall i c k a v,
       (cli :: subs) !! i = Some c -> args c !! k = Some a ->
       GetDefaultValue a = Some v ->
       Some (false, i, k) ∉ map (targetOf (cli :: subs)) opts ->
       exists ri, scope r i = Some ri /\ Arguments ri !! k = Some v) /\
    (forall ab w0 w1 a,
       (forall vd z, IntArgument_SetDefaultValue ab vd z w0 = (Ok a, w1) ->
                     GetDefaultValue a = Some (VInt z)) /\
       (forall vd x, FloatArgument_SetDefaultValue ab vd x w0 = (Ok a, w1) ->
                     GetDefaultValue a = Some (VFloat x)) /\
       (forall vd x, StringArgument_SetDefaultValue ab vd x w0 = (Ok a, w1) ->
                     GetDefaultValue a = Some (VString x)) /\
       (forall pv vd x,
          SelectorArgument_SetDefaultValue ab pv vd x w0 = (Ok a, w1) ->
          GetDefaultValue a = Some (VString x))).
Proof.
  intros Hwf Hbare Hdesc Hlast Hdecl Hnd.
  set (stack := cli :: subs) in *.
  destruct (consume_path path (initial cli) cli subs w (inv_initial cli))
    as (ap1 & Hrun1 & Hst1 & Hinv1 & Hblank1); try done.
  { intros i o Hi. destruct i as [|i]; [|done]. simpl in Hi. by simplify_eq. }
  simpl in Hst1. fold stack in Hst1.
  assert (tracks stack ap1 []) as Htr1.
  { split; [done|]. split; [done|]. intros i o Hi.
    destruct (Hblank1 _ _ Hi) as [-> ->]. split; intros k.
    - by rewrite elem_of_empty, elem_of_nil.
    - rewrite lookup_empty, elem_of_nil. split; [by intros [? ?]|done]. }
  destruct (consume_items stack opts ap1 [] w Htr1 Hdecl Hnd)
    as (ap2 & w2 & T & Hrun2 & Htr2 & HT & _ & Hrec).
  { intros t _. apply not_elem_of_nil. }
  assert (consumeAll (initial cli) (path ++ map render opts) w = (Ok ap2, w2))
    as Hrun.
  { by rewrite consumeAll_app, (bind_Ok _ _ _ _ _ Hrun1). }
  destruct Htr2 as (Hst2 & Hinv2 & Htr2).
  pose proof Hinv2 as (Hne2 & Hlen2 & Hl2).
  destruct (parse_of_run _ _ _ _ _ Hrun) as (c & Hc & _ & Hok).
  rewrite Hst2 in Hc.
  destruct (Hok (Hlast c Hc)) as (ss' & r & Hparse & Hchain & Hlen' & Hss').
  assert (forall i c, stack !! i = Some c ->
            exists o ri, semanticStack ap2 !! i = Some o /\
                         ss' !! i = Some (defaultsOf c o) /\
                         scope r i = Some ri /\
                         r_flags ri = o_flags o /\
                         Arguments ri = o_Arguments (defaultsOf c o)) as Hscope.
  { intros i ci Hi.
    destruct (lookup_lt_is_Some_2 (semanticStack ap2) i) as [o Ho].
    { rewrite Hlen2, Hst2. by eapply lookup_lt_Some. }
    assert (ss' !! i = Some (defaultsOf ci o)) as Hi'.
    { apply Hss'; [by rewrite Hst2|done]. }
    destruct (chain_scope ss' r i _ Hchain Hi') as (ri & Hri & Hf & Ha & _).
    exists o, ri. repeat split; try done.
    rewrite Hf. by destruct (defaultsOf_fields ci o) as (-> & _). }
  assert (forall i c, stack !! i = Some c ->
            forall k a, args c !! k = Some a -> Argument_Name a = k) as Hnames.
  { intros i ci Hi k a Ha.
    assert (wf_command ci) as Hwfc.
    { destruct i as [|i]; simpl in Hi; [by simplify_eq|].
      pose proof (descend_wf _ _ _ Hwf Hdesc) as Hall.
      rewrite Forall_lookup in Hall. by eapply Hall. }
    destruct Hwfc as [ci _ _ Hargs _ _ _]. by destruct (Hargs _ _ Ha). }
  exists r, w2. split; [done|]. split; [|split; [|split]].
  - intros long nm i f Hin Hinn. pose proof Hinn as [(ci & Hci & _) _].
    apply resolve_innermost in Hinn.
    destruct (Hscope i ci Hci) as (o & ri & Ho & _ & Hri & Hf & _).
    exists ri. split; [done|]. unfold HasFlag. rewrite bool_decide_eq_true, Hf.
    apply (Htr2 _ _ Ho), HT. left.
    apply list_elem_of_fmap. exists (ItFlag long nm). split; [|done].
    unfold targetOf. by rewrite Hinn.
  - intros long nm raw i a Hin Hinn. pose proof Hinn as [(ci & Hci & _) _].
    apply resolve_innermost in Hinn.
    destruct (Hrec long nm raw i a Hin Hinn) as (o & v & Ho & Hv & Hacc).
    destruct (Hscope i ci Hci) as (o' & ri & Ho' & _ & Hri & _ & Ha).
    rewrite Ho in Ho'. simplify_eq. exists ri, v. split; [done|]. split; [|done].
    rewrite Ha, defaultsOf_Arguments by (by eapply Hnames). by rewrite Hv.
  - intros i c0 k a v Hi Ha Hdef Hunset.
    destruct (Hscope i c0 Hi) as (o & ri & Ho & _ & Hri & _ & HA).
    exists ri. split; [done|].
    rewrite HA, defaultsOf_Arguments by (by eapply Hnames).
    destruct (o_Arguments o !! k) as [v0|] eqn:Hv0.
    + destruct Hunset.
      assert (Some (false, i, k) ∈ T) as HinT.
      { apply (Htr2 _ _ Ho). by rewrite Hv0. }
      apply HT in HinT as [?|HinT]; [done|]. by apply elem_of_nil in HinT.
    + rewrite Ha. simpl. done.
  - intros ab w0 w1 a. split; [|split; [|split]].
    + intros vd z Hset.
      by destruct (IntArgument_SetDefaultValue_Ok _ _ _ _ _ _ Hset).
    + intros vd x. apply FloatArgument_SetDefaultValue_Ok.
    + intros vd x. apply StringArgument_SetDefaultValue_Ok.
    + intros pv vd x. apply SelectorArgument_SetDefaultValue_Ok.
Qed.

(** C2. A dashed token is looked up on the command stack from the
    innermost command outwards and the first command that declares the
    name wins: with [(argName, argVal)] the parts of the token, a token
    without value sets the flag that [argName] denotes at the innermost
    position declaring it, a token with a value sets the argument found
    the same way, double-dash tokens searching the tables of full names
    and single-dash tokens those of short names; a name declared at no
    position fails as an unknown flag or an unknown argument. *)
Theorem resolution_innermost_first (ap : argParser) (arg argName argVal : string) :
  strings.HasPrefix arg "-" = true ->
  extractComponents arg = (argName, argVal) ->
  let long := strings.HasPrefix arg "--" in
  let ap' := set_allowSubcommands ap false in
  (argVal = "" ->
     (forall i f, innermost (flagTable long) (commandStack ap) argName i f ->
                  consume ap arg = setFlag ap' i f) /\
     (undeclared (flagTable long) (commandStack ap) argName ->
      consume ap arg = fail (if long then UnknownFlag argName
                             else UnknownFlagByShortName argName))) /\
  (argVal <> "" ->
     (forall i a, innermost (argTable long) (commandStack ap) argName i a ->
                  consume ap arg = setArg ap' i a argVal) /\
     (undeclared (argTable long) (commandStack ap) argName ->
      consume ap arg = fail (if long then UnknownArgument argName
                             else UnknownArgumentByShortName argName))).
Proof.
  intros Hd He long ap'.
  rewrite (consume_dashed ap arg argName argVal long He eq_refl Hd).
  split.
  - intros Hv. rewrite decide_True by done. split.
    + intros i f Hin. apply resolve_innermost in Hin. by rewrite Hin.
    + intros Hun. apply resolve_undeclared in Hun. by rewrite Hun.
  - intros Hv. rewrite decide_False by done. split.
    + intros i a Hin. apply resolve_innermost in Hin. by rewrite Hin.
    + intros Hun. apply resolve_undeclared in Hun. by rewrite Hun.
Qed.

(** C3, as the code has it. A token that begins with the double-dash
    marker is split at its first ["="]: the name is the text before it
    with the leading dashes dropped, the raw value is all the text
    after it, further ["="] included.  The token is looked up as a
    named argument exactly when that raw value is not empty; a token
    without ["="], and a token with nothing after its first ["="], is
    looked up as a flag. *)
Theorem double_dash_token (ap : argParser) (arg : string) :
  strings.HasPrefix arg "--" = true ->
  let ap' := set_allowSubcommands ap false in
  let asFlag (nm : string) : M argParser :=
    match resolve flags (commandStack ap) nm (length (commandStack ap)) with
    | Some (i, f) => setFlag ap' i f
    | None => fail (UnknownFlag nm)
    end in
  let asArgument (nm raw : string) : M argParser :=
    match resolve args (commandStack ap) nm (length (commandStack ap)) with
    | Some (i, a) => setArg ap' i a raw
    | None => fail (UnknownArgument nm)
    end in
  (strings.Contains arg "=" = false ->
     extractComponents arg = (strings.TrimLeft arg "-", "") /\
     consume ap arg = asFlag (strings.TrimLeft arg "-")) /\
  (strings.Contains arg "=" = true ->
     exists pre post, arg = pre +:+ "=" +:+ post /\
                      strings.Contains pre "=" = false) /\
  (forall pre post,
     arg = pre +:+ "=" +:+ post -> strings.Contains pre "=" = false ->
     extractComponents arg = (strings.TrimLeft pre "-", post) /\
     (post <> "" -> consume ap arg = asArgument (strings.TrimLeft pre "-") post) /\
     (post = "" -> consume ap arg = asFlag (strings.TrimLeft pre "-"))).
Proof.
  intros Hp ap' asFlag asArgument. pose proof (HasPrefix_two_one _ Hp) as Hd.
  split; [|split].
  - rewrite Contains_byte. intros Hc.
    pose proof (extract_without_eq _ Hc) as He. split; [done|].
    rewrite (consume_dashed ap arg _ _ true He Hp Hd). by rewrite decide_True.
  - rewrite Contains_byte. intros Hc.
    destruct (ContainsByte_first _ _ Hc) as (pre & post & -> & Hpre).
    exists pre, post. by rewrite Contains_byte.
  - intros pre post -> Hpre. rewrite Contains_byte in Hpre.
    pose proof (extract_with_eq pre post Hpre) as He. split; [done|].
    rewrite (consume_dashed ap _ _ _ true He Hp Hd). split.
    + intros Hne. by rewrite decide_False.
    + intros ->. by rewrite decide_True.
Qed.

(** C4. Once a flag, a named argument or a primary argument has been
    consumed, the latch is cleared for good and no later token enters a
    subcommand: a token that does enter one is a bare word met while the
    latch is still set, every successful token that does not enter one
    clears the latch, and the tokens of a successful run split into a
    prefix of subcommand names followed by tokens that leave the command
    stack as it is.  A bare word met after the latch is cleared, in a
    command without a primary argument, fails as an unknown subcommand. *)
Theorem subcommands_form_a_prefix (ap : argParser) :
  inv ap ->
  (forall arg w ap' w', consume ap arg w = (Ok ap', w') ->
     (commandStack ap' <> commandStack ap ->
        bare arg /\ allowSubcommands ap = true /\ allowSubcommands ap' = true /\
        exists c subc, last (commandStack ap) = Some c /\
                       subcommands c !! arg = Some subc /\
                       commandStack ap' = commandStack ap ++ [subc]) /\
     (commandStack ap' = commandStack ap -> allowSubcommands ap' = false)) /\
  (forall tokens w ap' w', allowSubcommands ap = false ->
     consumeAll ap tokens w = (Ok ap', w') ->
     commandStack ap' = commandStack ap /\ allowSubcommands ap' = false) /\
  (forall tokens w ap' w', consumeAll ap tokens w = (Ok ap', w') ->
     exists (pre post : list string) (subs : list Command) (ap1 : argParser),
       tokens = pre ++ post /\ Forall bare pre /\ length subs = length pre /\
       consumeAll ap pre w = (Ok ap1, w) /\
       commandStack ap1 = commandStack ap ++ subs /\
       (forall k apk wk, consumeAll ap1 (take k post) w = (Ok apk, wk) ->
                         commandStack apk = commandStack ap1) /\
       (post <> [] -> allowSubcommands ap' = false)) /\
  (forall arg c w, allowSubcommands ap = false -> bare arg ->
     last (commandStack ap) = Some c -> primaryArg c = None ->
     consume ap arg w = (Err (UnknownSubcommand arg), w)).
Proof.
  intros Hinv. split; [|split; [|split]].
  - intros arg w ap' w' Hc.
    destruct (consume_Ok _ _ _ _ _ Hinv Hc) as (_ & _ & [[Hs Ha]|Hpush]).
    + split; [by intros []|done].
    + destruct Hpush as (Hb & Ha & Ha' & _ & c & subc & Hl & _ & Hsub & Hs).
      split.
      * intros _. repeat split; try done. by exists c, subc.
      * intros E. rewrite Hs in E.
        apply (f_equal length) in E. rewrite length_app in E. simpl in E. lia.
  - intros tokens w ap' w' Ha Hc. by eapply consumeAll_frozen.
  - intros tokens w ap' w' Hc. by eapply consumeAll_prefix.
  - intros arg c w Ha Hb Hl Hp.
    destruct (inv_top ap Hinv) as (c0 & r & Hcc & Hlast & Hcr & _).
    rewrite Hl in Hlast. simplify_eq.
    rewrite (consume_bare ap arg c0 r w Hb Hcc Hcr), Hp, Ha. done.
Qed.

(** C5. A scope starts with the empty string as its primary argument,
    which stands for none, and flag and argument tokens leave it as it
    is.  In a command that declares a primary argument a bare word is
    the primary argument: met while the scope has none, as the first
    bare word of a scope is, it is stored as it is, whatever it is, and
    the latch is cleared; once the scope has one, a further bare word
    fails the parse with the multiple-primary-arguments error.
    [PrimaryArg] reports the stored string and reports it absent
    exactly when it is empty. *)
Theorem primary_argument_once (ap : argParser) :
  inv ap ->
  (forall cli, o_primaryArg <$> last (semanticStack (initial cli)) = Some "") /\
  (forall arg w ap' w',
     consume ap arg w = (Ok ap', w') -> commandStack ap' <> commandStack ap ->
     o_primaryArg <$> last (semanticStack ap') = Some "") /\
  (forall tokens w ap' w',
     Forall (fun t => strings.HasPrefix t "-" = true) tokens ->
     consumeAll ap tokens w = (Ok ap', w') ->
     commandStack ap' = commandStack ap /\
     o_primaryArg <$> last (semanticStack ap')
     = o_primaryArg <$> last (semanticStack ap)) /\
  (forall arg c,
     bare arg -> last (commandStack ap) = Some c -> primaryArg c <> None ->
     exists r, last (semanticStack ap) = Some r /\
       (forall w, o_primaryArg r = "" ->
          consume ap arg w
          = (Ok (set_semanticStack (set_allowSubcommands ap false)
                   (<[length (semanticStack ap) - 1 := setPrimaryArg r arg]>
                      (semanticStack ap))), w)) /\
       (forall w, o_primaryArg r <> "" ->
          consume ap arg w = (Err (MultiplePrimaryArguments (Name c)), w)) /\
       (forall w ap' w' arg', arg <> "" -> consume ap arg w = (Ok ap', w') ->
          bare arg' ->
          exists r', last (semanticStack ap') = Some r' /\ o_primaryArg r' = arg /\
            consume ap' arg' w' = (Err (MultiplePrimaryArguments (Name c)), w'))) /\
  (forall apr : ArgParseResult,
     fst (PrimaryArg apr) = r_primaryArg apr /\
     (snd (PrimaryArg apr) = false <-> r_primaryArg apr = "")).
Proof.
  intros Hinv. split; [done|]. split; [|split; [|split]].
  - intros arg w ap' w' Hc Hst.
    destruct (consume_Ok _ _ _ _ _ Hinv Hc) as (_ & _ & [[Hs _]|Hpush]); [done|].
    destruct Hpush as (Hb & Ha & _).
    destruct (inv_top ap Hinv) as (c & r & Hcc & Hlast & Hcr & _).
    rewrite (consume_bare ap arg c r w Hb Hcc Hcr), Ha in Hc.
    destruct (primaryArg c).
    { destruct (decide (o_primaryArg r = "")); [|done].
      injection Hc as <- _. by destruct Hst. }
    destruct (subcommands c !! arg); [|done].
    injection Hc as <- _. simpl. by rewrite last_snoc.
  - intros tokens w ap' w' Hall Hc.
    destruct (consumeAll_dashed_primaryArg _ _ _ _ _ Hall Hinv Hc) as [Hst Hpa].
    split; [done|]. by rewrite <- !fmap_last, Hpa.
  - intros arg c Hb Hlast Hp.
    destruct (inv_top ap Hinv) as (c0 & r & Hcc & Hlast0 & Hcr & Hr & Hnone).
    rewrite Hlast in Hlast0. simplify_eq.
    assert (last (semanticStack ap) = Some r) as Hlr.
    { unfold currResult, top in Hcr. destruct (last (semanticStack ap)); by simplify_eq. }
    destruct (primaryArg c0) as [p|] eqn:Hpa; [|done].
    assert (forall w, consume ap arg w
              = if decide (o_primaryArg r = "") then
                  (Ok (set_semanticStack (set_allowSubcommands ap false)
                         (<[length (semanticStack ap) - 1 := setPrimaryArg r arg]>
                            (semanticStack ap))), w)
                else (Err (MultiplePrimaryArguments (Name c0)), w)) as Hstep.
    { intros w. by rewrite (consume_bare ap arg c0 r w Hb Hcc Hcr), Hpa. }
    exists r. split; [done|]. split; [|split].
    + intros w He. by rewrite Hstep, decide_True.
    + intros w Hne. by rewrite Hstep, decide_False.
    + intros w ap' w' arg' Hne Hc Hb'.
      rewrite Hstep in Hc. destruct (decide (o_primaryArg r = "")); [|done].
      injection Hc as Hap Hw. subst ap' w'.
      pose proof (lookup_lt_Some _ _ _ Hr) as Hlt.
      set (ap1 := set_semanticStack _ _).
      assert (inv ap1) as Hinv1 by (by apply (inv_update ap _ r)).
      destruct (inv_top ap1 Hinv1) as (c1 & r1 & Hcc1 & Hlast1 & Hcr1 & Hr1 & _).
      simpl in Hlast1. rewrite Hlast in Hlast1. simplify_eq.
      simpl in Hr1. rewrite length_insert, list_lookup_insert_eq in Hr1 by done.
      simplify_eq. exists (setPrimaryArg r arg). split.
      { unfold currResult, top in Hcr1.
        destruct (last (semanticStack ap1)); by simplify_eq. }
      split; [done|].
      rewrite (consume_bare ap1 arg' c1 _ w Hb' Hcc1 Hcr1), Hpa.
      by rewrite decide_False.
  - intros apr. split; [done|]. unfold PrimaryArg. simpl.
    rewrite negb_false_iff, bool_decide_eq_true. done.
Qed.

(** C6. A flag token whose flag is already marked present in the scope
    it resolves to fails with the flag-set-multiple-times error, and so
    does any later token that resolves to a flag of the same name in
    that scope, such as the short form after the long one; an argument
    token whose argument already has a value fails with the
    argument-set-multiple-times error.  A first setting marks the flag
    present and runs its action once, on the world as it is when the
    token is met; the next token is consumed in the world that the
    action leaves. *)
Theorem set_at_most_once (ap : argParser) :
  inv ap ->
  (forall arg nm i f r,
     strings.HasPrefix arg "-" = true -> extractComponents arg = (nm, "") ->
     innermost (flagTable (strings.HasPrefix arg "--")) (commandStack ap) nm i f ->
     semanticStack ap !! i = Some r ->
     (flag_name f ∈ o_flags r ->
        forall w, consume ap arg w = (Err (FlagSetMultipleTimes (flag_name f)), w)) /\
     (flag_name f ∉ o_flags r ->
        let ap1 := set_semanticStack (set_allowSubcommands ap false)
                     (<[i := addFlag r (flag_name f)]> (semanticStack ap)) in
        (forall w, consume ap arg w = (Ok ap1, runAction f w)) /\
        (forall w rest,
           consumeAll ap (arg :: rest) w = consumeAll ap1 rest (runAction f w)) /\
        (forall arg2 nm2 f2 w2,
           strings.HasPrefix arg2 "-" = true -> extractComponents arg2 = (nm2, "") ->
           innermost (flagTable (strings.HasPrefix arg2 "--")) (commandStack ap)
             nm2 i f2 ->
           flag_name f2 = flag_name f ->
           consume ap1 arg2 w2 = (Err (FlagSetMultipleTimes (flag_name f)), w2)))) /\
  (forall arg nm val i a r,
     strings.HasPrefix arg "-" = true -> extractComponents arg = (nm, val) ->
     val <> "" ->
     innermost (argTable (strings.HasPrefix arg "--")) (commandStack ap) nm i a ->
     semanticStack ap !! i = Some r ->
     is_Some (o_Arguments r !! Argument_Name a) ->
     forall w, consume ap arg w
               = (Err (ArgumentSetMultipleTimes (Argument_Name a)), w)) /\
  (forall f w, runAction f w = match flag_action f with
                               | Some action => action w
                               | None => w
                               end) /\
  (forall c f r w,
     wf_command c -> last (commandStack ap) = Some c ->
     flags c !! flag_name f = Some f ->
     plainName (flag_name f) -> plainName (flag_shortName f) ->
     last (semanticStack ap) = Some r -> flag_name f ∉ o_flags r ->
     consumeAll ap ["--" +:+ flag_name f; "-" +:+ flag_shortName f] w
     = (Err (FlagSetMultipleTimes (flag_name f)), runAction f w) /\
     consumeAll ap ["-" +:+ flag_shortName f; "--" +:+ flag_name f] w
     = (Err (FlagSetMultipleTimes (flag_name f)), runAction f w)).
Proof.
  intros Hinv.
  assert (forall (ap : argParser) arg nm i f r,
     strings.HasPrefix arg "-" = true -> extractComponents arg = (nm, "") ->
     innermost (flagTable (strings.HasPrefix arg "--")) (commandStack ap) nm i f ->
     semanticStack ap !! i = Some r ->
     forall w, consume ap arg w
     = if decide (flag_name f ∈ o_flags r) then
         (Err (FlagSetMultipleTimes (flag_name f)), w)
       else
         (Ok (set_semanticStack (set_allowSubcommands ap false)
                (<[i := addFlag r (flag_name f)]> (semanticStack ap))),
          runAction f w)) as Hflag.
  { intros ap0 arg nm i f r Hd He Hin Hr w.
    apply resolve_innermost in Hin. by apply (consume_flag ap0 arg nm). }
  split; [|split; [|split]].
  - intros arg nm i f r Hd He Hin Hr. split.
    + intros Hmem w. by rewrite (Hflag ap arg nm i f r), decide_True.
    + intros Hnot ap1.
      assert (forall w, consume ap arg w = (Ok ap1, runAction f w)) as Hfirst.
      { intros w. by rewrite (Hflag ap arg nm i f r), decide_False. }
      split; [done|]. split.
      * intros w rest. simpl. by rewrite (bind_Ok _ _ _ _ _ (Hfirst w)).
      * intros arg2 nm2 f2 w2 Hd2 He2 Hin2 Hname.
        rewrite (Hflag ap1 arg2 nm2 i f2 (addFlag r (flag_name f))); try done.
        -- rewrite Hname. rewrite decide_True; [done|]. simpl. apply elem_of_union_l. by apply elem_of_singleton.
        -- simpl. apply list_lookup_insert_eq. by eapply lookup_lt_Some.
  - intros arg nm val i a r Hd He Hv Hin Hr [v0 Hset] w.
    apply resolve_innermost in Hin.
    by rewrite (consume_arg ap arg nm val i a r), Hset.
  - done.
  - intros c f r w Hwf Hlc Hf Hpn Hps Hlr Hnot.
    destruct Hwf as [c Hfl _ _ _ _ _].
    destruct (Hfl _ _ Hf) as [_ Hshort].
    pose proof Hinv as (Hne & Hlen & Hl).
    assert (semanticStack ap !! (length (commandStack ap) - 1) = Some r) as Hr.
    { rewrite last_lookup in Hlr. rewrite <- Hlen.
      by replace (length (semanticStack ap) - 1)
        with (pred (length (semanticStack ap))) by lia. }
    destruct Hpn as [Hpn1 Hpn2]. destruct Hps as [Hps1 Hps2].
    destruct (dashes_prefix true _ Hpn2) as [Hl1 Hl2].
    destruct (dashes_prefix false _ Hps2) as [Hs1 Hs2].
    pose proof (extract_flag true (flag_name f) (conj Hpn1 Hpn2)) as Hel.
    pose proof (extract_flag false (flag_shortName f) (conj Hps1 Hps2)) as Hes.
    simpl dashes in *.
    pose proof (innermost_top flags _ _ _ _ Hlc Hf) as Hil.
    pose proof (innermost_top flagsByShortName _ _ _ _ Hlc Hshort) as His.
    assert (forall arg, inv (set_semanticStack (set_allowSubcommands ap false)
              (<[length (commandStack ap) - 1 := addFlag r arg]> (semanticStack ap))))
      as Hinv1.
    { intros arg. by apply (inv_update ap _ r). }
    set (i0 := length (commandStack ap) - 1) in *.
    set (ap1 := set_semanticStack (set_allowSubcommands ap false)
                  (<[i0 := addFlag r (flag_name f)]> (semanticStack ap))).
    assert (semanticStack ap1 !! i0 = Some (addFlag r (flag_name f))) as Hr1.
    { simpl. apply list_lookup_insert_eq. by eapply lookup_lt_Some. }
    assert (flag_name f ∈ o_flags (addFlag r (flag_name f))) as Hmem.
    { simpl. apply elem_of_union_l. by apply elem_of_singleton. }
    split.
    + simpl. unfold bind.
      rewrite (Hflag ap _ _ i0 f r Hl2 Hel); [|by rewrite Hl1|done].
      rewrite decide_False by done. fold ap1.
      rewrite (Hflag ap1 _ _ i0 f (addFlag r (flag_name f)) Hs2 Hes);
        [|by rewrite Hs1|done].
      by rewrite decide_True.
    + simpl. unfold bind.
      rewrite (Hflag ap _ _ i0 f r Hs2 Hes); [|by rewrite Hs1|done].
      rewrite decide_False by done. fold ap1.
      rewrite (Hflag ap1 _ _ i0 f (addFlag r (flag_name f)) Hl2 Hel);
        [|by rewrite Hl1|done].
      by rewrite decide_True.
Qed.

(** C7. [parse] fails with the requires-a-subcommand error exactly when
    every token was consumed and the command the stack ends on has at
    least one subcommand, marks subcommands as required, and has no
    subcommand chosen in its result; the error names that command.
    Only that command is tested: when it passes the test the parse
    returns a result, whatever the commands below it on the stack
    require. *)
Theorem requires_subcommand_on_last_frame (cli : Command) (tokens : list string)
    (w w' : World) :
  (forall nm,
     parse cli tokens w = (Err (RequiresASubcommand nm), w') <->
     exists ap c r,
       consumeAll (initial cli) tokens w = (Ok ap, w') /\
       last (commandStack ap) = Some c /\ last (semanticStack ap) = Some r /\
       0 < size (subcommands c) /\ RequiresSubcommand c = true /\
       o_subcommandRes r = None /\ Name c = nm) /\
  (forall ap c,
     consumeAll (initial cli) tokens w = (Ok ap, w') ->
     last (commandStack ap) = Some c ->
     (0 < size (subcommands c) /\ RequiresSubcommand c = true ->
        parse cli tokens w = (Err (RequiresASubcommand (Name c)), w')) /\
     (~ (0 < size (subcommands c) /\ RequiresSubcommand c = true) ->
        exists r, parse cli tokens w = (Ok r, w'))).
Proof.
  assert (forall c, missesSubcommand c = true
                    <-> 0 < size (subcommands c) /\ RequiresSubcommand c = true)
    as Hmiss.
  { intros c. unfold missesSubcommand.
    by rewrite andb_true_iff, bool_decide_eq_true. }
  split.
  - intros nm. split.
    + intros Hp.
      destruct (consumeAll (initial cli) tokens w) as [[ap|e|m] w1] eqn:Hrun.
      * destruct (parse_of_run _ _ _ _ _ Hrun) as (c & Hlast & Hreq & Hok).
        destruct (consumeAll_Ok _ _ _ _ _ (inv_initial cli) Hrun) as [Hinv _].
        destruct (inv_top ap Hinv) as (c0 & r & _ & Hlast0 & Hcr & _ & Hnone).
        rewrite Hlast in Hlast0. simplify_eq.
        destruct (missesSubcommand c0) eqn:Hm.
        -- rewrite (Hreq eq_refl) in Hp. injection Hp as <- <-.
           apply Hmiss in Hm as [? ?].
           exists ap, c0, r. repeat split; try done.
           unfold currResult, top in Hcr.
           destruct (last (semanticStack ap)); by simplify_eq.
        -- destruct (Hok eq_refl) as (ss' & r' & Hp' & _). congruence.
      * rewrite (parse_of_failed_run _ _ _ _ _ Hrun) in Hp. injection Hp as -> ->.
        by destruct (consumeAll_never_requires _ _ _ _ _ (inv_initial cli) Hrun).
      * by destruct (consumeAll_no_panic _ _ _ _ _ (inv_initial cli) Hrun).
    + intros (ap & c & r & Hrun & Hlast & _ & Hsz & Hreq & _ & <-).
      destruct (parse_of_run _ _ _ _ _ Hrun) as (c0 & Hlast0 & Hfail & _).
      rewrite Hlast in Hlast0. simplify_eq. apply Hfail. by apply Hmiss.
  - intros ap c Hrun Hlast.
    destruct (parse_of_run _ _ _ _ _ Hrun) as (c0 & Hlast0 & Hfail & Hok).
    rewrite Hlast in Hlast0. simplify_eq. split.
    + intros Hm. apply Hfail. by apply Hmiss.
    + intros Hm. destruct (missesSubcommand c0) eqn:E.
      * by apply Hmiss in E.
      * destruct (Hok eq_refl) as (ss' & r & Hp & _). by exists r.
Qed.

(** C8. A selector argument given a value outside its legal values fails
    with the not-a-valid-value error, the same with any validator or
    none and in an unchanged world: the validator is not run.  A value
    among the legal ones goes to the validator, if there is one, whose
    error is the outcome.  An error of [checkValue] is the outcome of
    the token, and of the run. *)
Theorem selector_membership_first (ab : argumentBase) (pv : gset string)
    (val : string) :
  (val ∉ pv ->
     forall v w, checkValue (SelectorArgument ab pv v) val w
                 = (Err (NotAValidValue val (name ab)), w)) /\
  (val ∈ pv ->
     (forall w, checkValue (SelectorArgument ab pv None) val w
                = (Ok (VString val), w)) /\
     (forall f w, checkValue (SelectorArgument ab pv (Some f)) val w
                  = match f val w with
                    | (Some msg, w') => (Err (CallerError msg), w')
                    | (None, w') => (Ok (VString val), w')
                    end)) /\
  (forall ap arg nm i v r w rest,
     strings.HasPrefix arg "-" = true -> extractComponents arg = (nm, val) ->
     val <> "" ->
     innermost (argTable (strings.HasPrefix arg "--")) (commandStack ap) nm i
       (SelectorArgument ab pv v) ->
     semanticStack ap !! i = Some r -> o_Arguments r !! name ab = None ->
     (val ∉ pv ->
        consumeAll ap (arg :: rest) w = (Err (NotAValidValue val (name ab)), w)) /\
     (forall f msg w', val ∈ pv -> v = Some f -> f val w = (Some msg, w') ->
        consumeAll ap (arg :: rest) w = (Err (CallerError msg), w'))).
Proof.
  split; [|split].
  - intros Hnot v w. simpl. by rewrite decide_False.
  - intros Hin. split.
    + intros w. simpl. by rewrite decide_True.
    + intros f w. simpl. by rewrite decide_True.
  - intros ap arg nm i v r w rest Hd He Hv Hinn Hr Hunset.
    apply resolve_innermost in Hinn.
    pose proof (consume_arg ap arg nm val i _ r w Hd He Hv Hinn Hr) as Hc.
    change (Argument_Name (SelectorArgument ab pv v)) with (name ab) in Hc.
    rewrite Hunset in Hc. split.
    + intros Hnot. simpl consumeAll. unfold bind. rewrite Hc. simpl.
      by rewrite decide_False.
    + intros f msg w' Hin -> Hf. simpl consumeAll. unfold bind. rewrite Hc. simpl.
      rewrite decide_True by done. by rewrite Hf.
Qed.

(** C9. [ParseArgs] on an empty token list panics on the slice
    expression that drops the program name; on a list with at least one
    token it is [parse] on the remaining tokens, which does not
    panic. *)
Theorem ParseArgs_drops_first_token (cli : Command) (w : World) :
  ParseArgs cli [] w = (Panic "slice bounds out of range", w) /\
  forall t ts,
    ParseArgs cli (t :: ts) w = parse cli ts w /\
    forall msg w', ParseArgs cli (t :: ts) w <> (Panic msg, w').
Proof.
  split; [reflexivity|]. intros t ts.
  assert (ParseArgs cli (t :: ts) w = parse cli ts w) as Heq.
  { unfold ParseArgs, bind, lift, slice_from.
    destruct (decide (1 <= length (t :: ts))) as [_|Hn]; [|simpl in Hn; lia].
    change (drop 1 (t :: ts)) with ts.
    by destruct (parse cli ts w) as [[?|?|?] ?]. }
  split; [exact Heq|]. intros msg w'. rewrite Heq. apply parse_no_panic.
Qed.

(** C10. [parse] does not read the [required] mark of an argument or of
    a primary argument: on the tree with every mark cleared it gives
    the same outcome, for all tokens, and so does [ParseArgs].  With no
    token at all, on a command that does not miss a subcommand, the
    parse succeeds and each argument of the command, required or not,
    is mapped to its default if it has one and is absent if it has
    none. *)
Theorem required_is_not_enforced (cli : Command) (tokens : list string) (w : World) :
  parse (forget_required cli) tokens w = parse cli tokens w /\
  ParseArgs (forget_required cli) tokens w = ParseArgs cli tokens w /\
  (wf_command cli -> missesSubcommand cli = false ->
   exists r, parse cli [] w = (Ok r, w) /\
             forall k a, args cli !! k = Some a ->
                         Arguments r !! k = GetDefaultValue a).
Proof.
  split; [apply parse_forget|]. split.
  - unfold ParseArgs, bind.
    destruct (lift (slice_from 1 tokens) w) as [[rest|e|m] w1]; [|reflexivity..].
    apply parse_forget.
  - intros Hwf Hmiss.
    assert (consumeAll (initial cli) [] w = (Ok (initial cli), w)) as Hrun by done.
    destruct (parse_of_run _ _ _ _ _ Hrun) as (c & Hc & _ & Hok).
    simpl in Hc. simplify_eq.
    destruct (Hok Hmiss) as (ss' & r & Hparse & Hchain & Hlen & Hss').
    exists r. split; [done|]. intros k a Ha.
    specialize (Hss' 0 c newResult eq_refl eq_refl).
    destruct (chain_scope ss' r 0 _ Hchain Hss') as (ri & Hri & _ & HA & _).
    simpl in Hri. injection Hri as <-. rewrite HA.
    rewrite defaultsOf_Arguments.
    + simpl. rewrite lookup_empty, Ha. done.
    + destruct Hwf as [c _ _ Hargs _ _ _]. intros k' a' Ha'.
      by destruct (Hargs _ _ Ha').
Qed.

End Theory.

(** * The claims on the trees of the test suite *)

Section Instances.
Import Demo.

Lemma wf_force (o : option Command) :
  (forall c, o = Some c -> wf_command c) -> wf_command (force o).
Proof.
  intros Ho. destruct o as [c|]; simpl; [by apply Ho|apply wf_newCommand].
Qed.

Ltac wf_built :=
  repeat first
    [ apply wf_newCommand
    | apply wf_force; intros ? ?
    | progress unfold buildCmd, modCmd, initCmd
    | match goal with
      | H : _ ≫= _ = Some _ |- _ => apply bind_Some in H as (? & ? & ?)
      | H : AddFlag ?c0 ?f = Some ?c |- wf_command ?c =>
          apply (wf_AddFlag c0 c f); [|exact H]
      | H : addArg ?c0 ?a = Some ?c |- wf_command ?c =>
          apply (wf_addArg c0 c a); [|exact H]
      | H : AddSubcommand ?c0 ?s = Some ?c |- wf_command ?c =>
          apply (wf_AddSubcommand c0 s c); [| |exact H]
      | H : AddPrimaryArg ?c0 ?q = Some ?c |- wf_command ?c =>
          apply (wf_AddPrimaryArg c0 c q); [|exact H]
      end ].

Lemma wf_olive : wf_command olive.
Proof. unfold olive. wf_built. Qed.

Lemma wf_mixed : wf_command mixed.
Proof. unfold mixed. wf_built. Qed.

Lemma inv_stateOf (cli : Command) (tokens : list string) :
  inv (stateOf cli tokens).
Proof.
  unfold stateOf.
  destruct (consumeAll (initial cli) tokens []) as [[ap|e|m] w] eqn:Hrun;
    try apply inv_initial.
  by destruct (consumeAll_Ok _ _ _ _ _ (inv_initial cli) Hrun).
Qed.

Ltac decided := apply (bool_decide_unpack _); exact I.

Lemma legal_tokens_parse_witness :
  wf_command mixed /\
  Forall bare ["build"] /\
  descend mixed ["build"] = Some [buildCmd] /\
  (forall c, last [mixed; buildCmd] = Some c -> missesSubcommand c = false) /\
  Forall (declared [mixed; buildCmd]) [ItArg false "p" "fast"; ItFlag true "verbose"] /\
  NoDup (map (targetOf [mixed; buildCmd])
           [ItArg false "p" "fast"; ItFlag true "verbose"]) /\
  exists r w',
    parse mixed ["build"; "-p=fast"; "--verbose"] [] = (Ok r, w') /\
    (exists r0, scope r 0 = Some r0 /\ HasFlag r0 "verbose" = true) /\
    (exists r1, scope r 1 = Some r1 /\
                Arguments r1 !! "profile" = Some (VString "fast") /\
                Arguments r1 !! "output" = Some (VString "cool_path")).
Proof.
  assert (Forall bare ["build"]) as Hbare.
  { repeat constructor. }
  assert (descend mixed ["build"] = Some [buildCmd]) as Hdesc.
  { reflexivity. }
  assert (forall c, last [mixed; buildCmd] = Some c -> missesSubcommand c = false)
    as Hlast.
  { intros c [= <-]. reflexivity. }
  assert (accepts profileArg "fast" (VString "fast")) as Hacc.
  { intros w. exists w. reflexivity. }
  assert (Forall (declared [mixed; buildCmd])
            [ItArg false "p" "fast"; ItFlag true "verbose"]) as Hdecl.
  { repeat constructor; try discriminate.
    - exists 1, profileArg, (VString "fast"). split; [reflexivity|exact Hacc].
    - exists (0, verbose). reflexivity. }
  assert (NoDup (map (targetOf [mixed; buildCmd])
                   [ItArg false "p" "fast"; ItFlag true "verbose"])) as Hnd.
  { decided. }
  repeat (split; [assumption || exact wf_mixed|]).
  destruct (legal_tokens_parse mixed ["build"] [buildCmd]
              [ItArg false "p" "fast"; ItFlag true "verbose"] []
              wf_mixed Hbare Hdesc Hlast Hdecl Hnd)
    as (r & w' & Hparse & Hflags & Hargs & Hdefaults & _).
  exists r, w'. split; [exact Hparse|]. split.
  - destruct (Hflags true "verbose" 0 verbose) as (r0 & Hr0 & Hhas).
    { apply list_elem_of_In. right. left. reflexivity. }
    { apply resolve_innermost. reflexivity. }
    exists r0. exact (conj Hr0 Hhas).
  - destruct (Hargs false "p" "fast" 1 profileArg) as (r1 & v & Hr1 & Hv & Hacc').
    { apply list_elem_of_In. left. reflexivity. }
    { apply resolve_innermost. reflexivity. }
    destruct (Hdefaults 1 buildCmd "output" outputArg (VString "cool_path"))
      as (r1' & Hr1' & Hout); [reflexivity..| |].
    { decided. }
    rewrite Hr1 in Hr1'. injection Hr1' as <-.
    exists r1. split; [exact Hr1|]. split; [|exact Hout].
    destruct (Hacc' []) as [w1 Hcv]. injection Hcv as <- _. exact Hv.
Defined.

Lemma resolution_innermost_first_witness :
  strings.HasPrefix "-v" "-" = true /\
  extractComponents "-v" = ("v", "") /\
  innermost flagsByShortName (commandStack inBuild) "v" 0 verbose /\
  undeclared flags (commandStack inBuild) "v" /\
  consume inBuild "-v" = setFlag (set_allowSubcommands inBuild false) 0 verbose /\
  consume inBuild "--v" = fail (UnknownFlag "v").
Proof.
  assert (innermost flagsByShortName (commandStack inBuild) "v" 0 verbose) as Hin.
  { apply resolve_innermost. reflexivity. }
  assert (undeclared flags (commandStack inBuild) "v") as Hun.
  { apply resolve_undeclared. reflexivity. }
  split; [reflexivity|]. split; [reflexivity|]. split; [exact Hin|].
  split; [exact Hun|]. split.
  - destruct (resolution_innermost_first inBuild "-v" "v" "" eq_refl eq_refl)
      as [Hflag _].
    destruct (Hflag eq_refl) as [Hfound _]. exact (Hfound 0 verbose Hin).
  - destruct (resolution_innermost_first inBuild "--v" "v" "" eq_refl eq_refl)
      as [Hflag _].
    destruct (Hflag eq_refl) as [_ Hnone]. exact (Hnone Hun).
Defined.

Lemma double_dash_token_witness :
  strings.HasPrefix "--str=a=b" "--" = true /\
  extractComponents "--str=a=b" = ("str", "a=b") /\
  consume (initial olive) "--str=a=b"
  = setArg (set_allowSubcommands (initial olive) false) 0 strArg "a=b".
Proof.
  split; [reflexivity|].
  destruct (double_dash_token (initial olive) "--str=a=b" eq_refl)
    as (_ & _ & Hsplit).
  destruct (Hsplit "--str" "a=b" eq_refl eq_refl) as (Hparts & Harg & _).
  split; [exact Hparts|]. exact (Harg ltac:(discriminate)).
Defined.

(** C3, as the claim has it, fails: a token that holds ["="] with
    nothing after it is looked up as a flag, here an unknown one,
    although the name is that of a declared argument, which the lookup
    as an argument would have set. *)
Lemma double_dash_empty_value_counterexample :
  strings.HasPrefix "--str=" "--" = true /\
  strings.Contains "--str=" "=" = true /\
  extractComponents "--str=" = ("str", "") /\
  resolve args (commandStack (initial olive)) "str" 1 = Some (0, strArg) /\
  consume (initial olive) "--str=" [] = (Err (UnknownFlag "str"), []) /\
  consume (initial olive) "--str=" []
  <> setArg (set_allowSubcommands (initial olive) false) 0 strArg "" [].
Proof.
  split; [reflexivity|]. split; [reflexivity|]. split; [reflexivity|].
  split; [reflexivity|]. split; [reflexivity|].
  intros Heq. apply (f_equal fst) in Heq. discriminate Heq.
Qed.

Lemma subcommands_form_a_prefix_witness :
  inv afterFlag /\
  allowSubcommands afterFlag = false /\ bare "mod" /\
  last (commandStack afterFlag) = Some mixed /\ primaryArg mixed = None /\
  consume afterFlag "mod" [] = (Err (UnknownSubcommand "mod"), []).
Proof.
  split; [apply inv_stateOf|]. split; [reflexivity|]. split; [reflexivity|].
  split; [reflexivity|]. split; [reflexivity|].
  destruct (subcommands_form_a_prefix afterFlag (inv_stateOf mixed ["-v"]))
    as (_ & _ & _ & Hlate).
  exact (Hlate "mod" mixed [] eq_refl eq_refl eq_refl eq_refl).
Defined.

Lemma primary_argument_once_witness :
  inv inBuild /\ bare "package" /\
  last (commandStack inBuild) = Some buildCmd /\ primaryArg buildCmd <> None /\
  o_primaryArg <$> last (semanticStack inBuild) = Some "" /\
  exists ap',
    consume inBuild "package" [] = (Ok ap', []) /\
    consume ap' "other" [] = (Err (MultiplePrimaryArguments "build"), []).
Proof.
  assert (primaryArg buildCmd <> None) as Hp by discriminate.
  split; [apply inv_stateOf|]. split; [reflexivity|]. split; [reflexivity|].
  split; [exact Hp|].
  destruct (primary_argument_once (stateOf mixed []) (inv_stateOf mixed []))
    as (_ & Hfresh & _).
  split; [exact (Hfresh "build" [] inBuild [] eq_refl ltac:(discriminate))|].
  destruct (primary_argument_once inBuild (inv_stateOf mixed ["build"]))
    as (_ & _ & _ & Hbare & _).
  destruct (Hbare "package" buildCmd eq_refl eq_refl Hp)
    as (r & Hr & Hfirst & _ & Hnext).
  injection Hr as <-.
  eexists. split; [exact (Hfirst [] eq_refl)|].
  destruct (Hnext [] _ [] "other" ltac:(discriminate) (Hfirst [] eq_refl) eq_refl)
    as (r' & _ & _ & Hfail).
  exact Hfail.
Defined.

Lemma set_at_most_once_witness :
  inv (initial olive) /\ wf_command olive /\
  flags olive !! "flag2" = Some flag2 /\
  plainName "flag2" /\ plainName "f2" /\
  consumeAll (initial olive) ["--flag2"; "-f2"] []
  = (Err (FlagSetMultipleTimes "flag2"), ["ran action"]).
Proof.
  assert (plainName "flag2") as Hn by (split; reflexivity).
  assert (plainName "f2") as Hs by (split; reflexivity).
  split; [apply inv_initial|]. split; [exact wf_olive|].
  split; [reflexivity|]. split; [exact Hn|]. split; [exact Hs|].
  destruct (set_at_most_once (initial olive) (inv_initial olive))
    as (_ & _ & _ & Hforms).
  destruct (Hforms olive flag2 newResult [] wf_olive eq_refl eq_refl Hn Hs eq_refl)
    as [Hlong_short _].
  { apply not_elem_of_empty. }
  exact Hlong_short.
Defined.

Lemma requires_subcommand_on_last_frame_witness :
  parse mixed ["mod"] [] = (Err (RequiresASubcommand "mod"), []) /\
  exists r, parse mixed ["mod"; "init"] [] = (Ok r, []).
Proof.
  destruct (requires_subcommand_on_last_frame mixed ["mod"] [] [])
    as [_ Hmod].
  destruct (requires_subcommand_on_last_frame mixed ["mod"; "init"] [] [])
    as [_ Hinit].
  split.
  - destruct (Hmod inMod modCmd eq_refl eq_refl) as [Hfail _].
    apply Hfail. split; [|reflexivity]. apply (bool_decide_unpack _). exact I.
  - destruct (Hinit (stateOf mixed ["mod"; "init"]) initCmd eq_refl eq_refl)
      as [_ Hok].
    apply Hok. intros [Hsize _]. revert Hsize. apply (bool_decide_unpack _).
    exact I.
Defined.

Lemma selector_membership_first_witness :
  ("val3" ∉ ({["val1"; "val2"; "badVal"]} : gset string)) /\
  checkValue selArg "val3" [] = (Err (NotAValidValue "val3" "sel"), []) /\
  checkValue selArg "badVal" [] = (Err (CallerError "bad val"), ["validated sel"]).
Proof.
  assert ("val3" ∉ ({["val1"; "val2"; "badVal"]} : gset string)) as Hout.
  { apply (bool_decide_unpack _). exact I. }
  assert ("badVal" ∈ ({["val1"; "val2"; "badVal"]} : gset string)) as Hin.
  { apply (bool_decide_unpack _). exact I. }
  destruct (selector_membership_first
              (mkArgumentBase "sel" "se" "" false (Some (VString "val1")))
              {["val1"; "val2"; "badVal"]} "val3") as (Hreject & _ & _).
  destruct (selector_membership_first
              (mkArgumentBase "sel" "se" "" false (Some (VString "val1")))
              {["val1"; "val2"; "badVal"]} "badVal") as (_ & Hvalidate & _).
  split; [exact Hout|]. split.
  - exact (Hreject Hout (Some notBadVal) []).
  - destruct (Hvalidate Hin) as [_ Hrun]. exact (Hrun notBadVal []).
Defined.

Lemma ParseArgs_drops_first_token_witness :
  ParseArgs olive [] [] = (Panic "slice bounds out of range", []) /\
  ParseArgs olive ["olive"; "-i=2"] [] = parse olive ["-i=2"] [].
Proof.
  destruct (ParseArgs_drops_first_token olive []) as [Hempty Hrest].
  split; [exact Hempty|]. exact (proj1 (Hrest "olive" ["-i=2"])).
Defined.

Lemma required_is_not_enforced_witness :
  wf_command olive /\ missesSubcommand olive = false /\
  Argument_Required strArg = true /\ Argument_Required intArg = true /\
  exists r, parse olive [] [] = (Ok r, []) /\
            Arguments r !! "str" = None /\
            Arguments r !! "int" = Some (VInt 0).
Proof.
  split; [exact wf_olive|]. split; [reflexivity|].
  split; [reflexivity|]. split; [reflexivity|].
  destruct (required_is_not_enforced olive [] []) as (_ & _ & Homit).
  destruct (Homit wf_olive eq_refl) as (r & Hparse & Hargs).
  exists r. split; [exact Hparse|]. split.
  - exact (Hargs "str" strArg eq_refl).
  - exact (Hargs "int" intArg eq_refl).
Defined.

(** An empty bare word is stored like any other; the scope then still
    has no primary argument, and the next bare word is accepted. *)
Example empty_primary_argument :
  bare "" /\ bare "b" /\
  last (commandStack inBuild) = Some buildCmd /\ primaryArg buildCmd <> None /\
  exists ap' ap'',
    consume inBuild "" [] = (Ok ap', []) /\
    o_primaryArg <$> last (semanticStack ap') = Some "" /\
    consume ap' "b" [] = (Ok ap'', []) /\
    o_primaryArg <$> last (semanticStack ap'') = Some "b" /\
    observe (parse mixed ["build"; ""; "b"] [])
    = (Ok [([], [], "build", "");
           ([], [("output", VString "cool_path")], "", "b")], []).
Proof.
  split; [reflexivity|]. split; [reflexivity|]. split; [reflexivity|].
  split; [discriminate|].
  eexists _, _. split; [reflexivity|]. split; [reflexivity|].
  split; [reflexivity|]. split; reflexivity.
Qed.

(** ** The examples of the specification and of the test suite *)

Example int_argument_given :
  observe (ParseArgs olive ["olive"; "-i=2"] [])
  = (Ok [([], [("sel", VString "val1"); ("int", VInt 2)], "", "")],
     ["validated int"]).
Proof. reflexivity. Qed.

Example int_argument_odd :
  observe (ParseArgs olive ["olive"; "-i=5"] [])
  = (Err (CallerError "must be even"), ["validated int"]).
Proof. reflexivity. Qed.

Example int_argument_default_zero :
  IntArgument_SetDefaultValue (mkArgumentBase "int" "i" "" true None)
    (Some mustBeEven) 0 []
  = (Ok intArg, ["validated int"]) /\
  GetDefaultValue intArg = Some (VInt 0) /\
  observe (ParseArgs olive ["olive"] [])
  = (Ok [([], [("sel", VString "val1"); ("int", VInt 0)], "", "")], []).
Proof. repeat split; reflexivity. Qed.

Example selector_unknown_value :
  observe (ParseArgs olive ["olive"; "--sel=val3"] [])
  = (Err (NotAValidValue "val3" "sel"), []).
Proof. reflexivity. Qed.

Example flag_by_both_names :
  observe (ParseArgs olive ["olive"; "-f1"; "--flag1"] [])
  = (Err (FlagSetMultipleTimes "flag1"), []).
Proof. reflexivity. Qed.

Example build_with_output :
  observe (ParseArgs mixed ["olive"; "build"; "-o=other_path"; "package"] [])
  = (Ok [([], [], "build", "");
         ([], [("output", VString "other_path")], "", "package")], []).
Proof. reflexivity. Qed.

Example mod_init :
  observe (ParseArgs mixed ["olive"; "mod"; "init"; "-v"; "pog"] [])
  = (Ok [(["verbose"], [], "mod", ""); ([], [], "init", ""); ([], [], "", "pog")],
     []).
Proof. reflexivity. Qed.

Example missing_subcommand :
  observe (ParseArgs mixed ["olive"] []) = (Err (RequiresASubcommand "olive"), []) /\
  observe (ParseArgs optional ["olive"] []) = (Ok [([], [], "", "")], []).
Proof. split; reflexivity. Qed.

Example subcommand_after_flag :
  observe (ParseArgs mixed ["olive"; "-v"; "mod"] [])
  = (Err (UnknownSubcommand "mod"), []).
Proof. reflexivity. Qed.

Example two_primary_arguments :
  observe (ParseArgs mixed ["olive"; "build"; "a"; "b"] [])
  = (Err (MultiplePrimaryArguments "build"), []).
Proof. reflexivity. Qed.

End Instances.

(** * More of the parser and of the builder *)

Section MoreTheory.
Context `{Host}.

(** ** The ways a token is accepted *)

Lemma step_consume (ap ap' : argParser) (arg : string) (w w' : World) :
  step ap arg w ap' w' -> consume ap arg w = (Ok ap', w').
Proof.
  intros Hs. destruct Hs as [nm i f r Hd He Hr Hi Hnot
                            |nm val i a r v w' Hd He Hv Hr Hi Hnone Hcv
                            |c r Hb Hc Hp Hl Hempty
                            |c subc r Hb Hallow Hc Hp Hsub Hl].
  - rewrite (consume_flag ap arg nm i f r w Hd He Hr Hi).
    by rewrite decide_False.
  - rewrite (consume_arg ap arg nm val i a r w Hd He Hv Hr Hi).
    by rewrite Hnone, Hcv.
  - rewrite (consume_bare ap arg c r w Hb); [|by apply top_lookup..].
    destruct (primaryArg c); [|done]. by rewrite decide_True.
  - rewrite (consume_bare ap arg c r w Hb); [|by apply top_lookup..].
    by rewrite Hp, Hallow, Hsub.
Qed.

Lemma consume_inv_step (ap ap' : argParser) (arg : string) (w w' : World) :
  inv ap -> consume ap arg w = (Ok ap', w') -> step ap arg w ap' w'.
Proof.
  intros Hinv Hc. pose proof Hinv as (Hne & Hlen & Hl).
  destruct (strings.HasPrefix arg "-") eqn:Hd.
  - destruct (extractComponents arg) as [nm val] eqn:He.
    destruct (decide (val = "")) as [->|Hv].
    + destruct (resolve (flagTable (strings.HasPrefix arg "--")) (commandStack ap)
                  nm (length (commandStack ap))) as [[i f]|] eqn:Hr.
      * destruct (lookup_lt_is_Some_2 (semanticStack ap) i) as [r Hi].
        { rewrite Hlen. by eapply resolve_lt. }
        rewrite (consume_flag ap arg nm i f r w Hd He Hr Hi) in Hc.
        destruct (decide (flag_name f ∈ o_flags r)) as [|Hnot]; [done|].
        injection Hc as <- <-. by eapply step_flag.
      * rewrite (consume_dashed ap arg nm "" _ He eq_refl Hd) in Hc.
        rewrite decide_True in Hc by done. by rewrite Hr in Hc.
    + destruct (resolve (argTable (strings.HasPrefix arg "--")) (commandStack ap)
                  nm (length (commandStack ap))) as [[i a]|] eqn:Hr.
      * destruct (lookup_lt_is_Some_2 (semanticStack ap) i) as [r Hi].
        { rewrite Hlen. by eapply resolve_lt. }
        rewrite (consume_arg ap arg nm val i a r w Hd He Hv Hr Hi) in Hc.
        destruct (o_Arguments r !! Argument_Name a) eqn:Hnone; [done|].
        destruct (checkValue a val w) as [[v|e|msg] w1] eqn:Hcv; [|done..].
        injection Hc as <- <-. by eapply step_arg.
      * rewrite (consume_dashed ap arg nm val _ He eq_refl Hd) in Hc.
        rewrite decide_False in Hc by done. by rewrite Hr in Hc.
  - destruct (inv_top ap Hinv) as (c & r & Hcc & Hlast & Hcr & Hri & _).
    assert (last (semanticStack ap) = Some r) as Hlr.
    { by rewrite last_lookup, <- Nat.sub_1_r. }
    rewrite (consume_bare ap arg c r w Hd Hcc Hcr) in Hc.
    destruct (primaryArg c) as [p|] eqn:Hp.
    + destruct (decide (o_primaryArg r = "")) as [Hempty|]; [|done].
      injection Hc as <- <-. eapply step_primary; eauto. by rewrite Hp.
    + destruct (allowSubcommands ap) eqn:Hallow; [|done].
      destruct (subcommands c !! arg) as [subc|] eqn:Hsub; [|done].
      injection Hc as <- <-. by eapply step_subcommand.
Qed.

(** A property that every accepted token preserves holds after a run. *)
Lemma consumeAll_steps (P : argParser -> Prop) :
  (forall ap ap' arg w w', inv ap -> P ap -> step ap arg w ap' w' -> P ap') ->
  forall tokens ap w ap' w',
    inv ap -> P ap -> consumeAll ap tokens w = (Ok ap', w') -> P ap'.
Proof.
  intros Hstep tokens. induction tokens as [|t rest IH]; intros ap w ap' w' Hinv HP Hrun.
  - simpl in Hrun. unfold ret in Hrun. by injection Hrun as <- _.
  - simpl in Hrun. apply bind_inv_Ok in Hrun as (ap1 & w1 & Hc & Hrest).
    destruct (consume_Ok _ _ _ _ _ Hinv Hc) as (Hinv1 & _).
    apply (IH ap1 w1 ap' w' Hinv1); [|exact Hrest].
    apply (Hstep ap ap1 t w w1 Hinv HP). by apply consume_inv_step.
Qed.

(** ** What the accepted tokens keep true of the parser state *)










Lemma step_named (ap ap' : argParser) (arg : string) (w w' : World) :
  inv ap -> named ap -> step ap arg w ap' w' -> named ap'.
Proof.
  intros (Hne & Hlen & Hl) Hn Hstep.
  destruct Hstep as [nm i f r Hd He Hr Hi Hnot
                    |nm val i a r v w' Hd He Hv Hr Hi Hnone Hcv
                    |c r Hb Hc Hp Hlr Hempty
                    |c subc r Hb Hallow Hc Hp Hsub Hlr];
    intros j o Hj; simpl in *.
  - destruct (decide (j = i)) as [->|Hji].
    + rewrite list_lookup_insert_eq in Hj by (by eapply lookup_lt_Some).
      injection Hj as <-. simpl. by apply Hn.
    + rewrite list_lookup_insert_ne in Hj by done. by apply Hn.
  - destruct (decide (j = i)) as [->|Hji].
    + rewrite list_lookup_insert_eq in Hj by (by eapply lookup_lt_Some).
      injection Hj as <-. simpl. by apply Hn.
    + rewrite list_lookup_insert_ne in Hj by done. by apply Hn.
  - rewrite last_lookup, <- Nat.sub_1_r in Hlr.
    destruct (decide (j = length (semanticStack ap) - 1)) as [->|Hji].
    + rewrite list_lookup_insert_eq in Hj by (by eapply lookup_lt_Some).
      injection Hj as <-. simpl. by apply Hn.
    + rewrite list_lookup_insert_ne in Hj by done. by apply Hn.
  - rewrite last_lookup, <- Nat.sub_1_r in Hlr.
    assert (0 < length (commandStack ap)) as Hpos.
    { destruct (commandStack ap); simpl; [done|lia]. }
    destruct (decide (j < length (commandStack ap))) as [Hlt|Hge].
    + rewrite lookup_app_l in Hj by (rewrite length_insert; lia).
      destruct (decide (j = length (semanticStack ap) - 1)) as [->|Hji].
      * rewrite list_lookup_insert_eq in Hj by (by eapply lookup_lt_Some).
        injection Hj as <-. simpl.
        rewrite lookup_app_r by lia.
        by replace (S (length (semanticStack ap) - 1) - length (commandStack ap))
          with 0 by lia.
      * rewrite list_lookup_insert_ne in Hj by done.
        rewrite lookup_app_l by lia. by apply Hn.
    + rewrite lookup_app_r in Hj by (rewrite length_insert; lia).
      rewrite length_insert, Hlen in Hj.
      destruct (j - length (commandStack ap)) as [|n] eqn:Hn'; [|done].
      injection Hj as <-. simpl.
      rewrite lookup_ge_None_2; [done|]. rewrite length_app. simpl. lia.
Qed.

Lemma named_initial (cli : Command) : named (initial cli).
Proof. intros [|i] o Ho; [|done]. by injection Ho as <-. Qed.

Lemma consumeAll_entered (tokens : list string) :
  forall (ap ap' : argParser) (c : Command) (w w' : World),
    inv ap -> last (commandStack ap) = Some c ->
    consumeAll ap tokens w = (Ok ap', w') ->
    commandStack ap'
    = commandStack ap ++ (if allowSubcommands ap then entered c tokens else []).
Proof.
  induction tokens as [|t rest IH]; intros ap ap' c w w' Hinv Hc Hrun.
  - simpl in Hrun. unfold ret in Hrun. injection Hrun as <- _.
    simpl. destruct (allowSubcommands ap); by rewrite app_nil_r.
  - simpl in Hrun. apply bind_inv_Ok in Hrun as (ap1 & w1 & Hc1 & Hrest).
    destruct (consume_Ok _ _ _ _ _ Hinv Hc1)
      as (Hinv1 & _ & [[Hsame Hoff]|(Hb & Hon & Hon1 & _ & c0 & subc & Hc0 & Hp & Hsub & Hpush)]).
    + destruct (consumeAll_frozen _ _ _ _ _ Hinv1 Hoff Hrest) as [-> _].
      rewrite Hsame. apply consume_inv_step in Hc1; [|done].
      destruct (allowSubcommands ap) eqn:Hallow; [|by rewrite app_nil_r]. cbn [entered].
      destruct Hc1 as [nm i f r Hd He Hr Hi Hnot
                      |nm val i a r v w1 Hd He Hv Hr Hi Hnone Hcv
                      |c1 r Hb Hc1 Hp Hlr Hempty
                      |c1 subc r Hb Hallow' Hc1 Hp Hsub Hlr].
      * by rewrite Hd, app_nil_r.
      * by rewrite Hd, app_nil_r.
      * rewrite Hb. assert (c1 = c) as -> by congruence.
        destruct (primaryArg c); [|done]. by rewrite app_nil_r.
      * simpl in Hsame. apply (f_equal length) in Hsame.
        rewrite length_app in Hsame. simpl in Hsame. lia.
    + assert (c0 = c) as -> by congruence.
      rewrite (IH ap1 ap' subc w1 w'); [|done| |done].
      * rewrite Hpush, Hon, Hon1. cbn [entered]. rewrite Hb, Hp, Hsub.
        by rewrite <- app_assoc.
      * by rewrite Hpush, last_snoc.
Qed.

Lemma entered_wf (tokens : list string) :
  forall c, wf_command c ->
    Forall wf_command (entered c tokens) /\
    Name <$> entered c tokens = take (length (entered c tokens)) tokens.
Proof.
  induction tokens as [|t rest IH]; intros c Hwf; cbn [entered]; [done|].
  destruct (strings.HasPrefix t "-"); [done|].
  destruct (primaryArg c); [done|].
  destruct (subcommands c !! t) as [subc|] eqn:Hsub; [|done].
  inversion Hwf as [? _ _ _ _ _ Hsubs]; subst.
  destruct (Hsubs t subc Hsub) as [Hname Hwf']. destruct (IH subc Hwf') as [HF Hn].
  split; [by constructor|]. rewrite fmap_cons, Hname, Hn. done.
Qed.


Lemma entered_descend (tokens : list string) :
  forall c, Forall bare (take (length (entered c tokens)) tokens) /\
            descend c (take (length (entered c tokens)) tokens)
            = Some (entered c tokens).
Proof.
  induction tokens as [|t rest IH]; intros c; cbn [entered]; [done|].
  destruct (strings.HasPrefix t "-") eqn:Hd; [done|].
  destruct (primaryArg c); [done|].
  destruct (subcommands c !! t) as [subc|] eqn:Hsub; [|done].
  simpl. destruct (IH subc) as [HF Hdesc]. split; [by constructor|].
  by rewrite Hsub, Hdesc.
Qed.

(** ** Reading the result *)

Lemma chain_drop (ss : list resultObj) (apr : ArgParseResult) (i : nat) :
  chain ss = Some apr -> scope apr i = chain (drop i ss).
Proof.
  revert apr i. induction ss as [|o ss IH]; intros apr i Hch; [done|].
  destruct i as [|i]; [by rewrite drop_0|].
  simpl in Hch. injection Hch as <-. simpl.
  destruct (chain ss) as [child|] eqn:Hc; [by apply IH|].
  destruct ss; [|done]. by rewrite drop_nil.
Qed.

Lemma chain_Some (l : list resultObj) (ri : ArgParseResult) :
  chain l = Some ri ->
  exists o rest, l = o :: rest /\
    ri = mkArgParseResult (o_flags o) (o_Arguments o) (o_subcommandName o)
           (chain rest) (o_primaryArg o).
Proof. destruct l as [|o rest]; [done|]. simpl. intros [= <-]. by eexists _, _. Qed.

Lemma scope_chain (ss : list resultObj) (apr ri : ArgParseResult) (i : nat) :
  chain ss = Some apr -> scope apr i = Some ri ->
  exists o, ss !! i = Some o /\
            r_flags ri = o_flags o /\ Arguments ri = o_Arguments o /\
            subcommandName ri = o_subcommandName o /\
            r_primaryArg ri = o_primaryArg o /\
            subcommandRes ri = scope apr (S i).
Proof.
  intros Hch Hs. rewrite (chain_drop ss apr i Hch) in Hs.
  apply chain_Some in Hs as (o & rest & Hd & ->).
  exists o. split.
  { rewrite <- (take_drop i ss), Hd.
    destruct (decide (i < length ss)) as [Hlt|Hge].
    - rewrite lookup_app_r by (rewrite length_take; lia).
      rewrite length_take. by replace (i - i `min` length ss) with 0 by lia.
    - rewrite drop_ge in Hd by lia. done. }
  repeat split. cbn [subcommandRes].
  rewrite (chain_drop ss apr (S i) Hch). f_equal.
  replace (S i) with (i + 1) by lia. by rewrite <- drop_drop, Hd.
Qed.

(** A parse that returns a result went through all tokens and ended on
    a command that does not miss a subcommand; the result is read from
    the objects after the default pass. *)
Lemma parse_Ok_run (cli : Command) (tokens : list string) (w w' : World)
    (r : ArgParseResult) :
  parse cli tokens w = (Ok r, w') ->
  exists ap ss',
    consumeAll (initial cli) tokens w = (Ok ap, w') /\ inv ap /\
    chain ss' = Some r /\ length ss' = length (semanticStack ap) /\
    forall j c r, commandStack ap !! j = Some c ->
                  semanticStack ap !! j = Some r ->
                  ss' !! j = Some (defaultsOf c r).
Proof.
  intros Hp.
  destruct (consumeAll (initial cli) tokens w) as [[ap|e|msg] w1] eqn:Hrun.
  - destruct (parse_of_run cli tokens w w1 ap Hrun) as (c & Hc & Hmiss & Hok).
    destruct (missesSubcommand c) eqn:Hm.
    + rewrite Hmiss in Hp by done. done.
    + destruct (Hok eq_refl) as (ss' & r' & Hp' & Hch & Hlen & Hss).
      rewrite Hp' in Hp. injection Hp as -> ->.
      exists ap, ss'. split; [done|]. split; [|done].
      by eapply consumeAll_Ok; [apply inv_initial|].
  - rewrite (parse_of_failed_run cli tokens w w1 e Hrun) in Hp. done.
  - by apply consumeAll_no_panic in Hrun; [|apply inv_initial].
Qed.



(** The scopes of a returned result, one per command of the stack that
    the run ended with: each is the object of that command after the
    default pass. *)
Lemma parse_scopes (cli : Command) (tokens : list string) (w w' : World)
    (r : ArgParseResult) :
  parse cli tokens w = (Ok r, w') ->
  exists ap,
    consumeAll (initial cli) tokens w = (Ok ap, w') /\ inv ap /\
    commandStack ap = cli :: entered cli tokens /\
    (forall i ri, scope r i = Some ri ->
       exists c o, commandStack ap !! i = Some c /\ semanticStack ap !! i = Some o /\
         r_flags ri = o_flags o /\ Arguments ri = o_Arguments (defaultsOf c o) /\
         subcommandName ri = o_subcommandName o /\
         r_primaryArg ri = o_primaryArg o /\
         subcommandRes ri = scope r (S i)) /\
    (forall i, i < length (commandStack ap) -> is_Some (scope r i)).
Proof.
  intros Hp. apply parse_Ok_run in Hp as (ap & ss' & Hrun & Hinv & Hch & Hlen & Hss).
  exists ap. split; [done|]. split; [done|]. split.
  { by rewrite (consumeAll_entered tokens (initial cli) ap cli w w'
                  (inv_initial cli) eq_refl Hrun). }
  pose proof Hinv as (_ & Hlen' & _). split.
  - intros i ri Hs.
    destruct (scope_chain ss' r ri i Hch Hs) as (o' & Hi & Hfl & Har & Hnm & Hpa & Hres).
    destruct (lookup_lt_is_Some_2 (commandStack ap) i) as [c Hc].
    { rewrite <- Hlen', <- Hlen. by eapply lookup_lt_Some. }
    destruct (lookup_lt_is_Some_2 (semanticStack ap) i) as [o Ho].
    { rewrite <- Hlen. by eapply lookup_lt_Some. }
    rewrite (Hss i c o Hc Ho) in Hi. injection Hi as <-.
    destruct (defaultsOf_fields c o) as (Hf1 & Hf2 & _ & Hf4).
    exists c, o. rewrite Hfl, Har, Hnm, Hpa, Hf1, Hf2, Hf4. done.
  - intros i Hi.
    destruct (lookup_lt_is_Some_2 ss' i) as [o Ho]; [lia|].
    destruct (chain_scope ss' r i o Hch Ho) as (ri & Hs & _). by exists ri.
Qed.

Lemma stack_wf (cli : Command) (tokens : list string) (i : nat) (c : Command) :
  wf_command cli -> (cli :: entered cli tokens) !! i = Some c -> wf_command c.
Proof.
  intros Hwf Hi. destruct i as [|i]; [by injection Hi as <-|].
  destruct (entered_wf tokens cli Hwf) as [HF _].
  by eapply Forall_lookup_1 in HF.
Qed.



(** * Further properties of the parser *)

(** X1.  On a parser state that satisfies the invariant, [consume]
    accepts a token in exactly four ways: the token sets a declared flag
    that is not yet set, it sets a declared argument that has no value
    yet to a value that [checkValue] returns, it is stored as the
    primary argument of the current command, which had none, or it
    enters a subcommand of the current command. *)
Theorem accepted_tokens (ap ap' : argParser) (arg : string) (w w' : World) :
  inv ap ->
  consume ap arg w = (Ok ap', w') <-> step ap arg w ap' w'.
Proof.
  intros Hinv. split; [by apply consume_inv_step|apply step_consume].
Qed.


(** X3.  The result mirrors the subcommands that the tokens entered:
    it has exactly one scope more than there are entered subcommands,
    [Subcommand] returns at every scope but the last the name of the
    next entered command together with its result, and at the last
    scope no subcommand and the empty name.  On a tree as the builder
    makes it the names are the leading tokens themselves. *)
Theorem result_mirrors_subcommand_path (cli : Command) (tokens : list string)
    (w w' : World) (r : ArgParseResult) :
  parse cli tokens w = (Ok r, w') ->
  (forall i, is_Some (scope r i) <-> i <= length (entered cli tokens)) /\
  (forall i ri, scope r i = Some ri ->
     Subcommand ri = match entered cli tokens !! i with
                     | Some c => (Name c, scope r (S i), true)
                     | None => ("", None, false)
                     end) /\
  (wf_command cli ->
     Name <$> entered cli tokens = take (length (entered cli tokens)) tokens).
Proof.
  intros Hp.
  destruct (parse_scopes cli tokens w w' r Hp) as (ap & Hrun & Hinv & Hst & Hsc & Hex).
  assert (named ap) as Hnamed.
  { apply (consumeAll_steps named step_named tokens (initial cli) w ap w');
      [apply inv_initial|apply named_initial|done]. }
  assert (forall i, is_Some (scope r i) <-> i <= length (entered cli tokens)) as Hiff.
  { intros i. split.
    - intros [ri Hs]. destruct (Hsc i ri Hs) as (c & _ & Hc & _).
      apply lookup_lt_Some in Hc. rewrite Hst in Hc. simpl in Hc. lia.
    - intros Hi. apply Hex. rewrite Hst. simpl. lia. }
  split; [exact Hiff|]. split; [|intros Hwf; by apply entered_wf].
  intros i ri Hs.
  destruct (Hsc i ri Hs) as (c & o & Hc & Ho & _ & _ & Hnm & _ & Hres).
  unfold Subcommand. rewrite Hnm, Hres, (Hnamed i o Ho), Hst.
  cbn [lookup list_lookup]. 
  destruct (entered cli tokens !! i) as [ci|] eqn:Hci.
  - destruct (proj2 (Hiff (S i))) as [rn Hrn].
    { apply lookup_lt_Some in Hci. lia. }
    by rewrite Hrn.
  - destruct (scope r (S i)) as [rn|] eqn:Hrn; [|done].
    assert (S i <= length (entered cli tokens)) as Hle by (by apply Hiff).
    apply lookup_ge_None_1 in Hci. lia.
Qed.


(** X5.  The default pass fills the gaps and nothing else: in the
    result of a parse, the arguments of a scope are those that the
    tokens set, with the values the tokens gave them, and, for every
    argument of the scope's command that no token set and that has a
    default, that default.  An argument without a default that no token
    set is absent. *)
Theorem defaults_fill_the_gaps (cli : Command) (tokens : list string)
    (w w' : World) (ap : argParser) (r : ArgParseResult) :
  wf_command cli ->
  consumeAll (initial cli) tokens w = (Ok ap, w') ->
  parse cli tokens w = (Ok r, w') ->
  forall i c o, commandStack ap !! i = Some c -> semanticStack ap !! i = Some o ->
    exists ri, scope r i = Some ri /\
      forall k, Arguments ri !! k
                = match o_Arguments o !! k with
                  | Some v => Some v
                  | None => args c !! k ≫= GetDefaultValue
                  end.
Proof.
  intros Hwf Hrun Hp i c o Hc Ho.
  destruct (parse_scopes cli tokens w w' r Hp) as (ap1 & Hrun1 & Hinv & Hst & Hsc & Hex).
  assert (ap1 = ap) as -> by congruence.
  destruct (Hex i) as [ri Hs]; [by eapply lookup_lt_Some|].
  destruct (Hsc i ri Hs) as (c1 & o1 & Hc1 & Ho1 & _ & Har & _).
  assert (c1 = c) as -> by congruence. assert (o1 = o) as -> by congruence.
  exists ri. split; [done|]. intros k. rewrite Har.
  apply defaultsOf_Arguments. rewrite Hst in Hc.
  pose proof (stack_wf cli tokens i c Hwf Hc) as Hwfc.
  inversion Hwfc as [? _ _ Ha _ _ _]; subst. intros k' a Hk'. by destruct (Ha k' a Hk').
Qed.

(** ** What a run keeps, and where it fails *)

Lemma grows_refl (ap : argParser) : grows ap ap.
Proof. intros i o Ho. by exists o. Qed.

Lemma grows_trans (ap1 ap2 ap3 : argParser) :
  grows ap1 ap2 -> grows ap2 ap3 -> grows ap1 ap3.
Proof.
  intros H12 H23 i o Ho.
  destruct (H12 i o Ho) as (o2 & Ho2 & Hf2 & Ha2 & Hp2).
  destruct (H23 i o2 Ho2) as (o3 & Ho3 & Hf3 & Ha3 & Hp3).
  exists o3. split; [done|]. split; [by etrans|]. split; [by etrans|].
  intros Hne. rewrite <- (Hp2 Hne). apply Hp3. by rewrite (Hp2 Hne).
Qed.

Lemma grows_insert (ap ap' : argParser) (i : nat) (r r' : resultObj) :
  semanticStack ap !! i = Some r ->
  semanticStack ap' = <[i := r']> (semanticStack ap) ->
  o_flags r ⊆ o_flags r' -> o_Arguments r ⊆ o_Arguments r' ->
  (o_primaryArg r <> "" -> o_primaryArg r' = o_primaryArg r) ->
  grows ap ap'.
Proof.
  intros Hi Heq Hf Ha Hp j o Hj. rewrite Heq.
  destruct (decide (j = i)) as [->|Hne].
  - exists r'. rewrite list_lookup_insert_eq by (by eapply lookup_lt_Some).
    by simplify_eq.
  - exists o. by rewrite list_lookup_insert_ne.
Qed.

Lemma step_grows (ap ap' : argParser) (arg : string) (w w' : World) :
  step ap arg w ap' w' -> grows ap ap'.
Proof.
  intros Hstep.
  destruct Hstep as [nm i f r Hd He Hr Hi Hnot
                    |nm val i a r v w' Hd He Hv Hr Hi Hnone Hcv
                    |c r Hb Hc Hp Hlr Hempty
                    |c subc r Hb Hallow Hc Hp Hsub Hlr].
  - apply (grows_insert _ _ i r (addFlag r (flag_name f))); simpl; try done.
    apply union_subseteq_r.
  - apply (grows_insert _ _ i r (setArgument r (Argument_Name a) v)); simpl; try done.
    by apply insert_subseteq.
  - rewrite last_lookup, <- Nat.sub_1_r in Hlr.
    by apply (grows_insert _ _ (length (semanticStack ap) - 1) r
                (setPrimaryArg r arg)).
  - rewrite last_lookup, <- Nat.sub_1_r in Hlr.
    intros j o Hj. simpl. pose proof (lookup_lt_Some _ _ _ Hj) as Hlt.
    rewrite lookup_app_l by (by rewrite length_insert).
    destruct (decide (j = length (semanticStack ap) - 1)) as [->|Hne].
    + rewrite list_lookup_insert_eq by done. simplify_eq. by eexists.
    + rewrite list_lookup_insert_ne by done. by exists o.
Qed.

Lemma consumeAll_grows (tokens : list string) :
  forall (ap ap' : argParser) (w w' : World),
    inv ap -> consumeAll ap tokens w = (Ok ap', w') -> grows ap ap'.
Proof.
  induction tokens as [|t rest IH]; intros ap ap' w w' Hinv Hrun.
  - simpl in Hrun. unfold ret in Hrun. injection Hrun as <- _. apply grows_refl.
  - simpl in Hrun. apply bind_inv_Ok in Hrun as (ap1 & w1 & Hc & Hrest).
    destruct (consume_Ok _ _ _ _ _ Hinv Hc) as (Hinv1 & _).
    apply (grows_trans ap ap1 ap').
    + eapply step_grows. by apply consume_inv_step.
    + by eapply IH.
Qed.

Lemma defaultsOf_keeps (c : Command) (r : resultObj) :
  o_Arguments r ⊆ o_Arguments (defaultsOf c r).
Proof.
  unfold defaultsOf.
  apply (map_fold_weak_ind
           (fun (r' : resultObj) (_ : gmap string Argument) =>
              o_Arguments r ⊆ o_Arguments r')); [done|].
  intros k arg m r' _ IH. unfold objDefault.
  destruct (GetDefaultValue arg) as [val|]; [|done].
  destruct (o_Arguments r' !! Argument_Name arg) eqn:Hk; [done|]. simpl.
  etrans; [exact IH|]. by apply insert_subseteq.
Qed.



(** X6.  No token undoes what an earlier token has set: the flags, the
    argument values and the primary argument that a prefix of the
    tokens has recorded are in the result of the whole parse,
    unchanged, in the scope they were recorded in. *)
Theorem later_tokens_keep_what_is_set (cli : Command) (pre post : list string)
    (w w1 w' : World) (ap1 : argParser) (r : ArgParseResult) :
  consumeAll (initial cli) pre w = (Ok ap1, w1) ->
  parse cli (pre ++ post) w = (Ok r, w') ->
  forall i o, semanticStack ap1 !! i = Some o ->
    exists ri, scope r i = Some ri /\
      o_flags o ⊆ r_flags ri /\ o_Arguments o ⊆ Arguments ri /\
      (o_primaryArg o <> "" -> r_primaryArg ri = o_primaryArg o).
Proof.
  intros Hpre Hp i o Ho.
  destruct (parse_scopes cli _ w w' r Hp) as (ap & Hrun & Hinv & Hst & Hsc & Hex).
  rewrite consumeAll_app in Hrun. unfold bind at 1 in Hrun. rewrite Hpre in Hrun.
  destruct (consumeAll_Ok _ _ _ _ _ (inv_initial cli) Hpre) as [Hinv1 _].
  destruct (consumeAll_grows post ap1 ap w1 w' Hinv1 Hrun i o Ho)
    as (o' & Ho' & Hf & Ha & Hpa).
  destruct (Hex i) as [ri Hs].
  { destruct Hinv as (_ & <- & _). by eapply lookup_lt_Some. }
  destruct (Hsc i ri Hs) as (c & o2 & Hc & Ho2 & Hfl & Har & _ & Hprim & _).
  assert (o2 = o') as -> by congruence.
  exists ri. rewrite Hfl, Har, Hprim. split; [done|]. split; [done|].
  split; [|done]. etrans; [exact Ha|]. apply defaultsOf_keeps.
Qed.


(** ** The parts of a token *)

Lemma append_assoc (a b c : string) : (a +:+ b) +:+ c = a +:+ b +:+ c.
Proof.
  induction a as [|x a IH]; [done|].
  change (String x ((a +:+ b) +:+ c) = String x (a +:+ b +:+ c)). by f_equal.
Qed.

Lemma length_append (a b : string) :
  String.length (a +:+ b) = String.length a + String.length b.
Proof.
  induction a as [|x a IH]; [done|].
  change (S (String.length (a +:+ b)) = S (String.length a + String.length b)).
  by f_equal.
Qed.

Lemma TrimLeft_parts (s : string) :
  exists n, s = dashRun n +:+ strings.TrimLeft s "-" /\
            strings.HasPrefix (strings.TrimLeft s "-") "-" = false.
Proof.
  induction s as [|c s IH]; [by exists 0|].
  destruct (decide (c = "-"%char)) as [->|Hc].
  - destruct IH as (n & Hs & Hd). exists (S n). split; [|exact Hd].
    change (String "-" s
            = String "-" (dashRun n +:+ strings.TrimLeft s "-")).
    by f_equal.
  - exists 0.
    assert (strings.TrimLeft (String c s) "-" = String c s) as ->.
    { simpl. by rewrite decide_False by congruence. }
    split; [done|]. simpl. by rewrite decide_False.
Qed.

Lemma TrimLeft_dashRun (n : nat) (s : string) :
  strings.TrimLeft (dashRun n +:+ s) "-" = strings.TrimLeft s "-".
Proof. induction n as [|n IH]; [done|exact IH]. Qed.

Lemma ContainsByte_dashRun (n : nat) : strings.ContainsByte (dashRun n) "=" = false.
Proof. induction n as [|n IH]; [done|exact IH]. Qed.

Lemma ContainsByte_TrimLeft (s : string) :
  strings.ContainsByte s "=" = false ->
  strings.ContainsByte (strings.TrimLeft s "-") "=" = false.
Proof.
  intros Hs. destruct (TrimLeft_parts s) as (n & Heq & _).
  rewrite Heq, ContainsByte_app in Hs. by apply orb_false_elim in Hs as [_ ?].
Qed.

Lemma extract_dash (s : string) :
  extractComponents (String "-" s) = extractComponents s.
Proof.
  unfold extractComponents. rewrite !Contains_byte.
  change (strings.ContainsByte (String "-" s) "=") with (strings.ContainsByte s "=").
  destruct (strings.ContainsByte s "=") eqn:Hc; [|done].
  change (strings.Split (String "-" s) "=")
    with (match strings.Split s "=" with
          | [] => [String "-"%char ""]
          | p :: ps => String "-"%char p :: ps
          end).
  destruct (strings.Split s "=") as [|p ps] eqn:Hs; [by apply Split_nonempty in Hs|].
  done.
Qed.

Lemma extract_dashRun (n : nat) (s : string) :
  extractComponents (dashRun n +:+ s) = extractComponents s.
Proof.
  induction n as [|n IH]; [done|].
  change (dashRun (S n) +:+ s) with (String "-" (dashRun n +:+ s)).
  by rewrite extract_dash.
Qed.

(** X8.  [extractComponents] takes a token apart, and the parts give
    the token back: the name has no leading dash and holds no ["="];
    the token is some dashes, then the name, then, if the token holds
    an ["="], the ["="] and the value; without ["="] the value is
    empty.  The other way round, a name without leading dash and
    without ["="] is recovered from any number of dashes followed by
    the name, and the name and the value from dashes, name, ["="] and
    value, whatever the value holds. *)
Theorem extractComponents_round_trip (arg nm val : string) :
  (extractComponents arg = (nm, val) ->
     plainName nm /\
     exists n,
       (strings.Contains arg "=" = false -> val = "" /\ arg = dashRun n +:+ nm) /\
       (strings.Contains arg "=" = true ->
          arg = dashRun n +:+ nm +:+ "=" +:+ val)) /\
  (plainName nm ->
     forall n, extractComponents (dashRun n +:+ nm) = (nm, "") /\
               extractComponents (dashRun n +:+ nm +:+ "=" +:+ val) = (nm, val)).
Proof.
  split.
  - intros He. rewrite Contains_byte.
    destruct (strings.ContainsByte arg "=") eqn:Hc.
    + destruct (ContainsByte_first arg "=" Hc) as (pre & post & -> & Hpre).
      change (String "="%char post) with ("=" +:+ post) in He.
      rewrite (extract_with_eq pre post Hpre) in He. injection He as <- <-.
      destruct (TrimLeft_parts pre) as (n & Heq & Hd).
      split; [split; [by apply ContainsByte_TrimLeft|done]|].
      exists n. split; [done|]. intros _.
      rewrite Heq at 1. apply append_assoc.
    + rewrite (extract_without_eq arg Hc) in He. injection He as <- <-.
      destruct (TrimLeft_parts arg) as (n & Heq & Hd).
      split; [split; [by apply ContainsByte_TrimLeft|done]|].
      exists n. split; [done|]. done.
  - intros [Heq Hd] n. rewrite !extract_dashRun. split.
    + rewrite (extract_without_eq nm Heq). by rewrite TrimLeft_no_dash.
    + rewrite (extract_with_eq nm val Heq). by rewrite TrimLeft_no_dash.
Qed.

Lemma consume_dash (ap : argParser) (t : string) :
  strings.HasPrefix t "--" = true -> consume ap (String "-" t) = consume ap t.
Proof.
  intros Ht. pose proof (HasPrefix_two_one t Ht) as Ht1. unfold consume.
  assert (strings.HasPrefix (String "-" t) "--" = true) as ->.
  { destruct t as [|c t]; [done|]. exact Ht1. }
  by rewrite Ht, extract_dash.
Qed.

(** X9.  Dashes beyond the second are ignored: a token of three or more
    dashes followed by some text is consumed as the token of two dashes
    followed by that text, so [---name] sets what [--name] sets. *)
Theorem extra_dashes_are_ignored (ap : argParser) (n : nat) (s : string) :
  consume ap (dashRun n +:+ "--" +:+ s) = consume ap ("--" +:+ s).
Proof.
  induction n as [|n IH]; [done|].
  change (dashRun (S n) +:+ "--" +:+ s) with (String "-" (dashRun n +:+ "--" +:+ s)).
  rewrite consume_dash; [exact IH|].
  clear. induction n as [|n IH]; [done|].
  change (dashRun (S n) +:+ "--" +:+ s) with (String "-" (dashRun n +:+ "--" +:+ s)).
  apply HasPrefix_two_one in IH.
  destruct (dashRun n +:+ "--" +:+ s) as [|c t]; [done|]. exact IH.
Qed.

(** * The builder and the help flag *)

Lemma typedDefaults_fields (c c' : Command) :
  args c' = args c -> subcommands c' = subcommands c ->
  typedDefaults c -> typedDefaults c'.
Proof.
  intros Ha Hs Ht. inversion Ht as [? Hty Hsub]; subst.
  constructor; rewrite ?Ha, ?Hs; done.
Qed.

Lemma AddFlag_Some (c c' : Command) (f : Flag) :
  AddFlag c f = Some c' ->
  flags c !! flag_name f = None /\ flagsByShortName c !! flag_shortName f = None /\
  c' = mkCommand (Name c) (Description c) (RequiresSubcommand c) (subcommands c)
         (<[flag_name f := f]> (flags c)) (args c)
         (<[flag_shortName f := f]> (flagsByShortName c))
         (argsByShortName c) (primaryArg c).
Proof.
  unfold AddFlag. destruct (flags c !! flag_name f); [done|].
  destruct (flagsByShortName c !! flag_shortName f); [done|]. by intros [= <-].
Qed.

Lemma addArg_Some (c c' : Command) (a : Argument) :
  addArg c a = Some c' ->
  args c !! Argument_Name a = None /\
  argsByShortName c !! Argument_ShortName a = None /\
  c' = mkCommand (Name c) (Description c) (RequiresSubcommand c) (subcommands c)
         (flags c) (<[Argument_Name a := a]> (args c)) (flagsByShortName c)
         (<[Argument_ShortName a := a]> (argsByShortName c)) (primaryArg c).
Proof.
  unfold addArg. destruct (args c !! Argument_Name a); [done|].
  destruct (argsByShortName c !! Argument_ShortName a); [done|]. by intros [= <-].
Qed.

Lemma AddSubcommand_Some (c subc c' : Command) :
  AddSubcommand c subc = Some c' ->
  primaryArg c = None /\ subcommands c !! Name subc = None /\
  c' = mkCommand (Name c) (Description c) (RequiresSubcommand c)
         (<[Name subc := subc]> (subcommands c))
         (flags c) (args c) (flagsByShortName c) (argsByShortName c)
         (primaryArg c).
Proof.
  unfold AddSubcommand. destruct (primaryArg c); [done|].
  destruct (subcommands c !! Name subc); [done|]. by intros [= <-].
Qed.

Lemma AddPrimaryArg_Some (c c' : Command) (p : PrimaryArgument) :
  AddPrimaryArg c p = Some c' ->
  subcommands c = ∅ /\
  c' = mkCommand (Name c) (Description c) (RequiresSubcommand c)
         (subcommands c) (flags c) (args c) (flagsByShortName c)
         (argsByShortName c) (Some p).
Proof.
  unfold AddPrimaryArg.
  destruct (bool_decide (0 < size (subcommands c))) eqn:Hs; [done|].
  intros [= <-]. split; [|done].
  apply bool_decide_eq_false in Hs. apply map_size_empty_inv. lia.
Qed.

(** X10.  A default that [SetDefaultValue] accepts has the type of its
    argument: for the integer, float and string kinds by the type of
    the method, for a selector because the value went through
    [checkValue] and is one of the possible values.  A selector default
    outside the possible values is fatal, whatever the validator. *)
Theorem SetDefaultValue_gives_typed_defaults (ab : argumentBase) (w w' : World)
    (a : Argument) :
  (forall vd z, IntArgument_SetDefaultValue ab vd z w = (Ok a, w') -> typedArg a) /\
  (forall vd x, FloatArgument_SetDefaultValue ab vd x w = (Ok a, w') -> typedArg a) /\
  (forall vd x, StringArgument_SetDefaultValue ab vd x w = (Ok a, w') -> typedArg a) /\
  (forall pv vd x,
     SelectorArgument_SetDefaultValue ab pv vd x w = (Ok a, w') ->
     typedArg a /\ x ∈ pv /\ GetDefaultValue a = Some (VString x)) /\
  (forall pv vd x,
     x ∉ pv ->
     SelectorArgument_SetDefaultValue ab pv vd x w
     = (Err (NotAValidValue x (name ab)), w)).
Proof.
  split; [|split; [|split; [|split]]].
  - intros vd z Hs. apply bind_inv_Ok in Hs as (v & w1 & _ & Hret).
    unfold ret in Hret. injection Hret as <- _. by intros v' [= <-].
  - intros vd z Hs. apply bind_inv_Ok in Hs as (v & w1 & _ & Hret).
    unfold ret in Hret. injection Hret as <- _. by intros v' [= <-].
  - intros vd z Hs. apply bind_inv_Ok in Hs as (v & w1 & _ & Hret).
    unfold ret in Hret. injection Hret as <- _. by intros v' [= <-].
  - intros pv vd x Hs. apply bind_inv_Ok in Hs as (v & w1 & Hcv & Hret).
    unfold ret in Hret. injection Hret as <- _.
    assert (x ∈ pv) as Hin.
    { simpl in Hcv. by destruct (decide (x ∈ pv)). }
    split; [|done]. by intros v' [= <-].
  - intros pv vd x Hnot. unfold SelectorArgument_SetDefaultValue, bind. simpl.
    by rewrite decide_False.
Qed.

Lemma built_sound (c : Command) :
  built c -> wf_command c /\ typedDefaults c.
Proof.
  induction 1 as [nm dsc|c c' f Hb [IHw IHt] Hadd|c c' a Hb [IHw IHt] Ha Hadd
                 |c subc c' Hb [IHw IHt] Hs [IHsw IHst] Hadd
                 |c c' p Hb [IHw IHt] Hadd|c b Hb [IHw IHt]].
  - split; [apply wf_newCommand|]. constructor; simpl; intros ? ?; by rewrite lookup_empty.
  - split; [exact (wf_AddFlag c c' f IHw Hadd)|].
    apply AddFlag_Some in Hadd as (_ & _ & ->). apply (typedDefaults_fields c); [reflexivity|reflexivity|exact IHt].
  - split; [exact (wf_addArg c c' a IHw Hadd)|].
    apply addArg_Some in Hadd as (_ & _ & ->).
    inversion IHt as [? Hty Hsub]; subst. constructor; simpl; [|done].
    intros k a' v Hk Hv. destruct (decide (Argument_Name a = k)) as [<-|Hne].
    + rewrite lookup_insert_eq in Hk. injection Hk as <-. by apply Ha.
    + rewrite lookup_insert_ne in Hk by done. by eapply Hty.
  - split; [exact (wf_AddSubcommand c subc c' IHw IHsw Hadd)|].
    apply AddSubcommand_Some in Hadd as (_ & _ & ->).
    inversion IHt as [? Hty Hsub]; subst. constructor; simpl; [done|].
    intros k s Hk. destruct (decide (Name subc = k)) as [<-|Hne].
    + rewrite lookup_insert_eq in Hk. by injection Hk as <-.
    + rewrite lookup_insert_ne in Hk by done. by eapply Hsub.
  - split; [exact (wf_AddPrimaryArg c c' p IHw Hadd)|].
    apply AddPrimaryArg_Some in Hadd as (_ & ->). apply (typedDefaults_fields c); [reflexivity|reflexivity|exact IHt].
  - split; [by apply wf_set_RequiresSubcommand|]. apply (typedDefaults_fields c); [reflexivity|reflexivity|exact IHt].
Qed.

(** A flag token as the first token of a parse. *)
Lemma consume_initial_flag (c : Command) (long : bool) (nm : string) (w : World) :
  plainName nm ->
  consume (initial c) (dashes long +:+ nm) w
  = match flagTable long c !! nm with
    | Some f =>
        (Ok (mkArgParser c [c] [addFlag newResult (flag_name f)] false),
         runAction f w)
    | None => (Err (if long then UnknownFlag nm else UnknownFlagByShortName nm), w)
    end.
Proof.
  intros Hplain. pose proof Hplain as [_ Hd].
  destruct (dashes_prefix long nm Hd) as [Hlong Hdash].
  rewrite (consume_dashed (initial c) _ nm "" long (extract_flag long nm Hplain)
             Hlong Hdash).
  rewrite decide_True by done. cbn [initial commandStack length resolve].
  change ([c] !! 0) with (Some c). cbv beta iota.
  destruct (flagTable long c !! nm) as [f|]; [|done].
  rewrite (setFlag_eq (set_allowSubcommands (initial c) false) 0 f newResult w
             eq_refl).
  rewrite decide_False; [done|]. simpl. apply not_elem_of_empty.
Qed.


Lemma plainName_help : plainName "help" /\ plainName "h".
Proof. by repeat split. Qed.

Section HelpFlagFacts.
Variable helpAction : World -> World.

Lemma NewCLI_built (nm dsc : string) (helpEnabled : bool) :
  exists c, NewCLI helpAction nm dsc helpEnabled = Some c /\ built c /\
            Name c = nm /\ Description c = dsc /\ RequiresSubcommand c = true /\
            (flags c !! "help" = if helpEnabled then Some (helpFlag helpAction)
                                 else None).
Proof.
  destruct helpEnabled; simpl.
  - eexists. split; [reflexivity|]. split; [|by repeat split].
    by apply (built_flag (newCommand nm dsc) _ (helpFlag helpAction));
      [apply built_new|].
  - eexists. split; [reflexivity|]. split; [apply built_new|by repeat split].
Qed.

Lemma EnableHelp_built (c c' : Command) :
  built c -> EnableHelp helpAction c = Some c' -> built c'.
Proof.
  intros Hb. unfold EnableHelp. destruct (args c !! "help").
  - by intros [= <-].
  - intros Hadd. by eapply built_flag.
Qed.

(** X11.  Every tree that the builder makes is well-formed: each flag
    and each argument is filed under its own name and under its own
    short name, in both tables, no command has both a primary argument
    and subcommands, every subcommand is filed under its name, and
    every default has the type of its argument; all of this in every
    subcommand as well.  [NewCLI] is never fatal and returns such a
    tree, with or without the help flag, and [EnableHelp], where it is
    not fatal, keeps a tree such. *)
Theorem builder_makes_well_formed_trees (c : Command) :
  built c ->
  (wf_command c /\ typedDefaults c) /\
  (forall c', EnableHelp helpAction c = Some c' ->
              wf_command c' /\ typedDefaults c') /\
  (forall nm dsc helpEnabled,
     exists c0, NewCLI helpAction nm dsc helpEnabled = Some c0 /\
                wf_command c0 /\ typedDefaults c0 /\
                (if helpEnabled then flags c0 !! "help" = Some (helpFlag helpAction)
                 else flags c0 = ∅)).
Proof.
  intros Hb. split; [by apply built_sound|]. split.
  - intros c' Hen. apply built_sound. by eapply EnableHelp_built.
  - intros nm dsc helpEnabled.
    destruct (NewCLI_built nm dsc helpEnabled) as (c0 & Hnew & Hb0 & _ & _ & _ & Hh).
    exists c0. split; [done|]. destruct (built_sound c0 Hb0) as [Hwf Hty].
    split; [done|]. split; [done|].
    destruct helpEnabled; [done|]. simpl in Hnew. by injection Hnew as <-.
Qed.

(** X12.  [EnableHelp] tests the arguments of the command, not its
    flags.  On a command with an argument named ["help"] it does
    nothing, so that no help flag is added; on a command without such
    an argument it adds the help flag, which is fatal if a flag named
    ["help"] or a flag with the short name ["h"] is there already: to
    enable help twice, or on a command made with help enabled, ends the
    program. *)
Theorem EnableHelp_tests_the_arguments (c : Command) :
  (is_Some (args c !! "help") -> EnableHelp helpAction c = Some c) /\
  (args c !! "help" = None ->
     (EnableHelp helpAction c = None <->
        is_Some (flags c !! "help") \/ is_Some (flagsByShortName c !! "h")) /\
     (forall c', EnableHelp helpAction c = Some c' ->
                 flags c' !! "help" = Some (helpFlag helpAction) /\
                 flagsByShortName c' !! "h" = Some (helpFlag helpAction) /\
                 EnableHelp helpAction c' = None)) /\
  (forall nm dsc c0, NewCLI helpAction nm dsc true = Some c0 ->
                     EnableHelp helpAction c0 = None).
Proof.
  split; [|split].
  - intros [a Ha]. unfold EnableHelp. by rewrite Ha.
  - intros Hnone. unfold EnableHelp. rewrite Hnone. split.
    + unfold AddFlag. simpl.
      destruct (flags c !! "help") as [f|] eqn:Hf.
      * split; [intros _; left; by eexists|done].
      * destruct (flagsByShortName c !! "h") as [g|] eqn:Hg.
        -- split; [intros _; right; by eexists|done].
        -- split; [done|]. by intros [[? ?]|[? ?]].
    + intros c' Hadd. apply AddFlag_Some in Hadd as (_ & _ & ->). simpl.
      rewrite Hnone, !lookup_insert_eq. repeat split.
      unfold AddFlag. simpl. by rewrite lookup_insert_eq.
  - intros nm dsc c0 Hnew. simpl in Hnew.
    apply AddFlag_Some in Hnew as (_ & _ & ->).
    unfold EnableHelp, AddFlag. simpl. by rewrite lookup_empty, lookup_insert_eq.
Qed.


End HelpFlagFacts.

(** X14.  [DisableHelp] removes by the fixed names ["help"] and ["h"],
    whatever flag they belong to.  On a well-formed command whose flag
    ["help"] has the short name ["h"] the result is well-formed and
    holds neither name.  If the flag ["help"] has another short name,
    the flag stays reachable by that short name, which still sets
    ["help"], while [--help] is an unknown flag; and a flag of another
    name that owns the short name ["h"] loses its short name and keeps
    its name. *)
Theorem DisableHelp_removes_by_fixed_names (c : Command) (f : Flag) :
  wf_command c -> flags c !! "help" = Some f ->
  flags (DisableHelp c) !! "help" = None /\
  flagsByShortName (DisableHelp c) !! "h" = None /\
  (flag_shortName f = "h" -> wf_command (DisableHelp c)) /\
  (flag_shortName f <> "h" ->
     ~ wf_command (DisableHelp c) /\
     (plainName (flag_shortName f) ->
      forall w,
        consume (initial (DisableHelp c)) ("--" +:+ "help") w
        = (Err (UnknownFlag "help"), w) /\
        consume (initial (DisableHelp c)) ("-" +:+ flag_shortName f) w
        = (Ok (mkArgParser (DisableHelp c) [DisableHelp c]
                 [addFlag newResult "help"] false), runAction f w)) /\
     (forall g, flagsByShortName c !! "h" = Some g ->
        flags (DisableHelp c) !! flag_name g = Some g /\
        forall w, consume (initial (DisableHelp c)) ("-" +:+ "h") w
                  = (Err (UnknownFlagByShortName "h"), w))).
Proof.
  intros Hwf Hf. inversion Hwf as [? Hfl Hfs Ha Has Hex Hsub]; subst.
  destruct (Hfl "help" f Hf) as [Hname Hshort].
  assert (flags (DisableHelp c) = delete "help" (flags c)) as Hflags.
  { unfold DisableHelp. by rewrite Hf. }
  assert (flagsByShortName (DisableHelp c) = delete "h" (flagsByShortName c)) as Hshorts.
  { unfold DisableHelp. by rewrite Hf. }
  destruct plainName_help as [Hl Hsh].
  split; [by rewrite Hflags, lookup_delete_eq|].
  split; [by rewrite Hshorts, lookup_delete_eq|]. split.
  - intros Hh. unfold DisableHelp. rewrite Hf.
    constructor; cbn [flags flagsByShortName args argsByShortName primaryArg
                        subcommands]; [| |exact Ha|exact Has|exact Hex|exact Hsub].
    + intros k f0 Hk. destruct (decide (k = "help")) as [->|Hne].
      { by rewrite lookup_delete_eq in Hk. }
      rewrite lookup_delete_ne in Hk by done.
      destruct (Hfl k f0 Hk) as [Hn Hs]. split; [done|].
      rewrite lookup_delete_ne; [done|]. intros Heq. rewrite <- Heq, <- Hh in Hs.
      rewrite Hshort in Hs. injection Hs as <-. congruence.
    + intros k f0 Hk. destruct (decide (k = "h")) as [->|Hne].
      { by rewrite lookup_delete_eq in Hk. }
      rewrite lookup_delete_ne in Hk by done.
      destruct (Hfs k f0 Hk) as [Hs Hn]. split; [done|].
      rewrite lookup_delete_ne; [done|]. intros Heq. rewrite <- Heq in Hn.
      rewrite Hf in Hn. injection Hn as <-. congruence.
  - intros Hh.
    assert (flagsByShortName (DisableHelp c) !! flag_shortName f = Some f) as Hkept.
    { rewrite Hshorts, lookup_delete_ne by done. exact Hshort. }
    split; [|split].
    + intros Hwf'. inversion Hwf' as [? _ Hfs' _ _ _ _]; subst.
      destruct (Hfs' _ f Hkept) as [_ Hbad].
      by rewrite Hname, Hflags, lookup_delete_eq in Hbad.
    + intros Hplain w. split.
      * etrans; [exact (consume_initial_flag (DisableHelp c) true "help" w Hl)|].
        simpl. by rewrite Hflags, lookup_delete_eq.
      * etrans; [exact (consume_initial_flag (DisableHelp c) false _ w Hplain)|].
        simpl. by rewrite Hkept, Hname.
    + intros g Hg. destruct (Hfs "h" g Hg) as [Hgs Hgn]. split.
      * rewrite Hflags, lookup_delete_ne; [done|]. intros Heq.
        rewrite <- Heq, Hf in Hgn. injection Hgn as <-. congruence.
      * intros w.
        etrans; [exact (consume_initial_flag (DisableHelp c) false "h" w Hsh)|].
        simpl. by rewrite Hshorts, lookup_delete_eq.
Qed.

(** * The help message *)








Lemma len_append (a b : string) : len (a +:+ b) = (len a + len b)%Z.
Proof. unfold len. rewrite length_append. lia. Qed.



Lemma substring_prefix (a b : string) :
  substring 0 (String.length a) (a +:+ b) = a.
Proof.
  induction a as [|c a IH]; [by destruct b|].
  change (String c (substring 0 (String.length a) (a +:+ b)) = String c a).
  by rewrite IH.
Qed.

Lemma foldl_values (l : list string) :
  l <> [] ->
  forall b, foldl (fun b value => b +:+ value +:+ "|") b l
            = b +:+ strings.Join l "|" +:+ "|".
Proof.
  induction l as [|x l IH]; [done|]. intros _ b.
  destruct l as [|y l]; [done|].
  change (foldl (fun b value => b +:+ value +:+ "|") b (x :: y :: l))
    with (foldl (fun b value => b +:+ value +:+ "|") (b +:+ x +:+ "|") (y :: l)).
  rewrite IH by done.
  change (strings.Join (x :: y :: l) "|")
    with (x +:+ "|" +:+ strings.Join (y :: l) "|").
  by rewrite <- !append_assoc.
Qed.

Lemma argValueOf_cases (arg : Argument) :
  argValueOf arg
  = match arg with
    | IntArgument _ _ => Ok "int"
    | FloatArgument _ _ => Ok "float"
    | StringArgument _ _ => Ok "string"
    | SelectorArgument _ pv _ =>
        if decide (pv = ∅) then Panic "slice bounds out of range"
        else Ok (strings.Join (elements pv) "|")
    end.
Proof.
  destruct arg as [ab vd|ab vd|ab vd|ab pv vd]; try done.
  unfold argValueOf. destruct (decide (pv = ∅)) as [->|Hne].
  - by rewrite elements_empty.
  - assert (elements pv <> []) as Hel.
    { intros Hnil. by apply elements_empty_inv, leibniz_equiv in Hnil. }
    rewrite (foldl_values _ Hel "").
    generalize (strings.Join (elements pv) "|"). intros J.
    change ("" +:+ J +:+ "|") with (J +:+ "|").
    unfold slice_to. rewrite len_append.
    assert (len "|" = 1%Z) as -> by done.
    rewrite decide_True by (unfold len; lia).
    replace (Z.to_nat (len J + 1 - 1)) with (String.length J) by (unfold len; lia).
    by rewrite substring_prefix.
Qed.

(** X15.  The usage line shows the value of an argument by its kind:
    [int], [float], [string], and for a selector its possible values
    separated by [|].  For a selector without possible values the
    slice expression that drops the last separator is out of range, a
    panic. *)
Theorem usage_value_of_an_argument (arg : Argument) :
  argValueOf arg
  = match arg with
    | IntArgument _ _ => Ok "int"
    | FloatArgument _ _ => Ok "float"
    | StringArgument _ _ => Ok "string"
    | SelectorArgument _ pv _ =>
        if decide (pv = ∅) then Panic "slice bounds out of range"
        else Ok (strings.Join (elements pv) "|")
    end.
Proof. apply argValueOf_cases. Qed.






Section HelpFacts.
Variable Wrapper : Z -> bool -> string -> string.
Variable Indent : string -> string -> bool -> string.








End HelpFacts.


(** * From the builder to the parser *)


(** The parse of one token that leaves the stack as it is. *)
Lemma parse_single (c : Command) (t : string) (o : resultObj) (w w' : World) :
  consume (initial c) t w = (Ok (mkArgParser c [c] [o] false), w') ->
  missesSubcommand c = false ->
  parse c [t] w = (Ok (flat (defaultsOf c o)), w').
Proof.
  intros Hc Hmiss.
  assert (consumeAll (initial c) [t] w = (Ok (mkArgParser c [c] [o] false), w'))
    as Hrun.
  { simpl. unfold bind. by rewrite Hc. }
  destruct (parse_of_run c [t] w w' _ Hrun) as (c0 & Hlast & _ & Hok).
  injection Hlast as <-.
  destruct (Hok Hmiss) as (ss' & r & Hp & Hch & Hlen & Hss).
  specialize (Hss 0 c o eq_refl eq_refl).
  destruct ss' as [|o' [|o'' ss']]; [done| |done].
  injection Hss as ->. simpl in Hch. injection Hch as <-. exact Hp.
Qed.


(** * What the help message holds *)

Lemma append_nil_r (a : string) : a +:+ "" = a.
Proof.
  induction a as [|x a IH]; [done|].
  change (String x (a +:+ "") = String x a). by f_equal.
Qed.

Lemma HasPrefix_app_l (s a b : string) :
  strings.HasPrefix a s = true -> strings.HasPrefix (a +:+ b) s = true.
Proof.
  revert a. induction s as [|p s IH]; intros a Ha; [done|].
  destruct a as [|x a]; [done|].
  change (strings.HasPrefix (String x (a +:+ b)) (String p s) = true).
  simpl in *. destruct (decide (x = p)); [by apply IH|done].
Qed.


Lemma Contains_prefix (s t : string) :
  strings.HasPrefix s t = true -> strings.Contains s t = true.
Proof. intros Hp. destruct s; simpl; by rewrite Hp. Qed.

Lemma Contains_app_r (a b s : string) :
  strings.Contains b s = true -> strings.Contains (a +:+ b) s = true.
Proof.
  intros Hb. induction a as [|x a IH]; [done|].
  change (strings.HasPrefix (String x (a +:+ b)) s || strings.Contains (a +:+ b) s
          = true).
  by rewrite IH, orb_true_r.
Qed.

Lemma Contains_app_l (a b s : string) :
  strings.Contains a s = true -> strings.Contains (a +:+ b) s = true.
Proof.
  induction a as [|x a IH]; intros Ha.
  - simpl in Ha. rewrite orb_false_r in Ha.
    apply Contains_prefix. by apply (HasPrefix_app_l s "" b).
  - change (strings.HasPrefix (String x a) s || strings.Contains a s = true) in Ha.
    change (strings.HasPrefix (String x a +:+ b) s || strings.Contains (a +:+ b) s
            = true).
    apply orb_true_iff in Ha as [Hp|Hc].
    + by rewrite (HasPrefix_app_l s (String x a) b Hp).
    + by rewrite (IH Hc), orb_true_r.
Qed.

Lemma Contains_head (p rest : string) : strings.Contains (p +:+ rest) p = true.
Proof. apply Contains_prefix, HasPrefix_app. Qed.

Lemma Contains_refl (p : string) : strings.Contains p p = true.
Proof. rewrite <- (append_nil_r p) at 1. apply Contains_head. Qed.

Lemma foldl_writes {X : Type} (step : string -> X -> Res string)
    (piece : X -> string) (l : list X) :
  (forall x, x ∈ l -> forall b, step b x = Ok (b +:+ piece x)) ->
  forall b, exists rest,
    foldl (fun acc x => Res_bind acc (fun b => step b x)) (Ok b) l
    = Ok (b +:+ rest) /\
    forall x, x ∈ l -> strings.Contains rest (piece x) = true.
Proof.
  induction l as [|y l IH]; intros Hstep b.
  - exists "". split; [by rewrite append_nil_r|].
    intros x Hx. by apply not_elem_of_nil in Hx.
  - simpl. rewrite (Hstep y (list_elem_of_here y l) b). simpl.
    destruct (IH (fun x Hx => Hstep x (list_elem_of_further x y l Hx))
                (b +:+ piece y)) as (rest & -> & Hall).
    exists (piece y +:+ rest). split; [by rewrite append_assoc|].
    intros x [Heq|Hx]%elem_of_cons.
    + subst x. apply Contains_head.
    + apply Contains_app_r. by apply Hall.
Qed.

Lemma rangeMap_writes {X : Type} (body : string -> string -> X -> Res string)
    (piece : string -> X -> string) (m : gmap string X) :
  (forall k x, m !! k = Some x -> forall b, body b k x = Ok (b +:+ piece k x)) ->
  forall b, exists rest,
    rangeMap body b m = Ok (b +:+ rest) /\
    forall k x, m !! k = Some x -> strings.Contains rest (piece k x) = true.
Proof.
  intros Hbody b. unfold rangeMap.
  destruct (foldl_writes (fun b kx => body b kx.1 kx.2)
              (fun kx => piece kx.1 kx.2) (map_to_list m)) with (b := b)
    as (rest & Heq & Hall).
  { intros [k x] Hkx b0. apply Hbody. by apply elem_of_map_to_list. }
  exists rest. split; [exact Heq|].
  intros k x Hk. apply (Hall (k, x)). by apply elem_of_map_to_list.
Qed.



Section HelpContents.
Variable Wrapper : Z -> bool -> string -> string.
Variable Indent : string -> string -> bool -> string.

(** X19.  The usage line names the command and every option: when no
    selector lacks possible values, [buildUsageLine] writes the
    indented line that starts with the name of the command, holds
    [<command>] if the command has subcommands and otherwise the name
    of the primary argument in brackets if there is one, holds for
    every argument its short name, its name and the value shown for its
    kind, and for every flag its short name and its name. *)
Theorem usage_line_names_every_option (c : Command) :
  (forall k ab pv vd, args c !! k = Some (SelectorArgument ab pv vd) -> pv <> ∅) ->
  exists ub,
    buildUsageLine Indent c = Ok (Indent (ub +:+ nl) "    " true) /\
    strings.HasPrefix ub (Name c +:+ " ") = true /\
    (0 < size (subcommands c) -> strings.Contains ub "<command> " = true) /\
    (forall p, size (subcommands c) = 0 -> primaryArg c = Some p ->
               strings.Contains ub ("[" +:+ pa_name p +:+ "] ") = true) /\
    (forall k a, args c !! k = Some a ->
       exists argValue,
         argValueOf a = Ok argValue /\
         strings.Contains ub ("[" +:+ Argument_ShortName a +:+ "|"
                              +:+ Argument_Name a +:+ "=<" +:+ argValue +:+ ">] ")
         = true) /\
    (forall k f, flags c !! k = Some f ->
       strings.Contains ub ("[-" +:+ flag_shortName f +:+ "|--" +:+ flag_name f
                            +:+ "] ") = true).
Proof.
  intros Hsel.
  assert (forall a, (exists k, args c !! k = Some a) ->
            exists av, argValueOf a = Ok av) as Hav.
  { intros a [k Hk]. rewrite argValueOf_cases.
    destruct a as [ab vd|ab vd|ab vd|ab pv vd]; try by eexists.
    rewrite decide_False by (by eapply Hsel). by eexists. }
  unfold buildUsageLine.
  set (ub0 := if decide (0 < size (subcommands c))
              then (Name c +:+ " ") +:+ "<command> "
              else match primaryArg c with
                   | Some p => (Name c +:+ " ") +:+ "[" +:+ pa_name p +:+ "] "
                   | None => Name c +:+ " "
                   end).
  match goal with
  | |- context [rangeMap ?body ub0 (args c)] =>
      destruct (rangeMap_writes body
                  (fun _ a => match argValueOf a with
                              | Ok av => "[" +:+ Argument_ShortName a +:+ "|"
                                         +:+ Argument_Name a +:+ "=<" +:+ av +:+ ">] "
                              | _ => ""
                              end) (args c)) with (b := ub0)
        as (r1 & -> & Hargs)
  end.
  { intros k a Hk b. destruct (Hav a (ex_intro _ k Hk)) as [av ->]. done. }
  cbn [Res_bind].
  match goal with
  | |- context [rangeMap ?body (ub0 +:+ r1) (flags c)] =>
      destruct (rangeMap_writes body
                  (fun _ f => "[-" +:+ flag_shortName f +:+ "|--" +:+ flag_name f
                              +:+ "] ") (flags c)) with (b := ub0 +:+ r1)
        as (r2 & -> & Hflags)
  end.
  { done. }
  cbn [Res_bind]. exists ((ub0 +:+ r1) +:+ r2). split; [done|].
  assert (strings.HasPrefix ub0 (Name c +:+ " ") = true) as Hname.
  { subst ub0. destruct (decide (0 < size (subcommands c))); [apply HasPrefix_app|].
    destruct (primaryArg c); [apply HasPrefix_app|].
    rewrite <- (append_nil_r (Name c +:+ " ")) at 1. apply HasPrefix_app. }
  split; [by do 2 apply HasPrefix_app_l|]. split; [|split; [|split]].
  - intros Hpos. do 2 apply Contains_app_l. subst ub0.
    rewrite decide_True by done. apply Contains_app_r, Contains_refl.
  - intros p Hz Hp. do 2 apply Contains_app_l. subst ub0.
    rewrite decide_False by lia. rewrite Hp.
    apply Contains_app_r, Contains_refl.
  - intros k a Hk. destruct (Hav a (ex_intro _ k Hk)) as [av Hv].
    exists av. split; [done|]. apply Contains_app_l, Contains_app_r.
    specialize (Hargs k a Hk). by rewrite Hv in Hargs.
  - intros k f Hk. apply Contains_app_r. by eapply Hflags.
Qed.


End HelpContents.

(** * A flag that no token names *)

Lemma resolve_ext {X : Type} (table : Command -> gmap string X)
    (stack stack' : list Command) (nm : string) (n : nat) :
  length stack' = length stack ->
  (forall i c1 c2, stack !! i = Some c1 -> stack' !! i = Some c2 ->
                   table c2 !! nm = table c1 !! nm) ->
  resolve table stack' nm n = resolve table stack nm n.
Proof.
  intros Hlen Htab. induction n as [|i IH]; [done|]. simpl.
  destruct (stack !! i) as [c1|] eqn:H1.
  - destruct (lookup_lt_is_Some_2 stack' i) as [c2 H2].
    { rewrite Hlen. by eapply lookup_lt_Some. }
    rewrite H2, (Htab i c1 c2 H1 H2). by rewrite IH.
  - rewrite lookup_ge_None_2; [done|]. rewrite Hlen. by apply lookup_ge_None_1.
Qed.

Lemma setFlag_reroot (c' : Command) (ap : argParser) (i : nat) (f : Flag) (w : World) :
  setFlag (reroot c' ap) i f w = mapOutcome (reroot c') (setFlag ap i f w).
Proof.
  unfold setFlag, bind, lift, index. simpl.
  destruct (semanticStack ap !! i) as [r|]; [|done]. simpl.
  destruct (decide (flag_name f ∈ o_flags r)); [done|].
  by destruct (flag_action f).
Qed.

Lemma setArg_reroot (c' : Command) (ap : argParser) (i : nat) (a : Argument)
    (val : string) (w : World) :
  setArg (reroot c' ap) i a val w = mapOutcome (reroot c') (setArg ap i a val w).
Proof.
  unfold setArg, bind, lift, index. simpl.
  destruct (semanticStack ap !! i) as [r|]; [|done]. simpl.
  destruct (o_Arguments r !! Argument_Name a); [done|].
  by destruct (checkValue a val w) as [[v|e|m] w1].
Qed.

Section Reroot.
Variables (c c' : Command) (f : Flag).
Hypothesis Hadd : AddFlag c f = Some c'.

Lemma AddFlag_fields :
  Name c' = Name c /\ RequiresSubcommand c' = RequiresSubcommand c /\
  subcommands c' = subcommands c /\ args c' = args c /\
  argsByShortName c' = argsByShortName c /\ primaryArg c' = primaryArg c /\
  flags c' = <[flag_name f := f]> (flags c) /\
  flagsByShortName c' = <[flag_shortName f := f]> (flagsByShortName c).
Proof. apply AddFlag_Some in Hadd as (_ & _ & ->). by repeat split. Qed.

Lemma reroot_last (ap : argParser) (d : Command) :
  head (commandStack ap) = Some c -> last (commandStack ap) = Some d ->
  exists d', last (commandStack (reroot c' ap)) = Some d' /\
             Name d' = Name d /\ RequiresSubcommand d' = RequiresSubcommand d /\
             subcommands d' = subcommands d /\ primaryArg d' = primaryArg d.
Proof.
  intros Hhd Hlast. destruct (commandStack ap) as [|c0 tl] eqn:Hst; [done|].
  injection Hhd as ->. simpl. rewrite Hst. simpl.
  destruct AddFlag_fields as (Hn & Hr & Hs & _ & _ & Hp & _).
  destruct tl as [|c1 tl].
  - injection Hlast as <-. by exists c'.
  - exists d. split; [|done]. by rewrite !last_cons_cons in *.
Qed.

Lemma consume_reroot (ap : argParser) (t : string) (w : World) :
  inv ap -> head (commandStack ap) = Some c -> avoids f t ->
  consume (reroot c' ap) t w = mapOutcome (reroot c') (consume ap t w).
Proof.
  intros Hinv Hhd Hav. pose proof Hinv as (Hne & Hlen & Hl).
  destruct AddFlag_fields as (Hn & Hr & Hs & Ha & Has & Hp & Hf & Hfs).
  destruct (commandStack ap) as [|c0 tl] eqn:Hst; [done|]. injection Hhd as ->.
  assert (commandStack (reroot c' ap) = c' :: tl) as Hst'.
  { unfold reroot. simpl. by rewrite Hst. }
  destruct (strings.HasPrefix t "-") eqn:Hd.
  - destruct (extractComponents t) as [argName argVal] eqn:He.
    rewrite (consume_dashed (reroot c' ap) t argName argVal _ He eq_refl Hd).
    rewrite (consume_dashed ap t argName argVal _ He eq_refl Hd).
    rewrite Hst', Hst.
    change (set_allowSubcommands (reroot c' ap) false)
      with (reroot c' (set_allowSubcommands ap false)).
    destruct (decide (argVal = "")) as [->|Hval].
    + rewrite (resolve_ext (flagTable (strings.HasPrefix t "--")) (c :: tl) (c' :: tl)).
      * destruct (resolve _ _ _ _) as [[i f0]|]; [|done]. apply setFlag_reroot.
      * done.
      * intros [|i] c1 c2 H1 H2; simpl in H1, H2; [|congruence].
        injection H1 as <-. injection H2 as <-.
        specialize (Hav Hd). rewrite He in Hav. specialize (Hav eq_refl).
        cbn [fst] in Hav.
        destruct (strings.HasPrefix t "--"); cbn [flagTable].
        -- rewrite Hf. apply lookup_insert_ne. congruence.
        -- rewrite Hfs. apply lookup_insert_ne. congruence.
    + rewrite (resolve_ext (argTable (strings.HasPrefix t "--")) (c :: tl) (c' :: tl)).
      * destruct (resolve _ _ _ _) as [[i a]|]; [|done]. apply setArg_reroot.
      * done.
      * intros [|i] c1 c2 H1 H2; simpl in H1, H2; [|congruence].
        injection H1 as <-. injection H2 as <-.
        destruct (strings.HasPrefix t "--"); simpl; by rewrite ?Ha, ?Has.
  - destruct (inv_top ap Hinv) as (d & r & Hcc & Hlast & Hcr & Hri & Hnone).
    destruct (reroot_last ap d) as (d' & Hlast' & Hdn & _ & Hds & Hdp).
    { by rewrite Hst. } { done. }
    rewrite (consume_bare (reroot c' ap) t d' r w Hd (top_lookup _ _ Hlast') Hcr).
    rewrite (consume_bare ap t d r w Hd Hcc Hcr).
    rewrite Hdn, Hds, Hdp. simpl.
    destruct (primaryArg d).
    + by destruct (decide (o_primaryArg r = "")).
    + destruct (allowSubcommands ap); [|done].
      destruct (subcommands d !! t) as [subc|]; [|done].
      simpl. unfold reroot. simpl. by rewrite Hst.
Qed.

Lemma consumeAll_reroot (tokens : list string) :
  forall (ap : argParser) (w : World),
    inv ap -> head (commandStack ap) = Some c -> Forall (avoids f) tokens ->
    consumeAll (reroot c' ap) tokens w
    = mapOutcome (reroot c') (consumeAll ap tokens w).
Proof.
  induction tokens as [|t rest IH]; intros ap w Hinv Hhd Hav; [done|].
  apply Forall_cons in Hav as [Ht Hrest]. simpl. unfold bind.
  rewrite (consume_reroot ap t w Hinv Hhd Ht).
  destruct (consume ap t w) as [[ap1|e|m] w1] eqn:Hc; [|done..]. simpl.
  destruct (consume_Ok _ _ _ _ _ Hinv Hc) as (Hinv1 & _ & Hcases).
  apply IH; [done| |done].
  destruct Hcases as [[-> _]|(_ & _ & _ & _ & c0 & subc & _ & _ & _ & ->)]; [done|].
  destruct (commandStack ap); [done|]. exact Hhd.
Qed.

Lemma fillDefaults_reroot (ap : argParser) :
  inv ap -> head (commandStack ap) = Some c ->
  fillDefaults (reroot c' ap) (length (commandStack (reroot c' ap)))
  = Res_bind (fillDefaults ap (length (commandStack ap)))
      (fun ap1 => Ok (reroot c' ap1)).
Proof.
  intros Hinv Hhd.
  destruct AddFlag_fields as (_ & _ & _ & Ha & _).
  assert (exists tl, commandStack ap = c :: tl) as [tl Hst].
  { destruct (commandStack ap) as [|c0 tl]; [done|]. injection Hhd as ->.
    by exists tl. }
  pose proof Hinv as (Hne & Hlen & Hl).
  assert (commandStack (reroot c' ap) = c' :: tl) as Hst'.
  { unfold reroot. simpl. by rewrite Hst. }
  destruct (fillDefaults_eq ap (length (commandStack ap)) Hlen (le_n _))
    as (ss1 & Hfd1 & Hlen1 & Hlk1).
  destruct (fillDefaults_eq (reroot c' ap) (length (commandStack (reroot c' ap))))
    as (ss2 & Hfd2 & Hlen2 & Hlk2).
  { rewrite Hst'. simpl. by rewrite Hlen, Hst. } { done. }
  rewrite Hfd1, Hfd2. simpl.
  f_equal. unfold reroot. simpl. rewrite Hst.
  assert (ss2 = ss1) as ->; [|done].
  apply list_eq. intros j. rewrite Hlk1, Hlk2, Hst, Hst'. simpl.
  destruct (decide (j < S (length tl))); [|done].
  destruct j as [|j]; simpl; [|done].
  destruct (semanticStack ap !! 0) as [r|]; [|done].
  unfold defaultsOf. by rewrite Ha.
Qed.

(** X21.  A flag that no token names changes nothing: on the command
    [c'] that [AddFlag c f] returns, a token list in which no flag
    token has the name of the new flag after two dashes or its short
    name after one dash is parsed as on the command before, with the
    same result or the same error and the same effects. *)
Theorem unused_flag_changes_nothing (tokens : list string) (w : World) :
  Forall (avoids f) tokens -> parse c' tokens w = parse c tokens w.
Proof.
  intros Hav. unfold parse.
  change (initial c') with (reroot c' (initial c)).
  pose proof (consumeAll_reroot tokens (initial c) w (inv_initial c) eq_refl Hav)
    as Hrun'.
  destruct (consumeAll (initial c) tokens w) as [[ap|e|m] w1] eqn:Hrun;
    simpl in Hrun'.
  2, 3: unfold bind; by rewrite Hrun, Hrun'.
  rewrite (bind_Ok _ _ _ _ _ Hrun), (bind_Ok _ _ _ _ _ Hrun').
  destruct (consumeAll_Ok _ _ _ _ _ (inv_initial c) Hrun) as [Hinv _].
  destruct (inv_top ap Hinv) as (d & r & Hcc & Hlast & _).
  assert (head (commandStack ap) = Some c) as Hhd.
  { rewrite (consumeAll_entered tokens (initial c) ap c w w1 (inv_initial c)
               eq_refl Hrun). done. }
  destruct (reroot_last ap d Hhd Hlast) as (d' & Hlast' & Hdn & Hdr & Hds & _).
  rewrite (bind_Ok (lift (currCommand ap)) _ w1 w1 d)
    by (unfold lift; by rewrite Hcc).
  rewrite (bind_Ok (lift (currCommand (reroot c' ap))) _ w1 w1 d')
    by (unfold lift, currCommand; by rewrite (top_lookup _ _ Hlast')).
  assert (missesSubcommand d' = missesSubcommand d) as ->.
  { unfold missesSubcommand. by rewrite Hds, Hdr. }
  rewrite Hdn. destruct (missesSubcommand d); [done|].
  unfold bind, lift. rewrite (fillDefaults_reroot ap Hinv Hhd).
  by destruct (fillDefaults ap (length (commandStack ap))).
Qed.

End Reroot.

(** * The arguments, the subcommands and the primary argument of the builder *)




(** X23.  The subcommand and the primary argument that the builder
    adds are what a bare word means.  On the command that
    [AddSubcommand] returns, the name of the new subcommand as the only
    token gives a result whose [Subcommand] is that name with the
    result of the subcommand, which holds no flag and no primary
    argument; on the command that [AddPrimaryArg] returns, a bare word
    as the only token is returned by [PrimaryArg], with [true] if the
    word is not empty, and a second bare word is the error of multiple
    primary arguments.  No callback runs. *)
Theorem added_subcommand_and_primary_are_parsed (c c' : Command) (w : World) :
  (forall subc,
     AddSubcommand c subc = Some c' -> bare (Name subc) ->
     missesSubcommand subc = false ->
     exists r child,
       parse c' [Name subc] w = (Ok r, w) /\
       Subcommand r = (Name subc, Some child, true) /\
       r_flags child = ∅ /\ PrimaryArg child = ("", false) /\
       Subcommand child = ("", None, false)) /\
  (forall p word,
     AddPrimaryArg c p = Some c' -> bare word ->
     (exists r, parse c' [word] w = (Ok r, w) /\
                PrimaryArg r = (word, negb (bool_decide (word = ""))) /\
                Subcommand r = ("", None, false)) /\
     (forall word', word <> "" -> bare word' ->
        parse c' [word; word'] w
        = (Err (MultiplePrimaryArguments (Name c)), w))).
Proof.
  split.
  - intros subc Hadd Hb Hmiss. apply AddSubcommand_Some in Hadd as (Hp & _ & Hc').
    assert (consumeAll (initial c') [Name subc] w
            = (Ok (mkArgParser c' [c'; subc]
                     [setSubcommand newResult 1 (Name subc); newResult] true), w))
      as Hrun.
    { simpl. unfold bind.
      rewrite (consume_bare (initial c') (Name subc) c' newResult w Hb eq_refl eq_refl).
      assert (primaryArg c' = None) as -> by (by rewrite Hc').
      assert (subcommands c' !! Name subc = Some subc) as ->.
      { rewrite Hc'. simpl. apply lookup_insert_eq. }
      done. }
    destruct (parse_of_run c' _ w w _ Hrun) as (d & Hlast & _ & Hok).
    injection Hlast as <-.
    destruct (Hok Hmiss) as (ss' & r & Hparse & Hch & Hlen & Hss).
    pose proof (Hss 0 c' _ eq_refl eq_refl) as H0.
    pose proof (Hss 1 subc _ eq_refl eq_refl) as H1.
    destruct ss' as [|o0 [|o1 [|o2 ss']]]; try done.
    injection H0 as ->. injection H1 as ->.
    simpl in Hch. injection Hch as <-.
    eexists _, _. split; [exact Hparse|]. unfold Subcommand, PrimaryArg. simpl.
    destruct (defaultsOf_fields c' (setSubcommand newResult 1 (Name subc)))
      as (_ & -> & _).
    destruct (defaultsOf_fields subc newResult) as (-> & -> & _ & ->).
    done.
  - intros p word Hadd Hb. apply AddPrimaryArg_Some in Hadd as (Hempty & Hc').
    assert (primaryArg c' = Some p) as Hp by (by rewrite Hc').
    assert (missesSubcommand c' = false) as Hmiss.
    { unfold missesSubcommand. rewrite Hc'. simpl.
      by rewrite Hempty, map_size_empty. }
    assert (consume (initial c') word w
            = (Ok (mkArgParser c' [c'] [setPrimaryArg newResult word] false), w))
      as Hc1.
    { rewrite (consume_bare (initial c') word c' newResult w Hb eq_refl eq_refl).
      by rewrite Hp. }
    split.
    + eexists. split; [by apply parse_single|].
      unfold PrimaryArg, Subcommand. simpl.
      destruct (defaultsOf_fields c' (setPrimaryArg newResult word))
        as (_ & -> & _ & ->).
      done.
    + intros word' Hne Hb'. apply parse_of_failed_run. simpl. unfold bind.
      rewrite Hc1.
      rewrite (consume_bare
                 (mkArgParser c' [c'] [setPrimaryArg newResult word] false)
                 word' c' (setPrimaryArg newResult word) w Hb' eq_refl eq_refl).
      rewrite Hp. simpl. rewrite decide_False by done. by rewrite Hc'.
Qed.

End MoreTheory.

(** * The further properties on the trees of the test suite *)

Section MoreInstances.
Import Demo.

Import DemoMore.

Ltac decided := apply (bool_decide_unpack _); exact I.

Lemma built_force (o : option Command) :
  (forall c, o = Some c -> built c) -> built (force o).
Proof.
  intros Ho. destruct o as [c|]; simpl; [by apply Ho|apply built_new].
Qed.

Lemma typedArg_plain (a : Argument) : GetDefaultValue a = None -> typedArg a.
Proof. intros Hn v Hv. rewrite Hn in Hv. discriminate Hv. Qed.

Lemma typedArg_intArg : typedArg intArg.
Proof. intros v Hv. injection Hv as <-. exact I. Qed.

Lemma typedArg_selArg : typedArg selArg.
Proof. intros v Hv. injection Hv as <-. simpl. decided. Qed.

Lemma typedArg_outputArg : typedArg outputArg.
Proof. intros v Hv. injection Hv as <-. exact I. Qed.

Ltac built_tree :=
  repeat first
    [ apply built_new
    | apply built_force; intros ? ?
    | progress unfold buildCmd, modCmd, initCmd
    | match goal with
      | H : _ ≫= _ = Some _ |- _ => apply bind_Some in H as (? & ? & ?)
      | H : AddFlag ?c0 ?f = Some ?c |- built ?c =>
          apply (built_flag c0 c f); [|exact H]
      | H : addArg ?c0 ?a = Some ?c |- built ?c =>
          apply (built_arg c0 c a); [| |exact H]
      | H : AddSubcommand ?c0 ?s = Some ?c |- built ?c =>
          apply (built_subcommand c0 s c); [| |exact H]
      | H : AddPrimaryArg ?c0 ?q = Some ?c |- built ?c =>
          apply (built_primary c0 c q); [|exact H]
      | |- typedArg intArg => exact typedArg_intArg
      | |- typedArg selArg => exact typedArg_selArg
      | |- typedArg outputArg => exact typedArg_outputArg
      | |- typedArg _ => apply typedArg_plain; reflexivity
      end ].


Lemma built_mixed : built mixed.
Proof. unfold mixed. built_tree. Qed.

Lemma accepted_tokens_witness :
  inv (initial olive) /\
  step (initial olive) "--flag2" [] (stateOf olive ["--flag2"]) ["ran action"].
Proof.
  split; [apply inv_initial|].
  apply (accepted_tokens (initial olive) (stateOf olive ["--flag2"]) "--flag2"
           [] ["ran action"] (inv_initial olive)).
  reflexivity.
Defined.


Lemma result_mirrors_subcommand_path_witness :
  parse mixed ["mod"; "init"; "name"] []
  = (Ok (resultOf mixed ["mod"; "init"; "name"]), []) /\
  entered mixed ["mod"; "init"; "name"] = [modCmd; initCmd] /\
  Subcommand (resultOf mixed ["mod"; "init"; "name"])
  = ("mod", scope (resultOf mixed ["mod"; "init"; "name"]) 1, true) /\
  is_Some (scope (resultOf mixed ["mod"; "init"; "name"]) 2) /\
  ~ is_Some (scope (resultOf mixed ["mod"; "init"; "name"]) 3).
Proof.
  assert (parse mixed ["mod"; "init"; "name"] []
          = (Ok (resultOf mixed ["mod"; "init"; "name"]), [])) as Hp.
  { reflexivity. }
  destruct (result_mirrors_subcommand_path mixed _ [] [] _ Hp) as (Hiff & Hsub & _).
  split; [exact Hp|]. split; [reflexivity|].
  split; [exact (Hsub 0 _ eq_refl)|]. split.
  - apply (proj2 (Hiff 2)). exact (le_n 2).
  - intros Hs. apply (proj1 (Hiff 3)) in Hs. exact (Nat.nle_succ_diag_l 2 Hs).
Defined.


Lemma defaults_fill_the_gaps_witness :
  wf_command olive /\
  consumeAll (initial olive) ["--int=4"] []
  = (Ok (stateOf olive ["--int=4"]), ["validated int"]) /\
  parse olive ["--int=4"] []
  = (Ok (resultOf olive ["--int=4"]), ["validated int"]) /\
  exists ri, scope (resultOf olive ["--int=4"]) 0 = Some ri /\
    Arguments ri !! "int" = Some (VInt 4) /\
    Arguments ri !! "sel" = Some (VString "val1") /\
    Arguments ri !! "str" = None.
Proof.
  assert (consumeAll (initial olive) ["--int=4"] []
          = (Ok (stateOf olive ["--int=4"]), ["validated int"])) as Hrun.
  { reflexivity. }
  assert (parse olive ["--int=4"] []
          = (Ok (resultOf olive ["--int=4"]), ["validated int"])) as Hp.
  { reflexivity. }
  split; [exact wf_olive|]. split; [exact Hrun|]. split; [exact Hp|].
  destruct (defaults_fill_the_gaps olive _ [] _ _ _ wf_olive Hrun Hp 0 olive
              (setArgument newResult "int" (VInt 4)) eq_refl eq_refl)
    as (ri & Hs & Hall).
  exists ri. split; [exact Hs|].
  exact (conj (Hall "int") (conj (Hall "sel") (Hall "str"))).
Defined.

Lemma later_tokens_keep_what_is_set_witness :
  consumeAll (initial mixed) ["build"; "pkg"] []
  = (Ok (stateOf mixed ["build"; "pkg"]), []) /\
  parse mixed (["build"; "pkg"] ++ ["-v"]) []
  = (Ok (resultOf mixed ["build"; "pkg"; "-v"]), []) /\
  exists ri, scope (resultOf mixed ["build"; "pkg"; "-v"]) 1 = Some ri /\
             r_primaryArg ri = "pkg".
Proof.
  assert (consumeAll (initial mixed) ["build"; "pkg"] []
          = (Ok (stateOf mixed ["build"; "pkg"]), [])) as Hrun.
  { reflexivity. }
  assert (parse mixed (["build"; "pkg"] ++ ["-v"]) []
          = (Ok (resultOf mixed ["build"; "pkg"; "-v"]), [])) as Hp.
  { reflexivity. }
  split; [exact Hrun|]. split; [exact Hp|].
  destruct (later_tokens_keep_what_is_set mixed _ _ [] _ _ _ _ Hrun Hp 1
              (setPrimaryArg newResult "pkg") eq_refl)
    as (ri & Hs & _ & _ & Hprim).
  exists ri. split; [exact Hs|]. apply Hprim. discriminate.
Defined.


Lemma extractComponents_round_trip_witness :
  extractComponents "---name=a=b" = ("name", "a=b") /\
  plainName "name" /\
  (exists n, "---name=a=b" = dashRun n +:+ "name" +:+ "=" +:+ "a=b") /\
  forall n, extractComponents (dashRun n +:+ "name" +:+ "=" +:+ "a=b")
            = ("name", "a=b").
Proof.
  destruct (extractComponents_round_trip "---name=a=b" "name" "a=b")
    as [Hdec Henc].
  destruct (Hdec eq_refl) as (Hplain & n & _ & Hwith).
  split; [reflexivity|]. split; [exact Hplain|]. split.
  - exists n. exact (Hwith eq_refl).
  - intros m. exact (proj2 (Henc Hplain m)).
Defined.

Lemma extra_dashes_are_ignored_witness :
  consume (initial olive) "----flag1" [] = consume (initial olive) "--flag1" [] /\
  consume (initial olive) "----flag1" [] = (Ok (stateOf olive ["--flag1"]), []).
Proof.
  assert (consume (initial olive) "----flag1" []
          = consume (initial olive) "--flag1" []) as Heq.
  { exact (f_equal (fun m => m []) (extra_dashes_are_ignored (initial olive) 2 "flag1")). }
  split; [exact Heq|]. rewrite Heq. reflexivity.
Defined.

Lemma SetDefaultValue_gives_typed_defaults_witness :
  SelectorArgument_SetDefaultValue (mkArgumentBase "sel" "se" "" false None)
    {["val1"; "val2"; "badVal"]} (Some notBadVal) "val1" []
  = (Ok selArg, ["validated sel"]) /\
  typedArg selArg /\
  SelectorArgument_SetDefaultValue (mkArgumentBase "sel" "se" "" false None)
    {["val1"; "val2"; "badVal"]} (Some notBadVal) "val3" []
  = (Err (NotAValidValue "val3" "sel"), []).
Proof.
  destruct (SetDefaultValue_gives_typed_defaults (H := host)
              (mkArgumentBase "sel" "se" "" false None) [] ["validated sel"] selArg)
    as (_ & _ & _ & Hsel & _).
  destruct (SetDefaultValue_gives_typed_defaults (H := host)
              (mkArgumentBase "sel" "se" "" false None) [] [] selArg)
    as (_ & _ & _ & _ & Hbad).
  split; [reflexivity|]. split.
  - exact (proj1 (Hsel {["val1"; "val2"; "badVal"]} (Some notBadVal) "val1" eq_refl)).
  - apply Hbad. decided.
Defined.

Lemma builder_makes_well_formed_trees_witness :
  built mixed /\ wf_command mixed /\ typedDefaults mixed.
Proof.
  split; [exact built_mixed|].
  exact (proj1 (builder_makes_well_formed_trees (H := host) helpAction mixed
                  built_mixed)).
Defined.

Lemma EnableHelp_tests_the_arguments_witness :
  NewCLI helpAction "olive" "" true = Some cliWithHelp /\
  EnableHelp helpAction cliWithHelp = None.
Proof.
  destruct (EnableHelp_tests_the_arguments (H := host) helpAction cliWithHelp) as (_ & _ & Hnew).
  split; [reflexivity|]. exact (Hnew "olive" "" cliWithHelp eq_refl).
Defined.


Lemma built_cliOwnHelp : built cliOwnHelp.
Proof. unfold cliOwnHelp. built_tree. Qed.

Lemma DisableHelp_removes_by_fixed_names_witness :
  wf_command cliOwnHelp /\ flags cliOwnHelp !! "help" = Some ownHelp /\
  ~ wf_command (DisableHelp cliOwnHelp) /\
  consume (initial (DisableHelp cliOwnHelp)) "--help" []
  = (Err (UnknownFlag "help"), []) /\
  consume (initial (DisableHelp cliOwnHelp)) "-x" []
  = (Ok (mkArgParser (DisableHelp cliOwnHelp) [DisableHelp cliOwnHelp]
           [addFlag newResult "help"] false), []) /\
  flags (DisableHelp cliOwnHelp) !! "halt" = Some halt /\
  consume (initial (DisableHelp cliOwnHelp)) "-h" []
  = (Err (UnknownFlagByShortName "h"), []).
Proof.
  pose proof (proj1 (built_sound cliOwnHelp built_cliOwnHelp)) as Hwf.
  split; [exact Hwf|]. split; [reflexivity|].
  destruct (DisableHelp_removes_by_fixed_names cliOwnHelp ownHelp Hwf eq_refl)
    as (_ & _ & _ & Hother).
  destruct (Hother ltac:(discriminate)) as (Hnot & Hshort & Hh).
  split; [exact Hnot|].
  destruct (Hshort (conj eq_refl eq_refl) []) as [Hlong Hx].
  split; [exact Hlong|]. split; [exact Hx|].
  destruct (Hh halt eq_refl) as [Hkept Hgone].
  split; [exact Hkept|]. exact (Hgone []).
Defined.

Lemma usage_value_of_an_argument_witness :
  argValueOf noChoice = Panic "slice bounds out of range" /\
  argValueOf selArg = Ok (strings.Join (elements ({["val1"; "val2"; "badVal"]} : gset string)) "|") /\
  argValueOf intArg = Ok "int".
Proof.
  split; [|split].
  - rewrite (usage_value_of_an_argument noChoice). reflexivity.
  - rewrite (usage_value_of_an_argument selArg). reflexivity.
  - exact (usage_value_of_an_argument intArg).
Defined.





Lemma olive_choices (k : string) (ab : argumentBase) (pv : gset string)
    (vd : option (validator string)) :
  args olive !! k = Some (SelectorArgument ab pv vd) -> pv <> ∅.
Proof.
  change (args olive)
    with (<["sel" := selArg]> (<["str" := strArg]> (<["int" := intArg]>
            (∅ : gmap string Argument)))).
  intros Hk.
  apply lookup_insert_Some in Hk as [[_ Hk]|[_ Hk]].
  - injection Hk as _ <- _. decided.
  - apply lookup_insert_Some in Hk as [[_ Hk]|[_ Hk]]; [discriminate Hk|].
    apply lookup_insert_Some in Hk as [[_ Hk]|[_ Hk]]; [discriminate Hk|].
    rewrite lookup_empty in Hk. discriminate Hk.
Qed.

Lemma usage_line_names_every_option_witness :
  (forall k ab pv vd, args olive !! k = Some (SelectorArgument ab pv vd) -> pv <> ∅) /\
  exists ub,
    buildUsageLine Indent olive = Ok (Indent (ub +:+ nl) "    " true) /\
    strings.HasPrefix ub "olive " = true /\
    strings.Contains ub "[i|int=<int>] " = true /\
    strings.Contains ub "[-f1|--flag1] " = true.
Proof.
  split; [exact olive_choices|].
  destruct (usage_line_names_every_option (H := host) Indent olive olive_choices)
    as (ub & Hline & Hname & _ & _ & Hargs & Hflags).
  exists ub. split; [exact Hline|]. split; [exact Hname|]. split.
  - destruct (Hargs "int" intArg eq_refl) as (av & Hav & Hin).
    injection Hav as <-. exact Hin.
  - exact (Hflags "flag1" flag1 eq_refl).
Defined.


Lemma unused_flag_changes_nothing_witness :
  AddFlag (force (AddFlag (newCommand "olive" "") flag1)) flag2
  = Some (force (c ← AddFlag (newCommand "olive" "") flag1; AddFlag c flag2)) /\
  Forall (avoids flag2) ["--flag1"; "-x=3"; "word"] /\
  parse (force (c ← AddFlag (newCommand "olive" "") flag1; AddFlag c flag2))
    ["--flag1"; "-x=3"; "word"] []
  = parse (force (AddFlag (newCommand "olive" "") flag1))
      ["--flag1"; "-x=3"; "word"] [].
Proof.
  assert (Forall (avoids flag2) ["--flag1"; "-x=3"; "word"]) as Hav.
  { repeat constructor.
    - intros _ _. discriminate.
    - intros _ Hval. discriminate Hval.
    - intros Hdash. discriminate Hdash. }
  split; [reflexivity|]. split; [exact Hav|].
  exact (unused_flag_changes_nothing
           (force (AddFlag (newCommand "olive" "") flag1))
           (force (c ← AddFlag (newCommand "olive" "") flag1; AddFlag c flag2))
           flag2 eq_refl _ [] Hav).
Defined.


Lemma added_subcommand_and_primary_are_parsed_witness :
  (exists r,
     parse (force (AddPrimaryArg (newCommand "olive" "")
                     (mkPrimaryArgument "file" "" false))) ["a.txt"] []
     = (Ok r, []) /\
     PrimaryArg r = ("a.txt", true)) /\
  parse (force (AddPrimaryArg (newCommand "olive" "")
                  (mkPrimaryArgument "file" "" false))) ["a.txt"; "b.txt"] []
  = (Err (MultiplePrimaryArguments "olive"), []).
Proof.
  destruct (added_subcommand_and_primary_are_parsed (newCommand "olive" "")
              (force (AddPrimaryArg (newCommand "olive" "")
                        (mkPrimaryArgument "file" "" false))) []) as [_ Hprim].
  destruct (Hprim (mkPrimaryArgument "file" "" false) "a.txt" eq_refl eq_refl)
    as [(r & Hp & Hpa & _) Htwice].
  split.
  - exists r. split; [exact Hp|]. exact Hpa.
  - exact (Htwice "b.txt" ltac:(discriminate) eq_refl).
Defined.

End MoreInstances.
